(** * Insurance return pipeline: a shallow embedding of [InsuranceService.ts]

    The development follows [src/project/src/services/InsuranceService.ts]
    method by method.  Conventions of the embedding:

    - JavaScript numbers are rationals ([Q]); [Math.round] is
      [Qfloor (x + 1/2)].  The methods of the service are embedded with
      exact arithmetic; the two that multiply and divide fractions,
      [getPremium] and [getInsuranceReturnTimestamp], are embedded a second
      time in the module [Double], where every operation is rounded to the
      nearest binary64 value as the code's operations on doubles are.
      Prices, percentages and seconds are far below the largest double, so
      that no operation gives [Infinity] or [NaN].
    - An optional property ([slotId?], [location?], [upd?], ...) is an
      [option]; [None] stands for a property that is absent (or [undefined]).
    - a [Record<string, T>] used as a dictionary is a [gmap string T] (its
      keys are item or trader ids, never the name of a property inherited
      from [Object.prototype]); the
      per-player registry object, which is enumerated with [for ... in], is
      an insertion-ordered property list (trader ids are not array-index
      strings, so [for ... in] visits them in insertion order).
    - items are values: the registry arrays hold clones made by
      [jsonUtil.clone], each in one array only; a profile ([pmcData]) that
      is mutated is an object in a store and is passed by reference.
    - the service instance, the profile objects it mutates and the outgoing
      messages are one explicit state, threaded by a small state-and-exception
      monad; a thrown [TypeError] keeps the mutations made before it.
    - collaborators that live outside this file of the repository
      (helpers, servers, utilities) are the fields of [Collaborators].

    [src/project/src/controllers/LocationController.ts] is embedded in the
    same way in the module [Location]. *)

From Stdlib Require Import QArith Qround Qabs Qpower Lqa SpecFloat.
From stdpp Require Import gmap strings list fin_maps.

Local Open Scope string_scope.
Local Open Scope list_scope.

(** ** Data model *)

Module Model.

Record Repairable := {
  Durability : option Q;
  MaxDurability : option Q
}.

Record FaceShield := {
  Hits : option Q
}.

(** [Item.upd]: the three properties the service touches, and the remaining
    ones kept as they are. *)
Record Upd := {
  SpawnedInSession : option bool;
  updRepairable : option Repairable;
  updFaceShield : option FaceShield;
  updOther : list (string * string)
}.

(** [Item.location] is a number or a grid position object. *)
Inductive ItemLocation :=
| LocNumber (n : Z)
| LocGrid (x y : Z) (r : string).

Record Item := {
  _id : string;
  _tpl : string;
  parentId : option string;
  slotId : option string;
  location : option ItemLocation;
  upd : option Upd
}.

(** [IInsuredItemsData]: wear data the client reports at raid end. *)
Record IInsuredItemsData := {
  id : string;
  durability : option Q;
  maxDurability : option Q;
  hits : option Q
}.

(** An entry of [pmcData.InsuredItems]. *)
Record InsuredItem := {
  tid : string;
  itemId : string
}.

Record Bonus := {
  bonusType : string;
  bonusValue : Q
}.

Record IInventory := {
  equipment : string
}.

Record IPmcData := {
  Inventory : IInventory;
  InsuredItems : list InsuredItem;
  Bonuses : list Bonus
}.

(** [ISaveProgressRequestData]: [profile.Inventory.items] and the optional
    [insurance] array. *)
Record ISaveProgressRequestData := {
  profile_Inventory_items : list Item;
  insurance : option (list IInsuredItemsData)
}.

Record IInsuranceConfig := {
  insuranceMultiplier : gmap string Q;
  blacklistedEquipment : list string;
  returnTimeOverrideSeconds : Q
}.

Record TraderInsurance := {
  min_return_hour : Q;
  max_return_hour : Q;
  max_storage_time : Q
}.

Record ITraderBase := {
  traderInsurance : TraderInsurance
}.

Record LoyaltyLevel := {
  insurance_price_coef : Q
}.

(** The template lists of a trader's [dialogue] object that the service reads. *)
Record Dialogue := {
  insuranceStart : list string;
  insuranceFound : list string;
  insuranceFailed : list string;
  insuranceFailedLabs : list string
}.

(** An entry of [databaseServer.getTables().traders]. *)
Record ITrader := {
  dialogue : option Dialogue
}.

Inductive MessageType := NPC_TRADER | INSURANCE_RETURN.

Record SystemData := {
  sysDate : option string;
  sysTime : option string;
  sysLocation : option string
}.

Record MessageContent := {
  templateId : string;
  type : MessageType;
  maxStorageTime : Q;
  text : option string;
  profileChangeEvents : option (list string);
  systemData : option SystemData
}.

(** An entry of the profile's [insurance] array. *)
Record Insurance := {
  scheduledTime : Q;
  insTraderId : string;
  messageContent : MessageContent;
  items : list Item
}.

(** The arguments of a call of
    [mailSendService.sendLocalisedNpcMessageToPlayer]. *)
Record NpcMail := {
  mailSessionId : string;
  mailTrader : string;
  mailType : MessageType;
  mailTemplateId : string;
  mailItems : list Item;
  mailMaxStorage : option Q;
  mailSystemData : SystemData
}.

(** A logger call; the number substituted for [${...}] in a debug template
    literal is kept next to its text. *)
Inductive LogEntry :=
| LogDebug (msg : string) (value : Q)
| LogWarning (msg : string)
| LogError (msg : string).

(** A reference to a profile object. *)
Definition ref := positive.

(** The element pushed on [equipmentToSendToPlayer]; [gearPmcData] is the
    reference to the profile, shared by all the elements of one call. *)
Record Gear := {
  gearPmcData : ref;
  itemToReturnToPlayer : Item;
  gearTraderId : string;
  gearSessionID : string
}.

(** The parts of the repository the service calls and that are defined in
    other files.  [getInt n lo hi] and [getArrayValue n l] are the [n]-th
    draw of the injected random source. *)
Record Collaborators := {
  getTimestamp : Q;
  getDateMailFormat : string;
  getTimeMailFormat : string;
  getInt : nat -> Q -> Q -> Q;
  getArrayValue : nat -> list string -> string;
  getTrader : string -> string -> ITraderBase;
  getLoyaltyLevel : string -> IPmcData -> LoyaltyLevel;
  getStaticItemPrice : string -> Q;
  createMessageContext : string -> MessageType -> Q -> MessageContent;
  getText : string -> string -> string;
  traders : gmap string ITrader;
  PRAPOR : string
}.

(** The mutable world of the service: the [insured] registry, the profile
    objects, the logger, the random source's position, and what has been
    handed to the dialogue helper ([dialogueMessages]: the arguments of each
    [addDialogueMessage] call, as they were at the call), the mail service
    and the save server (the [insurance] array of each profile). *)
Record World := {
  insured : gmap string (list (string * list Item));
  profiles : gmap ref IPmcData;
  logged : list LogEntry;
  draws : nat;
  dialogueMessages : list (string * MessageContent * string);
  npcMails : list NpcMail;
  profileInsurance : gmap string (list Insurance)
}.

End Model.
Export Model.

(** ** JavaScript primitives *)

(** Truthiness of an optional number: absent, [undefined] and [0] are falsy. *)
Definition truthy (x : option Q) : bool :=
  match x with
  | None => false
  | Some q => negb (Qeq_bool q 0%Q)
  end.

(** [Math.round]: the nearest integer, halves towards plus infinity. *)
Definition Math_round (x : Q) : Z := Qfloor (x + (1 # 2))%Q.

(** [Math.abs]. *)
Definition Math_abs (x : Q) : Q := Qabs x.

(** [Array.prototype.includes] on an array of strings, asked about a value
    that may be [undefined]. *)
Definition includes (l : list string) (x : option string) : bool :=
  match x with
  | None => false
  | Some s => bool_decide (s ∈ l)
  end.

(** [String.prototype.toLowerCase] on one character: only the 26 capital
    letters change.  A non-ASCII character never becomes one of the letters
    of the word the service compares with, so the bytes above 127 are left
    as they are. *)
Definition lower_ascii (c : Ascii.ascii) : Ascii.ascii :=
  let n := Ascii.nat_of_ascii c in
  if ((65 <=? n) && (n <=? 90))%nat then Ascii.ascii_of_nat (n + 32) else c.

Fixpoint toLowerCase (s : string) : string :=
  match s with
  | EmptyString => EmptyString
  | String c s' => String (lower_ascii c) (toLowerCase s')
  end.

(** Property lists: an object whose keys are enumerated in insertion order. *)
Section props.
Context {V : Type}.

(** [o[k]] *)
Fixpoint prop_get (k : string) (o : list (string * V)) : option V :=
  match o with
  | [] => None
  | (k', v) :: o' => if decide (k' = k) then Some v else prop_get k o'
  end.

(** [o[k] = v]: an existing key keeps its place. *)
Fixpoint prop_set (k : string) (v : V) (o : list (string * V)) : list (string * V) :=
  match o with
  | [] => [(k, v)]
  | (k', v') :: o' =>
      if decide (k' = k) then (k, v) :: o' else (k', v') :: prop_set k v o'
  end.

(** The keys a [for (const k in o)] visits. *)
Definition prop_keys (o : list (string * V)) : list string := o.*1.
End props.

(** Modelled from the spec: [TimeUtil.oneHourAsSeconds], a constant of
    [TimeUtil], which is not among the sources; the spec multiplies the
    trader's hours by 3600. *)
Definition oneHourAsSeconds : Q := 3600%Q.

(** ** The state-and-exception monad *)

Inductive outcome (A : Type) :=
| Returned (a : A)
| TypeError.
Arguments Returned {A} a.
Arguments TypeError {A}.

Definition M (A : Type) : Type := World -> outcome A * World.

Definition ret {A} (a : A) : M A := fun w => (Returned a, w).

Definition bind {A B} (m : M A) (k : A -> M B) : M B :=
  fun w =>
    match m w with
    | (Returned a, w') => k a w'
    | (TypeError, w') => (TypeError, w')
    end.

Definition throw {A} : M A := fun w => (TypeError, w).

Definition gets {A} (f : World -> A) : M A := fun w => (Returned (f w), w).

Definition modify (f : World -> World) : M unit := fun w => (Returned tt, f w).

(** Reading a property of a value that may be [undefined]. *)
Definition defined {A} (x : option A) : M A :=
  match x with
  | Some a => ret a
  | None => throw
  end.

Declare Scope js_scope.
Delimit Scope js_scope with js.
Notation "x <- m ;; k" := (bind m (fun x => k))
  (at level 100, m at next level, right associativity) : js_scope.
Notation "m ;;; k" := (bind m (fun _ => k))
  (at level 100, right associativity) : js_scope.

(** [for (const x of xs) body(x)] *)
Fixpoint forEach {A} (body : A -> M unit) (xs : list A) : M unit :=
  match xs with
  | [] => ret tt
  | x :: xs' => bind (body x) (fun _ => forEach body xs')
  end.

(** World updates. *)
Definition set_insured (f : gmap string (list (string * list Item)) ->
                            gmap string (list (string * list Item))) (w : World) : World :=
  {| insured := f (insured w); profiles := profiles w; logged := logged w;
     draws := draws w; dialogueMessages := dialogueMessages w;
     npcMails := npcMails w; profileInsurance := profileInsurance w |}.

Definition set_profiles (f : gmap ref IPmcData -> gmap ref IPmcData) (w : World) : World :=
  {| insured := insured w; profiles := f (profiles w); logged := logged w;
     draws := draws w; dialogueMessages := dialogueMessages w;
     npcMails := npcMails w; profileInsurance := profileInsurance w |}.

Definition add_log (e : LogEntry) (w : World) : World :=
  {| insured := insured w; profiles := profiles w; logged := logged w ++ [e];
     draws := draws w; dialogueMessages := dialogueMessages w;
     npcMails := npcMails w; profileInsurance := profileInsurance w |}.

Definition next_draw (w : World) : World :=
  {| insured := insured w; profiles := profiles w; logged := logged w;
     draws := S (draws w); dialogueMessages := dialogueMessages w;
     npcMails := npcMails w; profileInsurance := profileInsurance w |}.

Definition add_dialogue (d : string * MessageContent * string) (w : World) : World :=
  {| insured := insured w; profiles := profiles w; logged := logged w;
     draws := draws w; dialogueMessages := dialogueMessages w ++ [d];
     npcMails := npcMails w; profileInsurance := profileInsurance w |}.

Definition add_mail (m : NpcMail) (w : World) : World :=
  {| insured := insured w; profiles := profiles w; logged := logged w;
     draws := draws w; dialogueMessages := dialogueMessages w;
     npcMails := npcMails w ++ [m]; profileInsurance := profileInsurance w |}.

Definition set_profileInsurance (f : gmap string (list Insurance) -> gmap string (list Insurance))
    (w : World) : World :=
  {| insured := insured w; profiles := profiles w; logged := logged w;
     draws := draws w; dialogueMessages := dialogueMessages w;
     npcMails := npcMails w; profileInsurance := f (profileInsurance w) |}.

(** Item updates. *)
Definition set_slotId (s : option string) (i : Item) : Item :=
  {| _id := _id i; _tpl := _tpl i; parentId := parentId i; slotId := s;
     location := location i; upd := upd i |}.

Definition set_location (l : option ItemLocation) (i : Item) : Item :=
  {| _id := _id i; _tpl := _tpl i; parentId := parentId i; slotId := slotId i;
     location := l; upd := upd i |}.

Definition set_upd (u : option Upd) (i : Item) : Item :=
  {| _id := _id i; _tpl := _tpl i; parentId := parentId i; slotId := slotId i;
     location := location i; upd := u |}.

Definition set_InsuredItems (l : list InsuredItem) (p : IPmcData) : IPmcData :=
  {| Inventory := Inventory p; InsuredItems := l; Bonuses := Bonuses p |}.

Definition set_templateId_type (t : string) (ty : MessageType) (m : MessageContent) : MessageContent :=
  {| templateId := t; type := ty; maxStorageTime := maxStorageTime m; text := text m;
     profileChangeEvents := profileChangeEvents m; systemData := systemData m |}.

Definition hydrate (sd : SystemData) (m : MessageContent) : MessageContent :=
  {| templateId := templateId m; type := type m; maxStorageTime := maxStorageTime m;
     text := Some ""; profileChangeEvents := Some []; systemData := Some sd |}.

(** ** The service *)

Section InsuranceService.

Variable ext : Collaborators.
Variable insuranceConfig : IInsuranceConfig.

Local Open Scope js_scope.

(** [logger.debug], [logger.warning] *)
Definition logger (e : LogEntry) : M unit := modify (add_log e).

(** One draw of the random source. *)
Definition draw : M nat :=
  n <- gets draws ;; modify next_draw ;;; ret n.

Definition insuranceExists (sessionId : string) : M bool :=
  gets (fun w => bool_decide (is_Some (insured w !! sessionId))).

Definition getInsurance (sessionId : string) : M (option (list (string * list Item))) :=
  gets (fun w => insured w !! sessionId).

Definition getInsuranceItems (sessionId traderId : string) : M (option (list Item)) :=
  b <- gets (fun w => insured w !! sessionId) ;;
  o <- defined b ;;
  ret (prop_get traderId o).

Definition resetInsurance (sessionId : string) : M unit :=
  modify (set_insured (fun r => <[sessionId := []]> r)).

(** [x => x._id === insuredItem.parentId] *)
Definition isParentOf (insuredItem x : Item) : bool :=
  bool_decide (parentId insuredItem = Some (_id x)).

(** The body of the loop of [removeLocationProperty] at index [i]: the
    array [insuredItems] is searched and its [i]-th element updated in
    place. *)
Definition removeLocationStep (insuredItems : list Item) (i : nat) : list Item :=
  match insuredItems !! i with
  | None => insuredItems
  | Some insuredItem =>
      match find (isParentOf insuredItem) insuredItems with
      | Some _ => insuredItems
      | None =>
          <[i := set_location None (set_slotId (Some "hideout") insuredItem)]> insuredItems
      end
  end.

Definition removeLocationLoop (insuredItems : list Item) : list Item :=
  foldl removeLocationStep insuredItems (seq 0 (length insuredItems)).

Definition removeLocationProperty (sessionId traderId : string) : M unit :=
  b <- getInsurance sessionId ;;
  o <- defined b ;;
  insuredItems <- defined (prop_get traderId o) ;;
  modify (set_insured (fun r =>
    <[sessionId := prop_set traderId (removeLocationLoop insuredItems) o]> r)).

Definition getInsuranceReturnTimestamp (pmcData : IPmcData) (trader : ITraderBase) : M Q :=
  if Qlt_le_dec 0 (returnTimeOverrideSeconds insuranceConfig) then
    logger (LogDebug "Insurance override used: returning in ${} seconds"
                     (returnTimeOverrideSeconds insuranceConfig)) ;;;
    ret (getTimestamp ext + returnTimeOverrideSeconds insuranceConfig)%Q
  else
    let insuranceReturnTimeBonus :=
      find (fun b => bool_decide (bonusType b = "InsuranceReturnTime")) (Bonuses pmcData) in
    let insuranceReturnTimeBonusPercent :=
      (1 - match insuranceReturnTimeBonus with
           | Some b => Math_abs (bonusValue b)
           | None => 0
           end / 100)%Q in
    let traderMinReturnAsSeconds :=
      (min_return_hour (traderInsurance trader) * oneHourAsSeconds)%Q in
    let traderMaxReturnAsSeconds :=
      (max_return_hour (traderInsurance trader) * oneHourAsSeconds)%Q in
    n <- draw ;;
    let randomisedReturnTimeSeconds :=
      getInt ext n traderMinReturnAsSeconds traderMaxReturnAsSeconds in
    ret (getTimestamp ext + randomisedReturnTimeSeconds * insuranceReturnTimeBonusPercent)%Q.

Definition sendInsuredItemsFor (pmcData : IPmcData) (sessionID mapId traderId : string) : M unit :=
  let traderBase := getTrader ext traderId sessionID in
  insuranceReturnTimestamp <- getInsuranceReturnTimestamp pmcData traderBase ;;
  trader <- defined (traders ext !! traderId) ;;
  dialogueTemplates <- defined (dialogue trader) ;;
  n <- draw ;;
  let messageContent :=
    hydrate {| sysDate := Some (getDateMailFormat ext);
               sysTime := Some (getTimeMailFormat ext);
               sysLocation := Some mapId |}
      (createMessageContext ext (getArrayValue ext n (insuranceStart dialogueTemplates))
         NPC_TRADER (max_storage_time (traderInsurance traderBase))) in
  modify (add_dialogue (traderId, messageContent, sessionID)) ;;;
  removeLocationProperty sessionID traderId ;;;
  n' <- draw ;;
  let messageContent' :=
    set_templateId_type (getArrayValue ext n' (insuranceFound dialogueTemplates))
      INSURANCE_RETURN messageContent in
  b <- getInsurance sessionID ;;
  o <- defined b ;;
  modify (set_profileInsurance (fun m =>
    <[sessionID := (default [] (m !! sessionID) ++
       [ {| scheduledTime := insuranceReturnTimestamp;
            insTraderId := traderId;
            messageContent := messageContent';
            items := default [] (prop_get traderId o) |} ])%list]> m)).

Definition sendInsuredItems (pmcData : IPmcData) (sessionID mapId : string) : M unit :=
  b <- getInsurance sessionID ;;
  forEach (sendInsuredItemsFor pmcData sessionID mapId)
          (match b with Some o => prop_keys o | None => [] end) ;;;
  resetInsurance sessionID.

(** [locationName] is [None] for [null]; the default of an omitted argument
    is [Some ""]. *)
Definition sendLostInsuranceMessage (sessionId : string) (locationName : option string) : M unit :=
  trader <- defined (traders ext !! PRAPOR ext) ;;
  dialogueTemplates <- defined (dialogue trader) ;;
  n <- draw ;;
  let randomResponseId :=
    if bool_decide (toLowerCase <$> locationName = Some "laboratory")
    then getArrayValue ext n (insuranceFailedLabs dialogueTemplates)
    else getArrayValue ext n (insuranceFailed dialogueTemplates) in
  modify (add_mail {| mailSessionId := sessionId;
                      mailTrader := PRAPOR ext;
                      mailType := NPC_TRADER;
                      mailTemplateId := randomResponseId;
                      mailItems := [];
                      mailMaxStorage := None;
                      mailSystemData := {| sysDate := None; sysTime := None;
                                           sysLocation := locationName |} |}).

Definition pocketSlots : list string := ["pocket1"; "pocket2"; "pocket3"; "pocket4"].

Definition updateSlotIdValue (playerBaseInventoryEquipmentId : string) (itemToReturn : Item) : Item :=
  let itemToReturn :=
    if negb (bool_decide (is_Some (slotId itemToReturn)))
       || includes pocketSlots (slotId itemToReturn)
    then set_slotId (Some "hideout") itemToReturn
    else itemToReturn in
  if bool_decide (parentId itemToReturn = Some playerBaseInventoryEquipmentId)
  then set_slotId (Some "hideout") itemToReturn
  else itemToReturn.

(** [itemToReturn.upd.p = ...]; [upd] exists when the service does this. *)
Definition update_upd (f : Upd -> Upd) (i : Item) : Item := set_upd (f <$> upd i) i.

Definition set_SpawnedInSession (b : option bool) (u : Upd) : Upd :=
  {| SpawnedInSession := b; updRepairable := updRepairable u;
     updFaceShield := updFaceShield u; updOther := updOther u |}.

Definition set_Repairable (r : option Repairable) (u : Upd) : Upd :=
  {| SpawnedInSession := SpawnedInSession u; updRepairable := r;
     updFaceShield := updFaceShield u; updOther := updOther u |}.

Definition set_FaceShield (f : option FaceShield) (u : Upd) : Upd :=
  {| SpawnedInSession := SpawnedInSession u; updRepairable := updRepairable u;
     updFaceShield := f; updOther := updOther u |}.

Definition getInsuredItemDetails (pmcData : IPmcData) (preRaidItem : Item)
    (insuredItemFromClient : option IInsuredItemsData) : Item :=
  (* jsonUtil.clone: items are values here *)
  let itemToReturn := preRaidItem in
  let itemToReturn :=
    match upd itemToReturn with
    | None =>
        set_upd (Some {| SpawnedInSession := None; updRepairable := None;
                         updFaceShield := None; updOther := [] |}) itemToReturn
    | Some _ => itemToReturn
    end in
  let itemToReturn := updateSlotIdValue (equipment (Inventory pmcData)) itemToReturn in
  let itemToReturn :=
    if bool_decide (slotId itemToReturn = Some "hideout")
       && bool_decide (is_Some (location itemToReturn))
    then set_location None itemToReturn
    else itemToReturn in
  let itemToReturn :=
    update_upd (fun u =>
      match SpawnedInSession u with
      | Some _ => set_SpawnedInSession (Some false) u
      | None => u
      end) itemToReturn in
  let itemToReturn :=
    if truthy (insuredItemFromClient ≫= durability) then
      update_upd (fun u =>
        match updRepairable u with
        | None =>
            set_Repairable
              (Some {| Durability := insuredItemFromClient ≫= durability;
                       MaxDurability := insuredItemFromClient ≫= maxDurability |}) u
        | Some r =>
            (* Repairable.Durability = ...; Repairable.MaxDurability = ... *)
            let r := {| Durability := insuredItemFromClient ≫= durability;
                        MaxDurability := MaxDurability r |} in
            let r := {| Durability := Durability r;
                        MaxDurability := insuredItemFromClient ≫= maxDurability |} in
            set_Repairable (Some r) u
        end) itemToReturn
    else itemToReturn in
  let itemToReturn :=
    if truthy (insuredItemFromClient ≫= hits) then
      update_upd (fun u =>
        match updFaceShield u with
        | None => set_FaceShield (Some {| Hits := insuredItemFromClient ≫= hits |}) u
        | Some _ => set_FaceShield (Some {| Hits := insuredItemFromClient ≫= hits |}) u
        end) itemToReturn
    else itemToReturn in
  itemToReturn.

Definition createItemHashTable (items : list Item) : gmap string Item :=
  foldl (fun hashTable item => <[_id item := item]> hashTable) ∅ items.

Definition insuranceTraderArrayExists (sessionId traderId : string) : M bool :=
  b <- gets (fun w => insured w !! sessionId) ;;
  o <- defined b ;;
  ret (bool_decide (is_Some (prop_get traderId o))).

Definition resetInsuranceTraderArray (sessionId traderId : string) : M unit :=
  b <- gets (fun w => insured w !! sessionId) ;;
  o <- defined b ;;
  modify (set_insured (fun r => <[sessionId := prop_set traderId [] o]> r)).

Definition addInsuranceItemToArray (sessionId traderId : string) (itemToAdd : Item) : M unit :=
  b <- gets (fun w => insured w !! sessionId) ;;
  o <- defined b ;;
  arr <- defined (prop_get traderId o) ;;
  modify (set_insured (fun r => <[sessionId := prop_set traderId (arr ++ [itemToAdd])%list o]> r)).

(** [gear.pmcData] is dereferenced in the store of profiles and the
    filtered array is written back to the same object. *)
Definition addGearToSend (gear : Gear) : M unit :=
  let sessionId := gearSessionID gear in
  let pmcData := gearPmcData gear in
  let itemToReturnToPlayer := itemToReturnToPlayer gear in
  let traderId := gearTraderId gear in
  ex <- insuranceExists sessionId ;;
  (if negb ex then resetInsurance sessionId else ret tt) ;;;
  tex <- insuranceTraderArrayExists sessionId traderId ;;
  (if negb tex then resetInsuranceTraderArray sessionId traderId else ret tt) ;;;
  addInsuranceItemToArray sessionId traderId itemToReturnToPlayer ;;;
  p <- gets (fun w => profiles w !! pmcData) ;;
  profile <- defined p ;;
  modify (set_profiles (fun h =>
    <[pmcData := set_InsuredItems
        (filter (fun item => itemId item ≠ _id itemToReturnToPlayer) (InsuredItems profile))
        profile]> h)).

(** One turn of the first loop of [storeLostGear]: [None] when the loop
    goes on without pushing. *)
Definition lostGearCandidate (pmcData : ref) (profile : IPmcData)
    (offraidData : ISaveProgressRequestData) (preRaidGearHash offRaidGearHash : gmap string Item)
    (sessionID : string) (playerDied : bool) (insuredItem : InsuredItem) : option Gear :=
  match preRaidGearHash !! itemId insuredItem with
  | None => None
  | Some preRaidItem =>
      if includes (blacklistedEquipment insuranceConfig) (slotId preRaidItem) then None
      else if negb (bool_decide (is_Some (offRaidGearHash !! itemId insuredItem))) || playerDied
      then Some {| gearPmcData := pmcData;
                   itemToReturnToPlayer :=
                     getInsuredItemDetails profile preRaidItem
                       (insurance offraidData ≫=
                          find (fun x => bool_decide (id x = itemId insuredItem)));
                   gearTraderId := tid insuredItem;
                   gearSessionID := sessionID |}
      else None
  end.

Definition equipmentToSendToPlayer (pmcData : ref) (profile : IPmcData)
    (offraidData : ISaveProgressRequestData) (preRaidGear : list Item)
    (sessionID : string) (playerDied : bool) : list Gear :=
  let preRaidGearHash := createItemHashTable preRaidGear in
  let offRaidGearHash := createItemHashTable (profile_Inventory_items offraidData) in
  omap (lostGearCandidate pmcData profile offraidData preRaidGearHash offRaidGearHash
          sessionID playerDied)
       (InsuredItems profile).

Definition storeLostGear (pmcData : ref) (offraidData : ISaveProgressRequestData)
    (preRaidGear : list Item) (sessionID : string) (playerDied : bool) : M unit :=
  p <- gets (fun w => profiles w !! pmcData) ;;
  profile <- defined p ;;
  forEach addGearToSend
    (equipmentToSendToPlayer pmcData profile offraidData preRaidGear sessionID playerDied).

Definition getPremium (pmcData : IPmcData) (inventoryItem : Item) (traderId : string) : M Z :=
  let insuranceMultiplier := insuranceMultiplier insuranceConfig !! traderId in
  insuranceMultiplier <-
    (if negb (truthy insuranceMultiplier) then
       logger (LogWarning
         (getText ext "insurance-missing_insurance_price_multiplier" traderId)) ;;;
       ret (3 # 10)
     else ret (default 0%Q insuranceMultiplier)) ;;
  let pricePremium := (getStaticItemPrice ext (_tpl inventoryItem) * insuranceMultiplier)%Q in
  let coef := insurance_price_coef (getLoyaltyLevel ext traderId pmcData) in
  let pricePremium :=
    if Qlt_le_dec 0 coef
    then (pricePremium *
            (1 - insurance_price_coef (getLoyaltyLevel ext traderId pmcData) / 100))%Q
    else pricePremium in
  ret (Math_round pricePremium).

End InsuranceService.

(** ** Comparison of strings without regard to case, as the specification
    words it *)

Definition is_upper (n : nat) : bool := ((65 <=? n) && (n <=? 90))%nat.

(** Two characters are the same letter in either case, or the same
    character. *)
Definition char_eq_nocase (a b : Ascii.ascii) : bool :=
  let x := Ascii.nat_of_ascii a in
  let y := Ascii.nat_of_ascii b in
  ((x =? y) || (is_upper x && (y =? x + 32)) || (is_upper y && (x =? y + 32)))%nat.

Fixpoint equalsIgnoreCase (s t : string) : bool :=
  match s, t with
  | EmptyString, EmptyString => true
  | String a s', String b t' => char_eq_nocase a b && equalsIgnoreCase s' t'
  | _, _ => false
  end.

(** The condition under which [updateSlotIdValue] forces the slot. *)
Definition forcedToHideout (e : string) (i : Item) : bool :=
  negb (bool_decide (is_Some (slotId i))) || includes pocketSlots (slotId i)
  || bool_decide (parentId i = Some e).

(** The registry after [addGearToSend] has made sure of the player's entry
    and of the trader's array and has pushed the item. *)
Definition registerItem (sessionId traderId : string) (item : Item)
    (r : gmap string (list (string * list Item))) : gmap string (list (string * list Item)) :=
  let o := default [] (r !! sessionId) in
  <[sessionId := prop_set traderId (default [] (prop_get traderId o) ++ [item]) o]> r.

(** The items the registry holds for a player and a trader; none when
    there is no entry or no array. *)
Definition bucketOf (r : gmap string (list (string * list Item)))
    (sessionId traderId : string) : list Item :=
  default [] (r !! sessionId ≫= prop_get traderId).

Definition isDebug (e : LogEntry) : Prop := exists msg value, e = LogDebug msg value.

(** [w1] comes from [w] by steps that leave the player's array for
    [traderId] alone, log nothing but debug lines, and hand over no
    dialogue message and no insurance record for [traderId]. *)
Definition undisturbed (sessionID traderId : string) (w w1 : World) : Prop :=
  (forall o, insured w !! sessionID = Some o ->
     exists o1, insured w1 !! sessionID = Some o1
                /\ prop_get traderId o1 = prop_get traderId o)
  /\ (exists extra, logged w1 = logged w ++ extra /\ Forall isDebug extra)
  /\ (exists ds, dialogueMessages w1 = dialogueMessages w ++ ds
                 /\ Forall (fun d => d.1.1 <> traderId) ds)
  /\ (exists rs, default [] (profileInsurance w1 !! sessionID)
                 = default [] (profileInsurance w !! sessionID) ++ rs
                 /\ Forall (fun r => insTraderId r <> traderId) rs).

(** A computation all of whose runs are [undisturbed], whether it returns
    or throws. *)
Definition preserves (sessionID traderId : string) {A} (m : M A) : Prop :=
  forall w, undisturbed sessionID traderId w (m w).2.

(** What the loop of [removeLocationProperty] does to one item of the
    bucket [insuredItems]. *)
Definition orphanFix (insuredItems : list Item) (insuredItem : Item) : Item :=
  match find (isParentOf insuredItem) insuredItems with
  | Some _ => insuredItem
  | None => set_location None (set_slotId (Some "hideout") insuredItem)
  end.

(** ** A raid, for the examples

    Item A sits in "pocket1" and is insured with trader X; the player
    survives and comes back without it. *)

Module Scenario.

Definition itemA : Item :=
  {| _id := "A"; _tpl := "tplA"; parentId := Some "pockets"; slotId := Some "pocket1";
     location := Some (LocNumber 0); upd := None |}.

(** An item that names itself as its parent. *)
Definition selfParented : Item :=
  {| _id := "B"; _tpl := "tplB"; parentId := Some "B"; slotId := Some "main";
     location := Some (LocGrid 1 2 "Horizontal"); upd := None |}.

(** An item stored in item A. *)
Definition insideA : Item :=
  {| _id := "C"; _tpl := "tplC"; parentId := Some "A"; slotId := Some "main";
     location := Some (LocGrid 0 0 "Horizontal"); upd := None |}.

Definition profile0 : IPmcData :=
  {| Inventory := {| equipment := "equipment" |};
     InsuredItems := [ {| tid := "X"; itemId := "A" |} ];
     Bonuses := [] |}.

Definition offraid0 : ISaveProgressRequestData :=
  {| profile_Inventory_items := []; insurance := None |}.

Definition trader0 : ITraderBase :=
  {| traderInsurance := {| min_return_hour := 24; max_return_hour := 36;
                           max_storage_time := 72 |} |}.

Definition dialogue0 : Dialogue :=
  {| insuranceStart := ["start"]; insuranceFound := ["found"];
     insuranceFailed := ["failed"]; insuranceFailedLabs := ["failedLabs"] |}.

(** The collaborators: Prapor has dialogue templates, trader X has none;
    the loyalty level gives the coefficient [coef]; every draw is the least
    value allowed. *)
Definition collaborators (coef : Q) : Collaborators :=
  {| getTimestamp := 1000;
     getDateMailFormat := "01.01.2024";
     getTimeMailFormat := "12:00";
     getInt := fun _ lo _ => lo;
     getArrayValue := fun _ l => default "" (head l);
     getTrader := fun _ _ => trader0;
     getLoyaltyLevel := fun _ _ => {| insurance_price_coef := coef |};
     getStaticItemPrice := fun _ => 1000%Q;
     createMessageContext := fun t ty m =>
       {| templateId := t; type := ty; maxStorageTime := m; text := None;
          profileChangeEvents := None; systemData := None |};
     getText := fun key _ => key;
     traders := <["X" := {| dialogue := None |}]>
                  {[ "54cb50c76803fa8b248b4571" := {| dialogue := Some dialogue0 |} ]};
     PRAPOR := "54cb50c76803fa8b248b4571" |}.

Definition config (multiplier : gmap string Q) (override : Q) : IInsuranceConfig :=
  {| insuranceMultiplier := multiplier;
     blacklistedEquipment := ["SecuredContainer"; "Scabbard"];
     returnTimeOverrideSeconds := override |}.

(** A world with one profile object and the registry [r]. *)
Definition world (r : gmap string (list (string * list Item))) : World :=
  {| insured := r; profiles := {[ 1%positive := profile0 ]}; logged := [];
     draws := 0; dialogueMessages := []; npcMails := []; profileInsurance := ∅ |}.

End Scenario.

(** ** Further definitions

    The multiplier [getPremium] works with: the configured one, or 0.3 when
    the configured value is falsy. *)
Definition effectiveMultiplier (insuranceConfig : IInsuranceConfig) (traderId : string) : Q :=
  let insuranceMultiplier := insuranceMultiplier insuranceConfig !! traderId in
  if negb (truthy insuranceMultiplier) then (3 # 10)%Q
  else default 0%Q insuranceMultiplier.

(** The player's registry entry [o'] comes from [o] by passes of
    [removeLocationProperty] over some of its arrays. *)
Definition passed (o o' : list (string * list Item)) : Prop :=
  forall k,
    prop_get k o' = prop_get k o
    \/ exists its, prop_get k o = Some its /\ prop_get k o' = Some (removeLocationLoop its).

(** What [sendInsuredItems] stores for the entry [o] of a player: a record
    for each trader of the entry, in the order of the enumeration, with the
    trader's array after the pass, and a message with an empty text that
    names the map. *)
Definition flushedRecords (o : list (string * list Item)) (mapId : string)
    (rs : list Insurance) : Prop :=
  insTraderId <$> rs = prop_keys o
  /\ Forall (fun r =>
       items r = removeLocationLoop (default [] (prop_get (insTraderId r) o))
       /\ type (messageContent r) = INSURANCE_RETURN
       /\ text (messageContent r) = Some ""
       /\ systemData (messageContent r) ≫= sysLocation = Some mapId) rs.

(** ** Double precision

    The numbers of the code are IEEE 754 doubles: an arithmetic operation
    gives the binary64 value nearest to its exact result, a tie going to the
    value whose significand is even.  [binary64] is this rounding on the
    rationals: a value whose magnitude lies in [[2^k, 2^(k+1))] goes to the
    nearest multiple of [2^(k-52)], and a value below [2^(-1022)] to the
    nearest multiple of [2^(-1074)].  The operations of this module are the
    exact ones followed by this rounding. *)

Module Double.

(** The integer [k] with [2^k <= x < 2^(k+1)], for a positive [x]. *)
Definition ilog2 (x : Q) : Z :=
  let k := (Z.log2 (Qnum x) - Z.log2 (Zpos (Qden x)))%Z in
  if Qle_bool (2 ^ k) x then k else (k - 1)%Z.

(** The exponent of the unit in the last place of the doubles next to [x]:
    53 bits of significand, and no exponent below that of the subnormal
    numbers. *)
Definition exponent (x : Q) : Z := Z.max (ilog2 x - 52) (-1074).

(** The nearest integer, a half going to the even one. *)
Definition roundHalfEven (y : Q) : Z :=
  let f := Qfloor y in
  match (y - inject_Z f ?= 1 # 2)%Q with
  | Lt => f
  | Gt => (f + 1)%Z
  | Eq => if Z.even f then f else (f + 1)%Z
  end.

(** The double nearest to [x], for [x] that is not negative. *)
Definition nearest (x : Q) : Q :=
  let e := exponent x in
  (inject_Z (roundHalfEven (x / 2 ^ e)) * 2 ^ e)%Q.

(** The double nearest to [x], as a reduced fraction: the magnitude is
    rounded and the sign kept. *)
Definition binary64 (x : Q) : Q :=
  Qred (if Qlt_le_dec x 0 then - nearest (- x) else nearest x).

(** [x + y], [x - y], [x * y] and [x / y] on doubles. *)
Definition add (x y : Q) : Q := binary64 (x + y).
Definition sub (x y : Q) : Q := binary64 (x - y).
Definition mul (x y : Q) : Q := binary64 (x * y).
Definition div (x y : Q) : Q := binary64 (x / y).

(** The number a finite float of the standard library's specification of
    IEEE 754 stands for, and the float of an integer below [2^53]. *)
Definition value (f : spec_float) : Q :=
  match f with
  | S754_finite s m e => ((if s then - inject_Z (Zpos m) else inject_Z (Zpos m)) * 2 ^ e)%Q
  | _ => 0%Q
  end.

Definition float (n : Z) : spec_float := binary_normalize 53 1024 n 0 false.

Section InsuranceService.

Variable ext : Collaborators.
Variable insuranceConfig : IInsuranceConfig.

Local Open Scope js_scope.

Definition getInsuranceReturnTimestamp (pmcData : IPmcData) (trader : ITraderBase) : M Q :=
  if Qlt_le_dec 0 (returnTimeOverrideSeconds insuranceConfig) then
    logger (LogDebug "Insurance override used: returning in ${} seconds"
                     (returnTimeOverrideSeconds insuranceConfig)) ;;;
    ret (add (getTimestamp ext) (returnTimeOverrideSeconds insuranceConfig))
  else
    let insuranceReturnTimeBonus :=
      find (fun b => bool_decide (bonusType b = "InsuranceReturnTime")) (Bonuses pmcData) in
    let insuranceReturnTimeBonusPercent :=
      sub 1 (div match insuranceReturnTimeBonus with
                 | Some b => Math_abs (bonusValue b)
                 | None => 0%Q
                 end 100) in
    let traderMinReturnAsSeconds :=
      mul (min_return_hour (traderInsurance trader)) oneHourAsSeconds in
    let traderMaxReturnAsSeconds :=
      mul (max_return_hour (traderInsurance trader)) oneHourAsSeconds in
    n <- draw ;;
    let randomisedReturnTimeSeconds :=
      getInt ext n traderMinReturnAsSeconds traderMaxReturnAsSeconds in
    ret (add (getTimestamp ext)
             (mul randomisedReturnTimeSeconds insuranceReturnTimeBonusPercent)).

(** The multiplier [getPremium] works with: the configured one, or the
    double 0.3 when the configured value is falsy. *)
Definition effectiveMultiplier (traderId : string) : Q :=
  let insuranceMultiplier := insuranceMultiplier insuranceConfig !! traderId in
  if negb (truthy insuranceMultiplier) then binary64 (3 # 10)
  else default 0%Q insuranceMultiplier.

Definition getPremium (pmcData : IPmcData) (inventoryItem : Item) (traderId : string) : M Z :=
  let insuranceMultiplier := insuranceMultiplier insuranceConfig !! traderId in
  insuranceMultiplier <-
    (if negb (truthy insuranceMultiplier) then
       logger (LogWarning
         (getText ext "insurance-missing_insurance_price_multiplier" traderId)) ;;;
       ret (binary64 (3 # 10))
     else ret (default 0%Q insuranceMultiplier)) ;;
  let pricePremium := mul (getStaticItemPrice ext (_tpl inventoryItem)) insuranceMultiplier in
  let coef := insurance_price_coef (getLoyaltyLevel ext traderId pmcData) in
  let pricePremium :=
    if Qlt_le_dec 0 coef
    then mul pricePremium
             (sub 1 (div (insurance_price_coef (getLoyaltyLevel ext traderId pmcData)) 100))
    else pricePremium in
  ret (Math_round pricePremium).

End InsuranceService.

End Double.

(** ** The location controller ([LocationController.ts])

    The data the controller only hands on (loot, spawn points, static and
    loose loot tables, paths, the other properties of a map's base) are JSON
    values; [jsonUtil.clone] of a JSON value is that value.  The loggers,
    and the position of the random source the generators draw from, are the
    state.  The generators, the weighted choice, the localisation, the clock
    and the tables are collaborators, as is what [jsonUtil.clone] does with
    [undefined], which [JsonUtil], not among the sources, decides. *)

Module Location.

#[warnings="-register-all"] Inductive JsonValue :=
| JNull
| JBool (b : bool)
| JNumber (q : Q)
| JString (s : string)
| JArray (l : list JsonValue)
| JObject (l : list (string * JsonValue)).

(** [ILocationBase], with the properties the controller reads or writes. *)
Record ILocationBase := {
  _Id : string;
  Name : string;
  Loot : option (list JsonValue);
  UnixDateTime : option Q;
  baseOther : JsonValue
}.

(** An entry of the [locations] table: a map ([base], [looseLoot]) or the
    entry called "base", which holds the [paths]. *)
Record ILocation := {
  base : option ILocationBase;
  looseLoot : option JsonValue;
  paths : option JsonValue
}.

(** An entry of [db.loot.staticContainers]. *)
Record StaticContainerDetails := {
  staticWeapons : option (list JsonValue);
  staticContainers : option (list JsonValue);
  staticForced : option JsonValue
}.

Record ILootBase := {
  lootStaticContainers : gmap string StaticContainerDetails;
  staticLoot : option JsonValue;
  staticAmmo : option JsonValue
}.

(** An entry of [airdropConfig.loot]. *)
Record AirdropLoot := {
  presetCount : option JsonValue;
  itemCount : option JsonValue;
  weaponCrateCount : option JsonValue;
  itemBlacklist : option JsonValue;
  itemTypeWhitelist : option JsonValue;
  itemLimits : option JsonValue;
  itemStackLimits : option JsonValue;
  armorLevelWhitelist : option JsonValue
}.

(** [LootRequest]: the object literal [getAirdropLootConfigByType] returns. *)
Record LootRequest := {
  reqPresetCount : option JsonValue;
  reqItemCount : option JsonValue;
  reqWeaponCrateCount : option JsonValue;
  reqItemBlacklist : option JsonValue;
  reqItemTypeWhitelist : option JsonValue;
  reqItemLimits : option JsonValue;
  reqItemStackLimits : option JsonValue;
  reqArmorLevelWhitelist : option JsonValue
}.

Record IAirdropConfig := {
  airdropTypeWeightings : gmap string Q;
  airdropLoot : gmap string AirdropLoot
}.

Record IAirdropLootResult := {
  dropType : string;
  loot : list JsonValue
}.

Record ILocationsGenerateAllResponse := {
  locations : gmap string ILocationBase;
  responsePaths : option JsonValue
}.

(** The second argument of [localisationService.getText]. *)
Inductive TextArg :=
| ArgNumber (n : nat)
| ArgString (s : string).

Inductive LogLine :=
| Error (msg : string)
| Success (msg : string)
| Debug (msg : string).

(** The collaborators; the generators and the weighted choice get the
    number of the draw. *)
Record Collaborators := {
  getTimestamp : Q;
  getText : string -> TextArg -> string;
  generateContainerLoot :
    nat -> JsonValue -> option JsonValue -> option JsonValue -> option JsonValue ->
    string -> JsonValue;
  generateDynamicLoot :
    nat -> option JsonValue -> option JsonValue -> string -> list JsonValue;
  createRandomLoot : nat -> LootRequest -> list JsonValue;
  getWeightedValue : nat -> gmap string Q -> string;
  cloneOfUndefinedThrows : bool;
  tableLocations : list (string * ILocation);
  tableLoot : ILootBase;
  MIXED : string
}.

Record World := {
  logged : list LogLine;
  draws : nat
}.

Definition M (A : Type) : Type := World -> outcome A * World.

Definition ret {A} (a : A) : M A := fun w => (Returned a, w).

Definition bind {A B} (m : M A) (k : A -> M B) : M B :=
  fun w =>
    match m w with
    | (Returned a, w') => k a w'
    | (TypeError, w') => (TypeError, w')
    end.

Definition throw {A} : M A := fun w => (TypeError, w).

Definition defined {A} (x : option A) : M A :=
  match x with
  | Some a => ret a
  | None => throw
  end.

Definition logger (l : LogLine) : M unit :=
  fun w => (Returned tt, {| logged := logged w ++ [l]; draws := draws w |}).

Definition draw : M nat :=
  fun w => (Returned (draws w), {| logged := logged w; draws := S (draws w) |}).

Declare Scope loc_scope.
Delimit Scope loc_scope with loc.
Notation "x <- m ;; k" := (bind m (fun x => k))
  (at level 100, m at next level, right associativity) : loc_scope.
Notation "m ;;; k" := (bind m (fun _ => k))
  (at level 100, right associativity) : loc_scope.

(** A loop that carries a local variable. *)
Fixpoint foldM {A B} (body : B -> A -> M B) (b : B) (xs : list A) : M B :=
  match xs with
  | [] => ret b
  | x :: xs' => bind (body b x) (fun b' => foldM body b' xs')
  end.

Definition set_UnixDateTime (t : option Q) (b : ILocationBase) : ILocationBase :=
  {| _Id := _Id b; Name := Name b; Loot := Loot b; UnixDateTime := t;
     baseOther := baseOther b |}.

Definition set_Loot (l : option (list JsonValue)) (b : ILocationBase) : ILocationBase :=
  {| _Id := _Id b; Name := Name b; Loot := l; UnixDateTime := UnixDateTime b;
     baseOther := baseOther b |}.

(** [s.replace(" ", "")]: a string pattern replaces the first match only. *)
Fixpoint replaceFirstSpace (s : string) : string :=
  match s with
  | EmptyString => EmptyString
  | String c s' =>
      if Ascii.eqb c Ascii.Space then s' else String c (replaceFirstSpace s')
  end.

(** The number of spaces of a string. *)
Fixpoint spaces (s : string) : nat :=
  match s with
  | EmptyString => 0
  | String c s' => (if Ascii.eqb c Ascii.Space then 1 else 0) + spaces s'
  end.

(** The object literal of [getAirdropLootConfigByType]. *)
Definition requestOf (lootSettingsByType : AirdropLoot) : LootRequest :=
  {| reqPresetCount := presetCount lootSettingsByType;
     reqItemCount := itemCount lootSettingsByType;
     reqWeaponCrateCount := weaponCrateCount lootSettingsByType;
     reqItemBlacklist := itemBlacklist lootSettingsByType;
     reqItemTypeWhitelist := itemTypeWhitelist lootSettingsByType;
     reqItemLimits := itemLimits lootSettingsByType;
     reqItemStackLimits := itemStackLimits lootSettingsByType;
     reqArmorLevelWhitelist := armorLevelWhitelist lootSettingsByType |}.

Section LocationController.

Variable ext : Collaborators.
Variable airdropConfig : IAirdropConfig.

Local Open Scope loc_scope.

(** [jsonUtil.clone] of a value that may be [undefined]. *)
Definition clone {A} (x : option A) : M (option A) :=
  match x with
  | Some a => ret (Some a)
  | None => if cloneOfUndefinedThrows ext then throw else ret None
  end.

(** [if (!data) logger.error(...)] *)
Definition errorUnless {A} (data : option A) (msg : string) : M unit :=
  match data with
  | Some _ => ret tt
  | None => logger (Error msg)
  end.

Definition generate (name : string) : M ILocationBase :=
  location <- defined (prop_get name (tableLocations ext)) ;;
  output <- defined (base location) ;;
  let output := set_UnixDateTime (Some (getTimestamp ext)) output in
  if bool_decide (name = "hideout") then ret output
  else
    locationBase <- defined (base location) ;;
    let locationName := Name locationBase in
    let db := tableLoot ext in
    staticWeapons <- clone (lootStaticContainers db !! locationName ≫= staticWeapons) ;;
    errorUnless staticWeapons
      ("Unable to find static weapon data for map: " ++ locationName) ;;;
    staticContainers <- clone (lootStaticContainers db !! locationName ≫= staticContainers) ;;
    errorUnless staticContainers
      ("Unable to find static container data for map: " ++ locationName) ;;;
    staticForced <- clone (lootStaticContainers db !! locationName ≫= staticForced) ;;
    errorUnless staticForced
      ("Unable to find forced static data for map: " ++ locationName) ;;;
    staticLootDist <- clone (staticLoot db) ;;
    staticAmmoDist <- clone (staticAmmo db) ;;
    let output := set_Loot (Some []) output in
    let output :=
      set_Loot (Some (default [] (Loot output) ++ default [] staticWeapons)%list) output in
    loot <- foldM (fun (acc : list JsonValue) staticContainer =>
                     n <- draw ;;
                     let container :=
                       generateContainerLoot ext n staticContainer staticForced
                         staticLootDist staticAmmoDist name in
                     ret (acc ++ [container])%list)
                  (default [] (Loot output)) (default [] staticContainers) ;;
    let staticContainerCount := length (default [] staticContainers) in
    let output := set_Loot (Some loot) output in
    logger (Success (getText ext "location-containers_generated_success"
                       (ArgNumber staticContainerCount))) ;;;
    dynamicLootDist <- clone (looseLoot location) ;;
    n <- draw ;;
    let dynamicLoot := generateDynamicLoot ext n dynamicLootDist staticAmmoDist name in
    let output :=
      set_Loot (Some (default [] (Loot output) ++ dynamicLoot)%list) output in
    logger (Success (getText ext "location-dynamic_items_spawned_success"
                       (ArgNumber (length dynamicLoot)))) ;;;
    logger (Success (getText ext "location-generated_success" (ArgString name))) ;;;
    ret output.

Definition get (location : string) : M ILocationBase :=
  let name := replaceFirstSpace (toLowerCase location) in
  generate name.

(** The body of the loop of [generateAll]; [locations] is the dictionary
    being filled. *)
Definition generateAllStep (locations : gmap string ILocationBase)
    (entry : string * ILocation) : M (gmap string ILocationBase) :=
  let mapName := entry.1 in
  match base entry.2 with
  | None =>
      logger (Debug ("Map: " ++ mapName
                     ++ " has no base json file, skipping generation")) ;;;
      ret locations
  | Some mapBase =>
      let mapBase := set_Loot (Some []) mapBase in
      ret (<[_Id mapBase := mapBase]> locations)
  end.

Definition generateAll (sessionId : string) : M ILocationsGenerateAllResponse :=
  let locationsFromDb := tableLocations ext in
  locations <- foldM generateAllStep ∅ locationsFromDb ;;
  locationsBase <- defined (prop_get "base" locationsFromDb) ;;
  ret {| locations := locations; responsePaths := paths locationsBase |}.

Definition chooseAirdropType : M string :=
  let possibleAirdropTypes := airdropTypeWeightings airdropConfig in
  n <- draw ;;
  ret (getWeightedValue ext n possibleAirdropTypes).

Definition getAirdropLootConfigByType (airdropType : string) : M LootRequest :=
  lootSettingsByType <-
    match airdropLoot airdropConfig !! airdropType with
    | Some settings => ret (Some settings)
    | None =>
        logger (Error (getText ext "location-unable_to_find_airdrop_drop_config_of_type"
                         (ArgString airdropType))) ;;;
        ret (airdropLoot airdropConfig !! MIXED ext)
    end ;;
  lootSettingsByType <- defined lootSettingsByType ;;
  ret (requestOf lootSettingsByType).

Definition getAirdropLoot : M IAirdropLootResult :=
  airdropType <- chooseAirdropType ;;
  logger (Debug ("Chose " ++ airdropType ++ " for airdrop loot")) ;;;
  airdropConfig <- getAirdropLootConfigByType airdropType ;;
  n <- draw ;;
  ret {| dropType := airdropType; loot := createRandomLoot ext n airdropConfig |}.

End LocationController.

End Location.

(** ** More raids and a small database, for the examples *)

Module Examples.

(** The id of Prapor, who has dialogue templates in [Scenario.collaborators]. *)
Definition prapor : string := "54cb50c76803fa8b248b4571".

(** Item A insured with Prapor; an [InsuranceReturnTime] bonus of 20. *)
Definition profile1 : IPmcData :=
  {| Inventory := {| equipment := "equipment" |};
     InsuredItems := [ {| tid := prapor; itemId := "A" |} ];
     Bonuses := [ {| bonusType := "InsuranceReturnTime"; bonusValue := 20 |} ] |}.

Definition world1 (r : gmap string (list (string * list Item))) : World :=
  {| insured := r; profiles := {[ 1%positive := profile1 ]}; logged := [];
     draws := 0; dialogueMessages := []; npcMails := []; profileInsurance := ∅ |}.

(** An [InsuranceReturnTime] bonus of -30: its magnitude counts. *)
Definition profile2 : IPmcData :=
  {| Inventory := {| equipment := "equipment" |};
     InsuredItems := [];
     Bonuses := [ {| bonusType := "InsuranceReturnTime"; bonusValue := -30 |} ] |}.

(** The collaborators of the scenario, with a handbook price of 150 and a
    loyalty level whose coefficient is 30. *)
Definition collaborators150 : Collaborators :=
  {| getTimestamp := 1000;
     getDateMailFormat := "01.01.2024";
     getTimeMailFormat := "12:00";
     getInt := fun _ lo _ => lo;
     getArrayValue := fun _ l => default "" (head l);
     getTrader := fun _ _ => Scenario.trader0;
     getLoyaltyLevel := fun _ _ => {| insurance_price_coef := 30 |};
     getStaticItemPrice := fun _ => 150%Q;
     createMessageContext := fun t ty m =>
       {| templateId := t; type := ty; maxStorageTime := m; text := None;
          profileChangeEvents := None; systemData := None |};
     getText := fun key _ => key;
     traders := {[ prapor := {| dialogue := Some Scenario.dialogue0 |} ]};
     PRAPOR := prapor |}.

(** The player came back with item A. *)
Definition offraidKept : ISaveProgressRequestData :=
  {| profile_Inventory_items := [Scenario.itemA]; insurance := None |}.


Definition factoryBase : Location.ILocationBase :=
  {| Location._Id := "55f2d3fd4bdc2d5f408b4567"; Location.Name := "factory4_day";
     Location.Loot := Some [Location.JString "stale"]; Location.UnixDateTime := None;
     Location.baseOther := Location.JNull |}.

Definition locationTable : list (string * Location.ILocation) :=
  [ ("factory4_day",
     {| Location.base := Some factoryBase;
        Location.looseLoot := Some Location.JNull; Location.paths := None |});
    ("base",
     {| Location.base := None; Location.looseLoot := None;
        Location.paths := Some (Location.JArray []) |}) ].

Definition lootTable : Location.ILootBase :=
  {| Location.lootStaticContainers :=
       {[ "factory4_day" :=
            {| Location.staticWeapons := Some [Location.JString "mounted"];
               Location.staticContainers :=
                 Some [Location.JString "c1"; Location.JString "c2"];
               Location.staticForced := None |} ]};
     Location.staticLoot := Some Location.JNull;
     Location.staticAmmo := Some Location.JNull |}.

Definition locationCollaborators : Location.Collaborators :=
  {| Location.getTimestamp := 1000;
     Location.getText := fun key _ => key;
     Location.generateContainerLoot := fun n c _ _ _ _ => Location.JArray [c];
     Location.generateDynamicLoot := fun _ _ _ _ => [Location.JString "loose"];
     Location.createRandomLoot := fun _ _ => [];
     Location.getWeightedValue := fun _ _ => "weaponarmor";
     Location.cloneOfUndefinedThrows := false;
     Location.tableLocations := locationTable;
     Location.tableLoot := lootTable;
     Location.MIXED := "mixed" |}.

Definition locationWorld : Location.World :=
  {| Location.logged := []; Location.draws := 0 |}.

End Examples.

(** ** The return item normalizer *)

Section normalizer.

Lemma slotId_update_upd f i : slotId (update_upd f i) = slotId i.
Proof. reflexivity. Qed.

Lemma location_update_upd f i : location (update_upd f i) = location i.
Proof. reflexivity. Qed.

Lemma parentId_updateSlotIdValue e i : parentId (updateSlotIdValue e i) = parentId i.
Proof.
  unfold updateSlotIdValue.
  repeat match goal with |- context [if ?b then _ else _] => destruct b end; reflexivity.
Qed.

Lemma location_updateSlotIdValue e i : location (updateSlotIdValue e i) = location i.
Proof.
  unfold updateSlotIdValue.
  repeat match goal with |- context [if ?b then _ else _] => destruct b end; reflexivity.
Qed.

Lemma slotId_updateSlotIdValue e i :
  slotId (updateSlotIdValue e i) = if forcedToHideout e i then Some "hideout" else slotId i.
Proof.
  unfold updateSlotIdValue, forcedToHideout.
  destruct (negb (bool_decide (is_Some (slotId i))) || includes pocketSlots (slotId i)); simpl;
    destruct (bool_decide (parentId i = Some e)); reflexivity.
Qed.

Lemma updateSlotIdValue_slot_stable e i :
  slotId (updateSlotIdValue e (updateSlotIdValue e i)) = slotId (updateSlotIdValue e i).
Proof.
  rewrite (slotId_updateSlotIdValue e (updateSlotIdValue e i)).
  unfold forcedToHideout.
  rewrite parentId_updateSlotIdValue, slotId_updateSlotIdValue.
  unfold forcedToHideout.
  destruct (slotId i) as [s|] eqn:Hs; simpl.
  - destruct (bool_decide (s ∈ pocketSlots)) eqn:Hp; simpl;
      destruct (bool_decide (parentId i = Some e)); simpl;
      rewrite ?Hp; reflexivity.
  - destruct (bool_decide (parentId i = Some e)); reflexivity.
Qed.

Lemma getInsuredItemDetails_slotId p i c :
  slotId (getInsuredItemDetails p i c) = slotId (updateSlotIdValue (equipment (Inventory p)) i).
Proof.
  unfold getInsuredItemDetails.
  repeat match goal with
         | |- context [if ?b then _ else _] => destruct b
         end; rewrite ?slotId_update_upd; simpl;
    rewrite ?slotId_updateSlotIdValue; unfold forcedToHideout; destruct (upd i); reflexivity.
Qed.

Lemma getInsuredItemDetails_parentId p i c :
  parentId (getInsuredItemDetails p i c) = parentId i.
Proof.
  unfold getInsuredItemDetails.
  repeat match goal with
         | |- context [if ?b then _ else _] => destruct b
         end; simpl; rewrite ?parentId_updateSlotIdValue; destruct (upd i); reflexivity.
Qed.

Lemma getInsuredItemDetails__id p i c : _id (getInsuredItemDetails p i c) = _id i.
Proof.
  unfold getInsuredItemDetails, updateSlotIdValue.
  repeat match goal with
         | |- context [if ?b then _ else _] => destruct b
         end; simpl; destruct (upd i); reflexivity.
Qed.

Lemma getInsuredItemDetails_location p i c :
  location (getInsuredItemDetails p i c) =
  if bool_decide (slotId (updateSlotIdValue (equipment (Inventory p)) i) = Some "hideout")
  then None else location i.
Proof.
  unfold getInsuredItemDetails.
  set (u := match upd i with Some _ => i | None => _ end).
  assert (Hs : slotId (updateSlotIdValue (equipment (Inventory p)) u)
               = slotId (updateSlotIdValue (equipment (Inventory p)) i)).
  { rewrite !slotId_updateSlotIdValue. subst u. destruct (upd i); reflexivity. }
  assert (Hl : location (updateSlotIdValue (equipment (Inventory p)) u) = location i).
  { rewrite location_updateSlotIdValue. subst u. destruct (upd i); reflexivity. }
  generalize dependent (updateSlotIdValue (equipment (Inventory p)) u).
  intros x Hs Hl.
  repeat match goal with
         | |- context [if truthy ?b then _ else _] => destruct (truthy b)
         end; rewrite ?location_update_upd; rewrite Hl, Hs;
    destruct (bool_decide (_ = Some "hideout")); simpl;
    destruct (location i) eqn:E; simpl; rewrite ?Hl; auto.
Qed.

End normalizer.

(** C6. Normalizing the output of [getInsuredItemDetails] once more, for the
    same profile and with any client wear data, leaves its [slotId] and its
    [location] as they are. *)
Theorem getInsuredItemDetails_idempotent_slot_location
    (pmcData : IPmcData) (preRaidItem : Item) (c1 c2 : option IInsuredItemsData) :
  let once := getInsuredItemDetails pmcData preRaidItem c1 in
  let twice := getInsuredItemDetails pmcData once c2 in
  slotId twice = slotId once /\ location twice = location once.
Proof.
  intros once twice. subst twice.
  set (e := equipment (Inventory pmcData)).
  assert (Hslot : slotId (updateSlotIdValue e once) = slotId once).
  { subst once. rewrite slotId_updateSlotIdValue. unfold forcedToHideout.
    rewrite getInsuredItemDetails_parentId, getInsuredItemDetails_slotId.
    fold e. rewrite slotId_updateSlotIdValue. unfold forcedToHideout.
    destruct (slotId preRaidItem) as [s|]; simpl.
    - destruct (bool_decide (s ∈ pocketSlots)) eqn:Hp; simpl;
        destruct (bool_decide (parentId preRaidItem = Some e)); simpl;
        rewrite ?Hp; reflexivity.
    - destruct (bool_decide (parentId preRaidItem = Some e)); reflexivity. }
  split.
  - rewrite getInsuredItemDetails_slotId. exact Hslot.
  - rewrite getInsuredItemDetails_location. fold e. rewrite Hslot.
    destruct (bool_decide (slotId once = Some "hideout")) eqn:Hh; [|reflexivity].
    apply bool_decide_eq_true in Hh.
    subst once. rewrite getInsuredItemDetails_location.
    rewrite getInsuredItemDetails_slotId in Hh. fold e.
    rewrite bool_decide_eq_true_2 by exact Hh. reflexivity.
Qed.

(** ** The return scheduler *)

Section scheduler.

Variable ext : Collaborators.
Variable insuranceConfig : IInsuranceConfig.

(** C3. With a positive [returnTimeOverrideSeconds] the timestamp is the
    current time plus the override, for every profile and every trader:
    neither the bonuses nor the trader's return hours are consulted, and no
    random number is drawn. *)
Theorem getInsuranceReturnTimestamp_override
    (pmcData : IPmcData) (trader : ITraderBase) (w : World) (N : Q) :
  returnTimeOverrideSeconds insuranceConfig = N ->
  (0 < N)%Q ->
  (getInsuranceReturnTimestamp ext insuranceConfig pmcData trader w).1
    = Returned (getTimestamp ext + N)%Q
  /\ draws (getInsuranceReturnTimestamp ext insuranceConfig pmcData trader w).2 = draws w.
Proof.
  intros HN Hpos. unfold getInsuranceReturnTimestamp. rewrite HN.
  destruct (Qlt_le_dec 0 N) as [_|Hle].
  - split; reflexivity.
  - exfalso. apply (Qlt_not_le _ _ Hpos Hle).
Qed.

(** C4. Without override, and with no [InsuranceReturnTime] bonus or one of
    value 0, a draw between the trader's minimum and maximum return time in
    seconds gives a timestamp between the current time plus that minimum and
    the current time plus that maximum. *)
Theorem getInsuranceReturnTimestamp_bounds
    (pmcData : IPmcData) (trader : ITraderBase) (w : World) :
  let lo := (min_return_hour (traderInsurance trader) * 3600)%Q in
  let hi := (max_return_hour (traderInsurance trader) * 3600)%Q in
  (returnTimeOverrideSeconds insuranceConfig == 0)%Q ->
  match find (fun b => bool_decide (bonusType b = "InsuranceReturnTime")) (Bonuses pmcData) with
  | Some b => (bonusValue b == 0)%Q
  | None => True
  end ->
  (lo <= getInt ext (draws w) lo hi)%Q ->
  (getInt ext (draws w) lo hi <= hi)%Q ->
  exists t : Q,
    (getInsuranceReturnTimestamp ext insuranceConfig pmcData trader w).1 = Returned t
    /\ (getTimestamp ext + lo <= t)%Q /\ (t <= getTimestamp ext + hi)%Q.
Proof.
  intros lo hi Hov Hbonus Hlo Hhi.
  unfold getInsuranceReturnTimestamp.
  destruct (Qlt_le_dec 0 (returnTimeOverrideSeconds insuranceConfig)) as [Hlt|_].
  { exfalso. rewrite Hov in Hlt. exact (Qlt_irrefl 0 Hlt). }
  unfold bind, draw, gets, modify, ret, bind. simpl.
  eexists. split; [reflexivity|].
  fold lo hi. unfold oneHourAsSeconds. fold lo hi.
  set (r := getInt ext (draws w) lo hi) in *.
  assert (Hone : (1 - match find (fun b => bool_decide (bonusType b = "InsuranceReturnTime"))
                              (Bonuses pmcData) with
                      | Some b => Math_abs (bonusValue b)
                      | None => 0
                      end / 100 == 1)%Q).
  { destruct (find _ (Bonuses pmcData)) as [b|].
    - unfold Math_abs. rewrite Hbonus. reflexivity.
    - reflexivity. }
  rewrite Hone, Qmult_1_r.
  split; apply Qplus_le_r; assumption.
Qed.

End scheduler.

(** ** The lost-insurance message *)

Section lost_message.

Lemma nat_of_lower_ascii c :
  Ascii.nat_of_ascii (lower_ascii c) =
  if is_upper (Ascii.nat_of_ascii c) then (Ascii.nat_of_ascii c + 32)%nat
  else Ascii.nat_of_ascii c.
Proof.
  unfold lower_ascii, is_upper.
  destruct (Nat.leb_spec 65 (Ascii.nat_of_ascii c));
    destruct (Nat.leb_spec (Ascii.nat_of_ascii c) 90); simpl; try reflexivity.
  apply Ascii.nat_ascii_embedding. lia.
Qed.

Lemma char_eq_nocase_lower a b :
  char_eq_nocase a b = true <-> lower_ascii a = lower_ascii b.
Proof.
  split.
  - intros H.
    rewrite <- (Ascii.ascii_nat_embedding (lower_ascii a)),
            <- (Ascii.ascii_nat_embedding (lower_ascii b)).
    f_equal. rewrite !nat_of_lower_ascii.
    unfold char_eq_nocase, is_upper in *.
    repeat match goal with
           | H : context [(?x <=? ?y)%nat] |- _ => destruct (Nat.leb_spec x y)
           | H : context [(?x =? ?y)%nat] |- _ => destruct (Nat.eqb_spec x y)
           | |- context [(?x <=? ?y)%nat] => destruct (Nat.leb_spec x y)
           end; simpl in *; try lia; discriminate.
  - intros H. apply (f_equal Ascii.nat_of_ascii) in H.
    rewrite !nat_of_lower_ascii in H.
    unfold char_eq_nocase, is_upper in *.
    repeat match goal with
           | H : context [(?x <=? ?y)%nat] |- _ => destruct (Nat.leb_spec x y)
           | |- context [(?x <=? ?y)%nat] => destruct (Nat.leb_spec x y)
           | |- context [(?x =? ?y)%nat] => destruct (Nat.eqb_spec x y)
           end; simpl in *; try reflexivity; lia.
Qed.

Lemma equalsIgnoreCase_toLowerCase s t :
  equalsIgnoreCase s t = true <-> toLowerCase s = toLowerCase t.
Proof.
  revert t. induction s as [|a s IH]; intros [|b t]; simpl;
    try (split; [reflexivity || discriminate | reflexivity || discriminate]).
  rewrite andb_true_iff, char_eq_nocase_lower, IH.
  split.
  - intros [-> ->]. reflexivity.
  - intros H. injection H as H1 H2. split; assumption.
Qed.

Lemma toLowerCase_laboratory s :
  toLowerCase s = "laboratory" <-> equalsIgnoreCase s "laboratory" = true.
Proof. rewrite equalsIgnoreCase_toLowerCase. reflexivity. Qed.

Variable ext : Collaborators.

(** C7. When Prapor's dialogue templates are in the database,
    [sendLostInsuranceMessage] sends one message whose template is drawn
    from [insuranceFailedLabs] if [locationName] equals "laboratory" without
    regard to case, and from [insuranceFailed] in every other case. *)
Theorem sendLostInsuranceMessage_template
    (sessionId : string) (locationName : option string) (w : World)
    (trader : ITrader) (d : Dialogue) :
  traders ext !! PRAPOR ext = Some trader ->
  dialogue trader = Some d ->
  exists mail : NpcMail,
    sendLostInsuranceMessage ext sessionId locationName w
      = (Returned tt, add_mail mail (next_draw w))
    /\ mailSessionId mail = sessionId
    /\ mailTemplateId mail =
         if match locationName with
            | Some s => equalsIgnoreCase s "laboratory"
            | None => false
            end
         then getArrayValue ext (draws w) (insuranceFailedLabs d)
         else getArrayValue ext (draws w) (insuranceFailed d).
Proof.
  intros Htr Hd. unfold sendLostInsuranceMessage.
  unfold bind, defined. rewrite Htr. unfold ret at 1. rewrite Hd. unfold ret at 1.
  unfold draw, bind, gets, modify, ret.
  eexists. split; [reflexivity|]. split; [reflexivity|]. simpl.
  destruct locationName as [s|]; simpl.
  - destruct (equalsIgnoreCase s "laboratory") eqn:E.
    + apply toLowerCase_laboratory in E.
      rewrite bool_decide_eq_true_2 by (f_equal; exact E). reflexivity.
    + rewrite bool_decide_eq_false_2; [reflexivity|].
      intros H. injection H as H. apply toLowerCase_laboratory in H. congruence.
  - reflexivity.
Qed.

End lost_message.

(** ** Rounding to double precision *)

Section double_arithmetic.

Import Double.

Local Open Scope Q_scope.
Lemma pow2_pos (k : Z) : 0 < 2 ^ k.
Proof. apply Qpower_0_lt. reflexivity. Qed.

Lemma pow2_plus (a b : Z) : 2 ^ (a + b) == 2 ^ a * 2 ^ b.
Proof. apply Qpower_plus. discriminate. Qed.

Lemma pow2_le (a b : Z) : (a <= b)%Z -> 2 ^ a <= 2 ^ b.
Proof. intros H. apply Qpower_le_compat_l; [exact H|discriminate]. Qed.

Lemma pow2_lt_inv (a b : Z) : 2 ^ a < 2 ^ b -> (a < b)%Z.
Proof. intros H. apply (Qpower_lt_compat_l_inv 2); [exact H|reflexivity]. Qed.

Lemma pow2_inject (n : Z) : (0 <= n)%Z -> inject_Z (2 ^ n) == 2 ^ n.
Proof. intros H. apply (Zpower_Qpower 2 n H). Qed.

Lemma ilog2_spec (x : Q) : 0 < x -> 2 ^ ilog2 x <= x /\ x < 2 ^ (ilog2 x + 1).
Proof.
  intros Hx. destruct x as [n d].
  assert (Hn : (0 < n)%Z).
  { unfold Qlt in Hx. simpl in Hx. lia. }
  unfold ilog2. cbn [Qnum Qden].
  set (a := Z.log2 n). set (b := Z.log2 (Z.pos d)).
  destruct (Z.log2_spec n Hn) as [Ha1 Ha2]. fold a in Ha1, Ha2.
  destruct (Z.log2_spec (Z.pos d) eq_refl) as [Hb1 Hb2]. fold b in Hb1, Hb2.
  assert (Ha0 : (0 <= a)%Z) by apply Z.log2_nonneg.
  assert (Hb0 : (0 <= b)%Z) by apply Z.log2_nonneg.
  assert (Hd : 0 < inject_Z (Z.pos d)) by reflexivity.
  assert (Hx' : (n # d) * inject_Z (Z.pos d) == inject_Z n).
  { rewrite (Qmake_Qdiv n d). field. discriminate. }
  assert (Qa1 : 2 ^ a <= inject_Z n).
  { rewrite <- pow2_inject by exact Ha0. rewrite <- Zle_Qle. exact Ha1. }
  assert (Qa2 : inject_Z n < 2 ^ (a + 1)).
  { rewrite <- pow2_inject by lia. rewrite <- Zlt_Qlt. exact Ha2. }
  assert (Qb1 : 2 ^ b <= inject_Z (Z.pos d)).
  { rewrite <- pow2_inject by exact Hb0. rewrite <- Zle_Qle. exact Hb1. }
  assert (Qb2 : inject_Z (Z.pos d) < 2 ^ (b + 1)).
  { rewrite <- pow2_inject by lia. rewrite <- Zlt_Qlt. exact Hb2. }
  destruct (Qle_bool (2 ^ (a - b)) (n # d)) eqn:E.
  - apply Qle_bool_iff in E. split; [exact E|].
    apply (Qmult_lt_r _ _ (inject_Z (Z.pos d)) Hd). rewrite Hx'.
    apply (Qlt_le_trans _ _ _ Qa2).
    replace (a + 1)%Z with ((a - b + 1) + b)%Z by lia. rewrite pow2_plus.
    apply Qmult_le_l; [apply pow2_pos|exact Qb1].
  - assert (E' : (n # d) < 2 ^ (a - b)).
    { apply Qnot_le_lt. intros H. apply Qle_bool_iff in H. congruence. }
    split.
    + apply (Qmult_le_r _ _ (inject_Z (Z.pos d)) Hd). rewrite Hx'.
      apply (Qle_trans _ (2 ^ a)); [|exact Qa1].
      replace a with ((a - b - 1) + (b + 1))%Z at 2 by lia. rewrite pow2_plus.
      apply Qmult_le_l; [apply pow2_pos|]. apply Qlt_le_weak. exact Qb2.
    + replace (a - b - 1 + 1)%Z with (a - b)%Z by lia. exact E'.
Qed.

Lemma ilog2_le (x y : Q) : 0 < x -> x <= y -> (ilog2 x <= ilog2 y)%Z.
Proof.
  intros Hx Hxy.
  destruct (ilog2_spec x Hx) as [H1 _].
  destruct (ilog2_spec y (Qlt_le_trans _ _ _ Hx Hxy)) as [_ H2].
  assert (H : 2 ^ ilog2 x < 2 ^ (ilog2 y + 1)).
  { apply (Qle_lt_trans _ x); [exact H1|]. apply (Qle_lt_trans _ y); assumption. }
  apply pow2_lt_inv in H. lia.
Qed.

Lemma ilog2_comp (x y : Q) : 0 < x -> x == y -> ilog2 x = ilog2 y.
Proof.
  intros Hx Hxy.
  assert (Hy : 0 < y) by (rewrite <- Hxy; exact Hx).
  assert (H1 : (ilog2 x <= ilog2 y)%Z).
  { apply ilog2_le; [exact Hx|]. rewrite Hxy. apply Qle_refl. }
  assert (H2 : (ilog2 y <= ilog2 x)%Z).
  { apply ilog2_le; [exact Hy|]. rewrite Hxy. apply Qle_refl. }
  lia.
Qed.

Lemma roundHalfEven_floor (y : Q) :
  (Qfloor y <= roundHalfEven y <= Qfloor y + 1)%Z.
Proof.
  unfold roundHalfEven. destruct (y - inject_Z (Qfloor y) ?= 1 # 2); [|lia|lia].
  destruct (Z.even (Qfloor y)); lia.
Qed.

Lemma roundHalfEven_comp (x y : Q) : x == y -> roundHalfEven x = roundHalfEven y.
Proof.
  intros H. unfold roundHalfEven. rewrite (Qfloor_comp _ _ H).
  assert (Hd : x - inject_Z (Qfloor y) == y - inject_Z (Qfloor y)) by (rewrite H; reflexivity).
  rewrite (Qcompare_comp _ _ Hd (1 # 2) (1 # 2) (Qeq_refl _)). reflexivity.
Qed.

Lemma roundHalfEven_Z (n : Z) : roundHalfEven (inject_Z n) = n.
Proof.
  unfold roundHalfEven. rewrite Qfloor_Z.
  assert (H : inject_Z n - inject_Z n < 1 # 2) by (ring_simplify; reflexivity).
  rewrite Qlt_alt in H. rewrite H. reflexivity.
Qed.

Lemma roundHalfEven_le (x y : Q) : x <= y -> (roundHalfEven x <= roundHalfEven y)%Z.
Proof.
  intros Hxy. pose proof (Qfloor_resp_le _ _ Hxy) as Hf.
  destruct (Z.eq_dec (Qfloor x) (Qfloor y)) as [E|N].
  - unfold roundHalfEven. rewrite E.
    destruct (x - inject_Z (Qfloor y) ?= 1 # 2) eqn:Cx;
      destruct (y - inject_Z (Qfloor y) ?= 1 # 2) eqn:Cy;
      try (destruct (Z.even (Qfloor y)); lia); try lia; exfalso.
    + apply Qeq_alt in Cx. apply Qlt_alt in Cy. lra.
    + apply Qgt_alt in Cx. apply Qeq_alt in Cy. lra.
    + apply Qgt_alt in Cx. apply Qlt_alt in Cy. lra.
  - pose proof (roundHalfEven_floor x). pose proof (roundHalfEven_floor y). lia.
Qed.

Lemma exponent_comp (x y : Q) : 0 < x -> x == y -> exponent x = exponent y.
Proof. intros Hx H. unfold exponent. rewrite (ilog2_comp x y Hx H). reflexivity. Qed.

Lemma nearest_zero (x : Q) : x == 0 -> nearest x == 0.
Proof.
  intros H. unfold nearest.
  rewrite (roundHalfEven_comp (x / 2 ^ exponent x) (inject_Z 0)).
  - rewrite roundHalfEven_Z. ring.
  - unfold Qdiv. generalize (/ 2 ^ exponent x). intros c. rewrite H. ring.
Qed.

Lemma nearest_comp (x y : Q) : 0 <= x -> x == y -> nearest x == nearest y.
Proof.
  intros Hx H. destruct (Qlt_le_dec 0 x) as [Hpos|Hle].
  - unfold nearest. rewrite <- (exponent_comp x y Hpos H).
    rewrite (roundHalfEven_comp (y / 2 ^ exponent x) (x / 2 ^ exponent x)); [reflexivity|].
    unfold Qdiv. generalize (/ 2 ^ exponent x). intros c. rewrite H. reflexivity.
  - assert (H0 : x == 0) by lra.
    rewrite (nearest_zero x H0), (nearest_zero y); [reflexivity|].
    rewrite <- H. exact H0.
Qed.

Lemma nearest_nonneg (x : Q) : 0 <= x -> 0 <= nearest x.
Proof.
  intros Hx. unfold nearest. apply Qmult_le_0_compat; [|apply Qlt_le_weak, pow2_pos].
  change 0 with (inject_Z 0). rewrite <- Zle_Qle.
  rewrite <- (roundHalfEven_Z 0). apply roundHalfEven_le. cbn [inject_Z].
  apply Qle_shift_div_l; [apply pow2_pos|].
  change (inject_Z 0) with 0. rewrite Qmult_0_l. exact Hx.
Qed.

Lemma nearest_le (x y : Q) : 0 <= x -> x <= y -> nearest x <= nearest y.
Proof.
  intros Hx Hxy. destruct (Qlt_le_dec 0 x) as [Hpos|Hle].
  2:{ rewrite (nearest_zero x) by lra. apply nearest_nonneg. lra. }
  assert (Hy : 0 < y) by lra.
  pose proof (ilog2_le x y Hpos Hxy) as Hlog.
  destruct (ilog2_spec x Hpos) as [_ Hx2]. destruct (ilog2_spec y Hy) as [Hy1 _].
  unfold nearest.
  destruct (Z.eq_dec (exponent x) (exponent y)) as [E|N].
  - rewrite E. apply Qmult_le_compat_r; [|apply Qlt_le_weak, pow2_pos].
    rewrite <- Zle_Qle. apply roundHalfEven_le.
    apply Qmult_le_compat_r; [exact Hxy|]. apply Qlt_le_weak, Qinv_lt_0_compat, pow2_pos.
  - assert (Hex : (ilog2 x - 52 <= exponent x)%Z) by (unfold exponent; lia).
    assert (Hey : exponent y = (ilog2 y - 52)%Z /\ (exponent x + 1 <= exponent y)%Z).
    { unfold exponent in *. lia. }
    destruct Hey as [Hey Hlt].
    apply (Qle_trans _ (2 ^ (exponent x + 53))).
    + rewrite (Z.add_comm (exponent x) 53), pow2_plus.
      apply Qmult_le_compat_r; [|apply Qlt_le_weak, pow2_pos].
      rewrite <- (pow2_inject 53) by lia. rewrite <- Zle_Qle.
      rewrite <- (roundHalfEven_Z (2 ^ 53)). apply roundHalfEven_le.
      rewrite (pow2_inject 53) by lia.
      apply Qle_shift_div_r; [apply pow2_pos|]. rewrite <- pow2_plus.
      apply Qlt_le_weak. apply (Qlt_le_trans _ _ _ Hx2). apply pow2_le. lia.
    + apply (Qle_trans _ (2 ^ (52 + exponent y))); [apply pow2_le; lia|].
      rewrite pow2_plus.
      apply Qmult_le_compat_r; [|apply Qlt_le_weak, pow2_pos].
      rewrite <- (pow2_inject 52) by lia. rewrite <- Zle_Qle.
      rewrite <- (roundHalfEven_Z (2 ^ 52)) at 1. apply roundHalfEven_le.
      rewrite (pow2_inject 52) by lia.
      apply Qle_shift_div_l; [apply pow2_pos|]. rewrite <- pow2_plus.
      apply (Qle_trans _ (2 ^ ilog2 y)); [apply pow2_le; lia|exact Hy1].
Qed.

Lemma binary64_eq (x : Q) :
  binary64 x == if Qlt_le_dec x 0 then - nearest (- x) else nearest x.
Proof. unfold binary64. apply Qred_correct. Qed.

(** Rounding is monotone. *)
Lemma binary64_le (x y : Q) : x <= y -> binary64 x <= binary64 y.
Proof.
  intros Hxy. rewrite !binary64_eq.
  destruct (Qlt_le_dec x 0) as [Hx|Hx]; destruct (Qlt_le_dec y 0) as [Hy|Hy].
  - apply Qopp_le_compat. apply nearest_le; lra.
  - apply (Qle_trans _ 0).
    + pose proof (nearest_nonneg (- x)). lra.
    + apply nearest_nonneg. exact Hy.
  - lra.
  - apply nearest_le; assumption.
Qed.

(** Rounding depends on the value only, and gives a reduced fraction. *)
Lemma binary64_comp (x y : Q) : x == y -> binary64 x = binary64 y.
Proof.
  intros H. unfold binary64. apply Qred_complete.
  destruct (Qlt_le_dec x 0) as [Hx|Hx]; destruct (Qlt_le_dec y 0) as [Hy|Hy]; try lra.
  - apply Qopp_comp. apply nearest_comp; lra.
  - apply nearest_comp; assumption.
Qed.

Lemma binary64_0 : binary64 0 = 0.
Proof. vm_compute. reflexivity. Qed.

Lemma binary64_1 : binary64 1 = 1.
Proof. vm_compute. reflexivity. Qed.

Lemma binary64_nonneg (x : Q) : 0 <= x -> 0 <= binary64 x.
Proof. intros H. apply binary64_le in H. rewrite binary64_0 in H. exact H. Qed.

Lemma binary64_nonpos (x : Q) : x <= 0 -> binary64 x <= 0.
Proof. intros H. apply binary64_le in H. rewrite binary64_0 in H. exact H. Qed.

Lemma binary64_le_1 (x : Q) : x <= 1 -> binary64 x <= 1.
Proof. intros H. apply binary64_le in H. rewrite binary64_1 in H. exact H. Qed.

Lemma binary64_ge_1 (x : Q) : 1 <= x -> 1 <= binary64 x.
Proof. intros H. apply binary64_le in H. rewrite binary64_1 in H. exact H. Qed.

Lemma ilog2_unique (x : Q) (j : Z) : 2 ^ j <= x -> x < 2 ^ (j + 1) -> ilog2 x = j.
Proof.
  intros H1 H2.
  assert (Hx : 0 < x) by (apply (Qlt_le_trans _ (2 ^ j)); [apply pow2_pos|exact H1]).
  destruct (ilog2_spec x Hx) as [S1 S2].
  assert (A : 2 ^ j < 2 ^ (ilog2 x + 1)) by (apply (Qle_lt_trans _ x); assumption).
  assert (B : 2 ^ ilog2 x < 2 ^ (j + 1)) by (apply (Qle_lt_trans _ x); assumption).
  apply pow2_lt_inv in A. apply pow2_lt_inv in B. lia.
Qed.

Lemma pow2_lt (a b : Z) : (a < b)%Z -> 2 ^ a < 2 ^ b.
Proof. intros H. apply Qpower_lt_compat_l; [exact H|reflexivity]. Qed.

(** A multiple [n * 2^e] of a power of two with [n] of at most 53 bits, and
    of at most 52 bits unless [e] is more than the least exponent, is a
    double. *)
Lemma nearest_multiple (n e : Z) :
  (0 <= n <= 2 ^ 53)%Z -> (-1074 <= e)%Z ->
  ((2 ^ 52 <= n)%Z \/ e = (-1074)%Z) ->
  nearest (inject_Z n * 2 ^ e) == inject_Z n * 2 ^ e.
Proof.
  intros Hn He Hnorm.
  destruct (Z.eq_dec n 0%Z) as [->|Hn0].
  { assert (Hz : inject_Z 0 * 2 ^ e == 0) by apply Qmult_0_l.
    transitivity 0; [apply nearest_zero; exact Hz|symmetry; exact Hz]. }
  assert (Hcases : (n = 2 ^ 53)%Z \/ (2 ^ 52 <= n < 2 ^ 53)%Z
                   \/ ((0 < n < 2 ^ 52)%Z /\ e = (-1074)%Z)) by lia.
  set (y := inject_Z n * 2 ^ e).
  assert (Hexp : forall j : Z, 2 ^ j <= y -> y < 2 ^ (j + 1) -> exponent y = Z.max (j - 52) (-1074)).
  { intros j H1 H2. unfold exponent. rewrite (ilog2_unique y j H1 H2). reflexivity. }
  assert (Hround : forall (m e' : Z), exponent y = e' -> y == inject_Z m * 2 ^ e' ->
                     nearest y == y).
  { intros m e' He' Hy. unfold nearest. rewrite He'.
    rewrite (roundHalfEven_comp (y / 2 ^ e') (inject_Z m)).
    - rewrite roundHalfEven_Z. symmetry. exact Hy.
    - rewrite Hy. field. apply Qpower_not_0. discriminate. }
  destruct Hcases as [H53 | [Hmid | [Hsub He']]].
  - apply (Hround (2 ^ 52)%Z (e + 1)%Z).
    + rewrite (Hexp (e + 53)%Z).
      * lia.
      * unfold y. rewrite H53. rewrite (pow2_inject 53) by lia.
        rewrite <- pow2_plus. apply pow2_le. lia.
      * unfold y. rewrite H53. rewrite (pow2_inject 53) by lia.
        rewrite <- pow2_plus. apply pow2_lt. lia.
    + unfold y. rewrite H53. rewrite (pow2_inject 53), (pow2_inject 52) by lia.
      rewrite <- !pow2_plus. apply Qpower_comp; [reflexivity|lia].
  - apply (Hround n e).
    + rewrite (Hexp (e + 52)%Z).
      * lia.
      * unfold y. rewrite (Z.add_comm e 52), pow2_plus.
        apply Qmult_le_compat_r; [|apply Qlt_le_weak, pow2_pos].
        rewrite <- (pow2_inject 52) by lia. rewrite <- Zle_Qle. lia.
      * unfold y. replace (e + 52 + 1)%Z with (53 + e)%Z by lia. rewrite pow2_plus.
        apply Qmult_lt_r; [apply pow2_pos|].
        rewrite <- (pow2_inject 53) by lia. rewrite <- Zlt_Qlt. lia.
    + reflexivity.
  - apply (Hround n e); [|reflexivity].
    assert (Hy0 : 0 < y).
    { unfold y. apply Qmult_lt_0_compat; [|apply pow2_pos].
      change 0 with (inject_Z 0). rewrite <- Zlt_Qlt. lia. }
    destruct (ilog2_spec y Hy0) as [S1 _].
    assert (Hup : y < 2 ^ (52 + e)).
    { unfold y. rewrite pow2_plus. apply Qmult_lt_r; [apply pow2_pos|].
      rewrite <- (pow2_inject 52) by lia. rewrite <- Zlt_Qlt. lia. }
    assert (Hk : 2 ^ ilog2 y < 2 ^ (52 + e)) by (apply (Qle_lt_trans _ y); assumption).
    apply pow2_lt_inv in Hk. unfold exponent. lia.
Qed.

(** The rounded value is such a multiple. *)
Lemma nearest_is_multiple (x : Q) :
  0 <= x ->
  exists n e : Z, nearest x == inject_Z n * 2 ^ e
    /\ (0 <= n <= 2 ^ 53)%Z /\ (-1074 <= e)%Z /\ ((2 ^ 52 <= n)%Z \/ e = (-1074)%Z).
Proof.
  intros Hx. destruct (Qlt_le_dec 0 x) as [Hpos|Hle].
  2:{ exists 0%Z, (-1074)%Z. split; [|lia].
      rewrite (nearest_zero x) by lra. ring. }
  exists (roundHalfEven (x / 2 ^ exponent x)), (exponent x).
  split; [reflexivity|].
  destruct (ilog2_spec x Hpos) as [S1 S2].
  assert (He : (-1074 <= exponent x)%Z) by (unfold exponent; lia).
  assert (Hlow : (0 <= roundHalfEven (x / 2 ^ exponent x))%Z).
  { rewrite <- (roundHalfEven_Z 0). apply roundHalfEven_le.
    apply Qle_shift_div_l; [apply pow2_pos|].
    change (inject_Z 0) with 0. rewrite Qmult_0_l. exact Hx. }
  assert (Hhigh : (roundHalfEven (x / 2 ^ exponent x) <= 2 ^ 53)%Z).
  { rewrite <- (roundHalfEven_Z (2 ^ 53)). apply roundHalfEven_le.
    rewrite (pow2_inject 53) by lia.
    apply Qle_shift_div_r; [apply pow2_pos|]. rewrite <- pow2_plus.
    apply Qlt_le_weak. apply (Qlt_le_trans _ _ _ S2). apply pow2_le.
    unfold exponent. lia. }
  split; [lia|]. split; [exact He|].
  destruct (Z.eq_dec (exponent x) (-1074)%Z) as [E|N]; [right; exact E|left].
  assert (Hex : exponent x = (ilog2 x - 52)%Z) by (unfold exponent in *; lia).
  rewrite <- (roundHalfEven_Z (2 ^ 52)) at 1. apply roundHalfEven_le.
  rewrite (pow2_inject 52) by lia.
  apply Qle_shift_div_l; [apply pow2_pos|]. rewrite <- pow2_plus.
  apply (Qle_trans _ (2 ^ ilog2 x)); [apply pow2_le; lia|exact S1].
Qed.

Lemma nearest_idempotent (x : Q) : 0 <= x -> nearest (nearest x) == nearest x.
Proof.
  intros Hx. destruct (nearest_is_multiple x Hx) as (n & e & Hy & Hn & He & Hnorm).
  rewrite (nearest_comp (nearest x) (inject_Z n * 2 ^ e)).
  - rewrite Hy. apply nearest_multiple; assumption.
  - apply nearest_nonneg. exact Hx.
  - exact Hy.
Qed.

(** A double is rounded to itself. *)
Lemma binary64_idempotent (x : Q) : binary64 (binary64 x) = binary64 x.
Proof.
  transitivity (Qred (binary64 x)).
  2:{ unfold binary64. apply Qred_complete, Qred_correct. }
  unfold binary64 at 1. apply Qred_complete.
  pose proof (binary64_eq x) as Hb.
  destruct (Qlt_le_dec x 0) as [Hx|Hx].
  - assert (Hn : 0 <= nearest (- x)) by (apply nearest_nonneg; lra).
    destruct (Qlt_le_dec (binary64 x) 0) as [H|H].
    + rewrite (nearest_comp (- binary64 x) (nearest (- x))) by lra.
      rewrite nearest_idempotent by lra. lra.
    + assert (Hz : nearest (- x) == 0) by lra.
      rewrite (nearest_zero (binary64 x)) by lra. lra.
  - assert (Hn : 0 <= nearest x) by (apply nearest_nonneg; exact Hx).
    destruct (Qlt_le_dec (binary64 x) 0) as [H|H]; [lra|].
    rewrite (nearest_comp (binary64 x) (nearest x)) by lra.
    rewrite nearest_idempotent by exact Hx. lra.
Qed.

(** The rounding at work: 0.1 + 0.2 is 0.30000000000000004; the integer
    after [2^53] is not a double, and the tie goes to the even significand;
    half of the least subnormal number goes to zero. *)
Example binary64_examples :
  add (binary64 (1 # 10)) (binary64 (2 # 10)) = 1351079888211149 # 4503599627370496
  /\ binary64 (3 # 10) = 5404319552844595 # 18014398509481984
  /\ binary64 9007199254740993 = 9007199254740992
  /\ binary64 9007199254740995 = 9007199254740996
  /\ binary64 (- (1 # 3)) = - (6004799503160661 # 18014398509481984)
  /\ binary64 (2 ^ (-1074)) == 2 ^ (-1074)
  /\ binary64 (2 ^ (-1075)) = 0.
Proof. repeat split; vm_compute; reflexivity. Qed.

(** On the operands of the examples below the operations agree with those
    of the standard library's specification of IEEE 754 at 53 bits of
    precision. *)
Example binary64_agrees_with_SpecFloat :
  let SFdiv := SFdiv 53 1024 in
  let SFmul := SFmul 53 1024 in
  let SFsub := SFsub 53 1024 in
  let SFadd := SFadd 53 1024 in
  let three_tenths := SFdiv (float 3) (float 10) in
  value three_tenths == binary64 (3 # 10)
  /\ value (SFmul (float 150) three_tenths) == mul 150 (binary64 (3 # 10))
  /\ value (SFsub (float 1) (SFdiv (float 30) (float 100))) == sub 1 (div 30 100)
  /\ value (SFmul (SFmul (float 150) three_tenths)
                  (SFsub (float 1) (SFdiv (float 30) (float 100))))
     == mul (mul 150 (binary64 (3 # 10))) (sub 1 (div 30 100))
  /\ value (SFmul (SFmul (float 1000) three_tenths)
                  (SFsub (float 1) (SFdiv (float 10) (float 100))))
     == mul (mul 1000 (binary64 (3 # 10))) (sub 1 (div 10 100))
  /\ value (SFadd (float 1000)
                  (SFmul (float 86400) (SFsub (float 1) (SFdiv (float 30) (float 100)))))
     == add 1000 (mul 86400 (sub 1 (div 30 100))).
Proof. repeat split; vm_compute; reflexivity. Qed.

End double_arithmetic.

(** ** The premium calculator *)

Section premium.

Variable ext : Collaborators.
Variable insuranceConfig : IInsuranceConfig.

Lemma truthy_Some_nonzero (m : Q) : ~ (m == 0)%Q -> truthy (Some m) = true.
Proof.
  intros H. unfold truthy. destruct (Qeq_bool m 0) eqn:E; [|reflexivity].
  apply Qeq_bool_iff in E. contradiction.
Qed.

Lemma truthy_Some_zero (m : Q) : (m == 0)%Q -> truthy (Some m) = false.
Proof.
  intros H. unfold truthy. apply Qeq_bool_iff in H. rewrite H. reflexivity.
Qed.

Lemma Math_round_comp (x y : Q) : (x == y)%Q -> Math_round x = Math_round y.
Proof. intros H. unfold Math_round. rewrite H. reflexivity. Qed.

(** C5, amended. The premium is computed in double precision: the base
    price times the multiplier, rounded to a double, is multiplied by the
    double of 1 - coef/100 when the loyalty level's [insurance_price_coef]
    is positive, and is left as it is when the coefficient is zero or
    negative; [Math.round] of the result is returned.  The multiplier is
    the one configured for the trader when that is not zero, and nothing is
    logged; with no multiplier configured, or one equal to zero, it is the
    double 0.3 and a warning is logged.  Base price 1000, multiplier 0.3 and
    coefficient 10 give 270; base price 150, multiplier 0.3 and coefficient
    30 give 31, although 150 * 0.3 * 0.7 is 31.5. *)
Theorem getPremium_price
    (pmcData : IPmcData) (inventoryItem : Item) (traderId : string) (w : World) :
  let base := getStaticItemPrice ext (_tpl inventoryItem) in
  let coef := insurance_price_coef (getLoyaltyLevel ext traderId pmcData) in
  let configured := insuranceMultiplier insuranceConfig !! traderId in
  let warned :=
    add_log (LogWarning (getText ext "insurance-missing_insurance_price_multiplier" traderId)) w in
  let missing := configured = None \/ exists m, configured = Some m /\ (m == 0)%Q in
  let discounted (m : Q) :=
    Double.mul (Double.mul base m) (Double.sub 1 (Double.div coef 100)) in
  (forall m, configured = Some m -> ~ (m == 0)%Q -> (0 < coef)%Q ->
     Double.getPremium ext insuranceConfig pmcData inventoryItem traderId w
       = (Returned (Math_round (discounted m)), w))
  /\ (forall m, configured = Some m -> ~ (m == 0)%Q -> (coef <= 0)%Q ->
     Double.getPremium ext insuranceConfig pmcData inventoryItem traderId w
       = (Returned (Math_round (Double.mul base m)), w))
  /\ (missing -> (0 < coef)%Q ->
     Double.getPremium ext insuranceConfig pmcData inventoryItem traderId w
       = (Returned (Math_round (discounted (Double.binary64 (3 # 10)))), warned))
  /\ (missing -> (coef <= 0)%Q ->
     Double.getPremium ext insuranceConfig pmcData inventoryItem traderId w
       = (Returned (Math_round (Double.mul base (Double.binary64 (3 # 10)))), warned))
  /\ (forall m, configured = Some m -> (m == Double.binary64 (3 # 10))%Q ->
     (base == 1000)%Q -> (coef == 10)%Q ->
     (Double.getPremium ext insuranceConfig pmcData inventoryItem traderId w).1
       = Returned 270%Z)
  /\ (forall m, configured = Some m -> (m == Double.binary64 (3 # 10))%Q ->
     (base == 150)%Q -> (coef == 30)%Q ->
     (Double.getPremium ext insuranceConfig pmcData inventoryItem traderId w).1
       = Returned 31%Z
     /\ Math_round (base * (3 # 10) * (1 - coef / 100)) = 32%Z).
Proof.
  intros base coef configured warned missing discounted.
  assert (Hconf : forall m, configured = Some m -> ~ (m == 0)%Q ->
            Double.getPremium ext insuranceConfig pmcData inventoryItem traderId w
            = (Returned (Math_round (if Qlt_le_dec 0 coef
                                     then discounted m else Double.mul base m)), w)).
  { intros m Hm Hnz. unfold Double.getPremium. fold configured. rewrite Hm.
    rewrite (truthy_Some_nonzero m Hnz). reflexivity. }
  assert (Hmiss : missing ->
            Double.getPremium ext insuranceConfig pmcData inventoryItem traderId w
            = (Returned (Math_round (if Qlt_le_dec 0 coef
                                     then discounted (Double.binary64 (3 # 10))
                                     else Double.mul base (Double.binary64 (3 # 10)))),
               warned)).
  { intros [Hn | (m & Hm & Hz)]; unfold Double.getPremium; fold configured.
    - rewrite Hn. reflexivity.
    - rewrite Hm, (truthy_Some_zero m Hz). reflexivity. }
  assert (Hdouble : forall m b c : Q,
            configured = Some m -> (m == Double.binary64 (3 # 10))%Q ->
            (base == b)%Q -> (coef == c)%Q -> (0 < c)%Q ->
            (Double.getPremium ext insuranceConfig pmcData inventoryItem traderId w).1
            = Returned (Math_round
                (Double.mul (Double.mul b (Double.binary64 (3 # 10)))
                            (Double.sub 1 (Double.div c 100))))).
  { intros m b c Hm H3 Hb Hc Hpos.
    assert (Hnz : ~ (m == 0)%Q).
    { intros H. rewrite H3 in H. vm_compute in H. discriminate H. }
    rewrite (Hconf m Hm Hnz). cbn [fst]. f_equal. f_equal.
    destruct (Qlt_le_dec 0 coef) as [_|Hle].
    - unfold discounted, Double.mul, Double.sub, Double.div.
      rewrite (binary64_comp (base * m) (b * Double.binary64 (3 # 10)))
        by (rewrite Hb, H3; reflexivity).
      rewrite (binary64_comp (coef / 100) (c / 100)) by (rewrite Hc; reflexivity).
      reflexivity.
    - exfalso. rewrite Hc in Hle. exact (Qlt_not_le _ _ Hpos Hle). }
  split; [|split; [|split; [|split; [|split]]]].
  - intros m Hm Hnz Hpos. rewrite (Hconf m Hm Hnz).
    destruct (Qlt_le_dec 0 coef) as [_|Hle]; [reflexivity|].
    exfalso. exact (Qlt_not_le _ _ Hpos Hle).
  - intros m Hm Hnz Hle. rewrite (Hconf m Hm Hnz).
    destruct (Qlt_le_dec 0 coef) as [Hpos|_]; [|reflexivity].
    exfalso. exact (Qlt_not_le _ _ Hpos Hle).
  - intros Hmiss' Hpos. rewrite (Hmiss Hmiss').
    destruct (Qlt_le_dec 0 coef) as [_|Hle]; [reflexivity|].
    exfalso. exact (Qlt_not_le _ _ Hpos Hle).
  - intros Hmiss' Hle. rewrite (Hmiss Hmiss').
    destruct (Qlt_le_dec 0 coef) as [Hpos|_]; [|reflexivity].
    exfalso. exact (Qlt_not_le _ _ Hpos Hle).
  - intros m Hm H3 Hb Hc.
    rewrite (Hdouble m 1000%Q 10%Q Hm H3 Hb Hc eq_refl). vm_compute. reflexivity.
  - intros m Hm H3 Hb Hc. split.
    + rewrite (Hdouble m 150%Q 30%Q Hm H3 Hb Hc eq_refl). vm_compute. reflexivity.
    + rewrite (Math_round_comp _ (150 * (3 # 10) * (1 - 30 / 100))%Q).
      * reflexivity.
      * rewrite Hb, Hc. reflexivity.
Qed.

End premium.

(** ** The registry accessors *)

Section registry.

(** C9, amended. [getInsurance] returns for every session id, with the
    stored value or nothing, and changes nothing; [getInsuranceItems]
    returns for every trader id, with the stored bucket or nothing, as soon
    as the registry has an entry for the session. *)
Theorem registry_read_accessors (sessionId traderId : string) (w : World) :
  getInsurance sessionId w = (Returned (insured w !! sessionId), w)
  /\ (forall o, insured w !! sessionId = Some o ->
        getInsuranceItems sessionId traderId w = (Returned (prop_get traderId o), w)).
Proof.
  split; [reflexivity|].
  intros o Ho. unfold getInsuranceItems, bind, gets. rewrite Ho. reflexivity.
Qed.

End registry.

(** ** The pass over a trader's bucket before it is stored *)

Section location_pass.

Lemma find_isParentOf_ids (it : Item) (l1 l2 : list Item) :
  _id <$> l1 = _id <$> l2 ->
  find (isParentOf it) l1 = None <-> find (isParentOf it) l2 = None.
Proof.
  revert l2. induction l1 as [|a l1 IH]; intros [|b l2] H; simpl in *;
    try discriminate; [reflexivity|].
  injection H as Hab Hl.
  unfold isParentOf at 1 3. rewrite Hab.
  destruct (bool_decide (parentId it = Some (_id b))).
  - split; discriminate.
  - apply IH. exact Hl.
Qed.

Lemma _id_orphanFix its it : _id (orphanFix its it) = _id it.
Proof. unfold orphanFix. destruct (find _ its); reflexivity. Qed.

Lemma removeLocationLoop_from (its : list Item) (m k : nat) :
  k + m = length its ->
  foldl removeLocationStep ((orphanFix its <$> take k its) ++ drop k its) (seq k m)
  = orphanFix its <$> its.
Proof.
  revert k. induction m as [|m IH]; intros k Hk; simpl.
  - rewrite take_ge, drop_ge by lia. apply app_nil_r.
  - destruct (lookup_lt_is_Some_2 its k) as [x Hx]; [lia|].
    assert (Hlen : length (orphanFix its <$> take k its) = k).
    { rewrite length_fmap, length_take_le; lia. }
    set (arr := (orphanFix its <$> take k its) ++ drop k its).
    assert (Harr : arr !! k = Some x).
    { subst arr. rewrite lookup_app_r by lia. rewrite Hlen, Nat.sub_diag, lookup_drop.
      rewrite Nat.add_0_r. exact Hx. }
    assert (Hids : _id <$> arr = _id <$> its).
    { subst arr. rewrite fmap_app, <- list_fmap_compose.
      rewrite (list_fmap_ext (_id ∘ orphanFix its) _id (take k its))
        by (intros; apply _id_orphanFix).
      rewrite <- fmap_app, take_drop. reflexivity. }
    assert (Hstep : removeLocationStep arr k
                    = (orphanFix its <$> take (S k) its) ++ drop (S k) its).
    { unfold removeLocationStep. rewrite Harr.
      rewrite (take_S_r _ _ _ Hx), fmap_app. simpl.
      rewrite <- app_assoc. simpl.
      pose proof (find_isParentOf_ids x arr its Hids) as Hfind.
      unfold orphanFix at 2.
      destruct (find (isParentOf x) arr) as [p|] eqn:Ea.
      - destruct (find (isParentOf x) its) as [q|] eqn:Ei.
        + subst arr. rewrite (drop_S _ _ _ Hx). reflexivity.
        + destruct Hfind as [_ Hfind]. discriminate (Hfind eq_refl).
      - destruct Hfind as [Hfind _]. rewrite (Hfind eq_refl).
        subst arr. rewrite insert_app_r_alt by lia.
        rewrite Hlen, Nat.sub_diag, (drop_S _ _ _ Hx). reflexivity. }
    rewrite Hstep. apply IH. lia.
Qed.

Lemma removeLocationLoop_fmap (its : list Item) :
  removeLocationLoop its = orphanFix its <$> its.
Proof.
  unfold removeLocationLoop.
  rewrite <- (removeLocationLoop_from its (length its) 0) by lia.
  rewrite take_0, drop_0. reflexivity.
Qed.

Lemma prop_get_set {V} (k : string) (v : V) (o : list (string * V)) :
  prop_get k (prop_set k v o) = Some v.
Proof.
  induction o as [|[k' v'] o IH]; simpl.
  - rewrite decide_True; reflexivity.
  - destruct (decide (k' = k)) as [->|Hne]; simpl.
    + rewrite decide_True; reflexivity.
    + rewrite decide_False by exact Hne. exact IH.
Qed.

Lemma prop_get_set_ne {V} (k k0 : string) (v : V) (o : list (string * V)) :
  k0 <> k -> prop_get k0 (prop_set k v o) = prop_get k0 o.
Proof.
  intros Hne. induction o as [|[k' v'] o IH]; simpl.
  - rewrite decide_False; [reflexivity|]. intros ->. contradiction.
  - destruct (decide (k' = k)) as [->|Hk]; simpl.
    + rewrite !decide_False; [reflexivity| |]; intros ->; contradiction.
    + destruct (decide (k' = k0)); [reflexivity|exact IH].
Qed.

(** What the pass does to a bucket: the items stay where they are, with
    their [_id] and [parentId]; an item whose [parentId] is the [_id] of no
    item of the bucket gets [slotId] "hideout" and loses its [location],
    and an item whose [parentId] is the [_id] of an item of the bucket is
    left as it is. *)
Lemma removeLocationProperty_pass
    (sessionId traderId : string) (w : World)
    (o : list (string * list Item)) (insuredItems : list Item) :
  insured w !! sessionId = Some o ->
  prop_get traderId o = Some insuredItems ->
  exists after : list Item,
    removeLocationProperty sessionId traderId w
      = (Returned tt, set_insured (fun r => <[sessionId := prop_set traderId after o]> r) w)
    /\ prop_get traderId (prop_set traderId after o) = Some after
    /\ length after = length insuredItems
    /\ forall (i : nat) (item : Item), insuredItems !! i = Some item ->
         exists item' : Item,
           after !! i = Some item'
           /\ _id item' = _id item
           /\ parentId item' = parentId item
           /\ ((forall x, x ∈ insuredItems -> parentId item <> Some (_id x)) ->
                 slotId item' = Some "hideout" /\ location item' = None
                 /\ _tpl item' = _tpl item /\ upd item' = upd item)
           /\ ((exists x, x ∈ insuredItems /\ parentId item = Some (_id x)) ->
                 item' = item).
Proof.
  intros Ho Hb. exists (removeLocationLoop insuredItems).
  split.
  { unfold removeLocationProperty, bind, getInsurance, gets, defined.
    rewrite Ho. unfold ret at 1. rewrite Hb. reflexivity. }
  split; [apply prop_get_set|].
  rewrite removeLocationLoop_fmap.
  split; [apply length_fmap|].
  intros i item Hi. exists (orphanFix insuredItems item).
  split; [rewrite list_lookup_fmap, Hi; reflexivity|].
  unfold orphanFix.
  destruct (find (isParentOf item) insuredItems) as [p|] eqn:E.
  - split; [reflexivity|]. split; [reflexivity|]. split; [|reflexivity].
    intros Hnone. exfalso.
    apply find_some in E as [Hin Hp].
    apply (Hnone p); [apply list_elem_of_In; exact Hin|].
    unfold isParentOf in Hp. apply bool_decide_eq_true in Hp. exact Hp.
  - split; [reflexivity|]. split; [reflexivity|]. split.
    + intros _. repeat split; reflexivity.
    + intros (x & Hx & Hpar). exfalso.
      apply list_elem_of_In in Hx.
      pose proof (find_none _ _ E x Hx) as Hf.
      unfold isParentOf in Hf. apply bool_decide_eq_false in Hf. contradiction.
Qed.

(** C10. In a bucket in which no item is its own parent,
    [removeLocationProperty] leaves the items where they are, with their
    [_id] and [parentId]; an item whose [parentId] is the [_id] of no other
    item of the bucket has [slotId] "hideout" and no [location] afterwards,
    and an item whose [parentId] is the [_id] of another item of the bucket
    keeps its [slotId] and its [location], as it keeps everything else. *)
Theorem removeLocationProperty_roots
    (sessionId traderId : string) (w : World)
    (o : list (string * list Item)) (insuredItems : list Item) :
  insured w !! sessionId = Some o ->
  prop_get traderId o = Some insuredItems ->
  (forall x, x ∈ insuredItems -> parentId x <> Some (_id x)) ->
  exists after : list Item,
    removeLocationProperty sessionId traderId w
      = (Returned tt, set_insured (fun r => <[sessionId := prop_set traderId after o]> r) w)
    /\ prop_get traderId (prop_set traderId after o) = Some after
    /\ length after = length insuredItems
    /\ forall (i : nat) (item : Item), insuredItems !! i = Some item ->
         exists item' : Item,
           after !! i = Some item'
           /\ _id item' = _id item
           /\ parentId item' = parentId item
           /\ ((forall j x, j <> i -> insuredItems !! j = Some x ->
                  parentId item <> Some (_id x)) ->
                 slotId item' = Some "hideout" /\ location item' = None
                 /\ _tpl item' = _tpl item /\ upd item' = upd item)
           /\ ((exists j x, j <> i /\ insuredItems !! j = Some x
                            /\ parentId item = Some (_id x)) ->
                 slotId item' = slotId item /\ location item' = location item
                 /\ item' = item).
Proof.
  intros Ho Hb Hself.
  destruct (removeLocationProperty_pass sessionId traderId w o insuredItems Ho Hb)
    as (after & Hrun & Hget & Hlen & Hitems).
  exists after. split; [exact Hrun|]. split; [exact Hget|]. split; [exact Hlen|].
  intros i item Hi.
  destruct (Hitems i item Hi) as (item' & Hi' & Hid & Hpar & Hroot & Hchild).
  exists item'. split; [exact Hi'|]. split; [exact Hid|]. split; [exact Hpar|]. split.
  - intros Hother. apply Hroot. intros x Hx.
    apply list_elem_of_lookup in Hx as [j Hj].
    destruct (decide (j = i)) as [->|Hne].
    + rewrite Hi in Hj. injection Hj as <-.
      apply Hself. apply list_elem_of_lookup. exists i. exact Hi.
    + exact (Hother j x Hne Hj).
  - intros (j & x & _ & Hj & Hp).
    assert (Hsame : item' = item).
    { apply Hchild. exists x. split; [|exact Hp].
      apply list_elem_of_lookup. exists j. exact Hj. }
    rewrite Hsame. repeat split; reflexivity.
Qed.

End location_pass.

(** ** The gear loss resolver *)

Section resolver.

Variable insuranceConfig : IInsuranceConfig.

Lemma createItemHashTable_from_key (items : list Item) (h : gmap string Item) :
  (forall k it, h !! k = Some it -> _id it = k) ->
  forall k it,
    foldl (fun hashTable item => <[_id item := item]> hashTable) h items !! k = Some it ->
    _id it = k.
Proof.
  revert h. induction items as [|a items IH]; intros h Hh k it; simpl.
  - apply Hh.
  - apply IH. intros k' it' H.
    destruct (decide (_id a = k')) as [<-|Hne].
    + rewrite lookup_insert_eq in H. congruence.
    + rewrite lookup_insert_ne in H by exact Hne. apply Hh. exact H.
Qed.

Lemma createItemHashTable_key (items : list Item) (k : string) (it : Item) :
  createItemHashTable items !! k = Some it -> _id it = k.
Proof.
  apply createItemHashTable_from_key. intros k' it' H.
  rewrite lookup_empty in H. discriminate.
Qed.

Lemma includes_false (l : list string) (x : option string) :
  includes l x = false <-> forall s, x = Some s -> s ∉ l.
Proof.
  destruct x as [s|]; simpl.
  - rewrite bool_decide_eq_false. split.
    + intros H s' [= <-]. exact H.
    + intros H. apply H. reflexivity.
  - split; [intros _ s H; discriminate | reflexivity].
Qed.

(** Whether an insured item gives a candidate depends on its [itemId] only. *)
Lemma lostGearCandidate_Some_iff pmcData profile offraidData pre off sessionID playerDied e :
  is_Some (lostGearCandidate insuranceConfig pmcData profile offraidData pre off
             sessionID playerDied e)
  <-> exists preRaidItem,
        pre !! itemId e = Some preRaidItem
        /\ (forall s, slotId preRaidItem = Some s -> s ∉ blacklistedEquipment insuranceConfig)
        /\ (off !! itemId e = None \/ playerDied = true).
Proof.
  unfold lostGearCandidate.
  destruct (pre !! itemId e) as [preRaidItem|].
  - destruct (includes _ (slotId preRaidItem)) eqn:Hb.
    + split; [intros [? H]; discriminate|].
      intros (p & [= <-] & Hbl & _).
      pose proof (proj2 (includes_false _ _) Hbl). congruence.
    + pose proof (proj1 (includes_false _ _) Hb) as Hb'.
      destruct (off !! itemId e) as [x|] eqn:Ho; destruct playerDied; simpl;
        try (rewrite bool_decide_eq_true_2 by eauto); try (rewrite bool_decide_eq_false_2 by
          (intros [? ?]; discriminate)); simpl.
      * split; [intros _; eauto 6 | eauto].
      * split; [intros [? H]; discriminate|].
        intros (p & _ & _ & [H|H]); discriminate.
      * split; [intros _; eauto 6 | eauto].
      * split; [intros _; eauto 6 | eauto].
  - split; [intros [? H]; discriminate|]. intros (p & H & _). discriminate.
Qed.

Lemma lostGearCandidate_gear pmcData profile offraidData (pre off : gmap string Item)
    sessionID playerDied e gear :
  (forall k it, pre !! k = Some it -> _id it = k) ->
  lostGearCandidate insuranceConfig pmcData profile offraidData pre off
    sessionID playerDied e = Some gear ->
  _id (itemToReturnToPlayer gear) = itemId e /\ gearTraderId gear = tid e
  /\ gearPmcData gear = pmcData /\ gearSessionID gear = sessionID.
Proof.
  intros Hpre. unfold lostGearCandidate.
  destruct (pre !! itemId e) as [preRaidItem|] eqn:Hp; [|discriminate].
  destruct (includes _ _); [discriminate|].
  destruct (_ || _); [|discriminate].
  intros [= <-]. simpl. rewrite getInsuredItemDetails__id.
  split; [apply Hpre; exact Hp|]. repeat split.
Qed.

(** C1. [storeLostGear] hands to [addGearToSend] the list of candidates
    built by its first loop, and for every entry of the profile's
    [InsuredItems] that list has a candidate for the entry (its item and its
    trader) exactly when the item's id is in the pre-raid table, the slot it
    had there is not blacklisted, and the id is missing from the post-raid
    table or the player died. *)
Theorem storeLostGear_candidate_iff
    (pmcData : ref) (profile : IPmcData) (offraidData : ISaveProgressRequestData)
    (preRaidGear : list Item) (sessionID : string) (playerDied : bool) (w : World)
    (insuredItem : InsuredItem) :
  profiles w !! pmcData = Some profile ->
  insuredItem ∈ InsuredItems profile ->
  let candidates :=
    equipmentToSendToPlayer insuranceConfig pmcData profile offraidData preRaidGear
      sessionID playerDied in
  storeLostGear insuranceConfig pmcData offraidData preRaidGear sessionID playerDied w
    = forEach addGearToSend candidates w
  /\ ((exists gear, gear ∈ candidates
         /\ _id (itemToReturnToPlayer gear) = itemId insuredItem
         /\ gearTraderId gear = tid insuredItem)
      <->
      (exists preRaidItem,
         createItemHashTable preRaidGear !! itemId insuredItem = Some preRaidItem
         /\ (forall s, slotId preRaidItem = Some s ->
               s ∉ blacklistedEquipment insuranceConfig)
         /\ (createItemHashTable (profile_Inventory_items offraidData) !! itemId insuredItem
               = None
             \/ playerDied = true))).
Proof.
  intros Hprof Hin candidates. split.
  { unfold storeLostGear, bind, gets, defined. rewrite Hprof. reflexivity. }
  subst candidates. unfold equipmentToSendToPlayer.
  set (pre := createItemHashTable preRaidGear).
  set (off := createItemHashTable (profile_Inventory_items offraidData)).
  split.
  - intros (gear & Hg & Hid & _).
    apply list_elem_of_omap in Hg as (e & _ & He).
    pose proof (lostGearCandidate_gear _ _ _ _ _ _ _ _ _
                  (createItemHashTable_key preRaidGear) He) as (Hge & _).
    assert (Hsome : is_Some (lostGearCandidate insuranceConfig pmcData profile offraidData
                               pre off sessionID playerDied e)) by (rewrite He; eauto).
    apply lostGearCandidate_Some_iff in Hsome.
    replace (itemId insuredItem) with (itemId e) by congruence. exact Hsome.
  - intros Hq. apply lostGearCandidate_Some_iff
      with (pmcData := pmcData) (profile := profile) (offraidData := offraidData)
           (sessionID := sessionID) in Hq as [gear Hgear].
    exists gear.
    pose proof (lostGearCandidate_gear _ _ _ _ _ _ _ _ _
                  (createItemHashTable_key preRaidGear) Hgear) as (Hid & Ht & _).
    split; [|split; assumption].
    apply list_elem_of_omap. exists insuredItem. split; assumption.
Qed.

End resolver.

(** ** Running the monad *)

Section running.

Lemma bind_Returned {A B} (m : M A) (k : A -> M B) (w w' : World) (a : A) :
  m w = (Returned a, w') -> bind m k w = k a w'.
Proof. intros H. unfold bind. rewrite H. reflexivity. Qed.

Lemma bind_TypeError {A B} (m : M A) (k : A -> M B) (w w' : World) :
  m w = (TypeError, w') -> bind m k w = (TypeError, w').
Proof. intros H. unfold bind. rewrite H. reflexivity. Qed.

Lemma insuranceTraderArrayExists_run sessionId traderId w o :
  insured w !! sessionId = Some o ->
  insuranceTraderArrayExists sessionId traderId w
  = (Returned (bool_decide (is_Some (prop_get traderId o))), w).
Proof. intros H. unfold insuranceTraderArrayExists, bind, gets. rewrite H. reflexivity. Qed.

Lemma resetInsuranceTraderArray_run sessionId traderId w o :
  insured w !! sessionId = Some o ->
  resetInsuranceTraderArray sessionId traderId w
  = (Returned tt, set_insured (fun r => <[sessionId := prop_set traderId [] o]> r) w).
Proof. intros H. unfold resetInsuranceTraderArray, bind, gets. rewrite H. reflexivity. Qed.

Lemma addInsuranceItemToArray_run sessionId traderId item w o arr :
  insured w !! sessionId = Some o ->
  prop_get traderId o = Some arr ->
  addInsuranceItemToArray sessionId traderId item w
  = (Returned tt,
     set_insured (fun r => <[sessionId := prop_set traderId (arr ++ [item]) o]> r) w).
Proof.
  intros H Ha. unfold addInsuranceItemToArray, bind, gets. rewrite H. simpl.
  rewrite Ha. reflexivity.
Qed.

Lemma removeLocationProperty_run sessionId traderId w o insuredItems :
  insured w !! sessionId = Some o ->
  prop_get traderId o = Some insuredItems ->
  removeLocationProperty sessionId traderId w
  = (Returned tt,
     set_insured (fun r =>
       <[sessionId := prop_set traderId (removeLocationLoop insuredItems) o]> r) w).
Proof.
  intros Ho Hb. unfold removeLocationProperty, bind, getInsurance, gets, defined.
  rewrite Ho. unfold ret at 1. rewrite Hb. reflexivity.
Qed.

End running.

(** ** The dispatcher: registering the lost gear *)

Section dispatcher.

Variable insuranceConfig : IInsuranceConfig.

Lemma prop_set_set {V} (k : string) (v v' : V) (o : list (string * V)) :
  prop_set k v (prop_set k v' o) = prop_set k v o.
Proof.
  induction o as [|[k' x] o IH]; simpl.
  - rewrite decide_True; reflexivity.
  - destruct (decide (k' = k)) as [->|Hne]; simpl.
    + rewrite decide_True; reflexivity.
    + rewrite decide_False by exact Hne. f_equal. exact IH.
Qed.

Lemma registerItem_steps (sessionId traderId : string) (item : Item)
    (r : gmap string (list (string * list Item))) :
  registerItem sessionId traderId item r =
  match r !! sessionId with
  | Some o =>
      match prop_get traderId o with
      | Some arr => <[sessionId := prop_set traderId (arr ++ [item]) o]> r
      | None =>
          <[sessionId := prop_set traderId ([] ++ [item]) (prop_set traderId [] o)]>
            (<[sessionId := prop_set traderId [] o]> r)
      end
  | None =>
      <[sessionId := prop_set traderId ([] ++ [item]) (prop_set traderId [] [])]>
        (<[sessionId := prop_set traderId [] []]> (<[sessionId := []]> r))
  end.
Proof.
  unfold registerItem.
  destruct (r !! sessionId) as [o|]; simpl.
  - destruct (prop_get traderId o) as [arr|]; simpl; [reflexivity|].
    rewrite insert_insert_eq, prop_set_set. reflexivity.
  - rewrite !insert_insert_eq. rewrite decide_True by reflexivity. reflexivity.
Qed.

Lemma addGearToSend_run (gear : Gear) (profile : IPmcData) (w : World) :
  profiles w !! gearPmcData gear = Some profile ->
  addGearToSend gear w =
  (Returned tt,
   set_profiles (fun h =>
     <[gearPmcData gear := set_InsuredItems
        (filter (fun item => itemId item <> _id (itemToReturnToPlayer gear))
                (InsuredItems profile)) profile]> h)
     (set_insured (registerItem (gearSessionID gear) (gearTraderId gear)
                                (itemToReturnToPlayer gear)) w)).
Proof.
  intros Hp. unfold addGearToSend.
  erewrite bind_Returned by reflexivity.
  pose proof (registerItem_steps (gearSessionID gear) (gearTraderId gear)
                (itemToReturnToPlayer gear) (insured w)) as Hreg.
  destruct (insured w !! gearSessionID gear) as [o|] eqn:Ho.
  - rewrite bool_decide_eq_true_2 by eauto. simpl.
    erewrite bind_Returned by reflexivity.
    erewrite bind_Returned by (apply insuranceTraderArrayExists_run; exact Ho).
    destruct (prop_get (gearTraderId gear) o) as [arr|] eqn:Ha.
    + rewrite bool_decide_eq_true_2 by eauto. simpl.
      erewrite bind_Returned by reflexivity.
      erewrite bind_Returned by (apply addInsuranceItemToArray_run; eassumption).
      erewrite bind_Returned by reflexivity. simpl. rewrite Hp. simpl.
      unfold modify, set_profiles, set_insured. simpl. rewrite Hreg. reflexivity.
    + rewrite bool_decide_eq_false_2 by (intros [? ?]; discriminate). simpl.
      erewrite bind_Returned by (apply resetInsuranceTraderArray_run; exact Ho).
      erewrite bind_Returned by
        (apply addInsuranceItemToArray_run;
         [simpl; apply lookup_insert_eq | apply prop_get_set]).
      erewrite bind_Returned by reflexivity. simpl. rewrite Hp. simpl.
      unfold modify, set_profiles, set_insured. simpl. rewrite Hreg. reflexivity.
  - rewrite bool_decide_eq_false_2 by (intros [? ?]; discriminate). simpl.
    erewrite bind_Returned by reflexivity.
    erewrite bind_Returned by
      (apply insuranceTraderArrayExists_run; simpl; apply lookup_insert_eq).
    simpl.
    erewrite bind_Returned by
      (apply resetInsuranceTraderArray_run; simpl; apply lookup_insert_eq).
    erewrite bind_Returned by
      (apply addInsuranceItemToArray_run;
       [simpl; apply lookup_insert_eq | exact (prop_get_set (gearTraderId gear) [] [])]).
    erewrite bind_Returned by reflexivity. simpl. rewrite Hp. simpl.
    unfold modify, set_profiles, set_insured. simpl. rewrite Hreg. reflexivity.
Qed.

Lemma filter_not_in_nil (l : list InsuredItem) :
  filter (fun e => itemId e ∉ @nil string) l = l.
Proof.
  induction l as [|a l IH]; [reflexivity|].
  rewrite filter_cons_True by apply not_elem_of_nil. f_equal. exact IH.
Qed.

Lemma filter_ext_elem {A} (P1 P2 : A -> Prop)
    `{!forall x, Decision (P1 x), !forall x, Decision (P2 x)} (l : list A) :
  (forall x, x ∈ l -> P1 x <-> P2 x) -> filter P1 l = filter P2 l.
Proof.
  induction l as [|a l IH]; intros Hall; [reflexivity|].
  assert (Ha : P1 a <-> P2 a) by (apply Hall; left).
  assert (Hl : filter P1 l = filter P2 l)
    by (apply IH; intros x Hx; apply Hall; right; exact Hx).
  destruct (decide (P1 a)) as [H1|H1].
  - rewrite !filter_cons_True by tauto. f_equal. exact Hl.
  - rewrite !filter_cons_False by tauto. exact Hl.
Qed.

(** The second loop of [storeLostGear], on gear that shares one profile. *)
Lemma forEach_addGearToSend (pmcData : ref) (gs : list Gear) :
  forall (profile : IPmcData) (w : World),
    (forall g, g ∈ gs -> gearPmcData g = pmcData) ->
    profiles w !! pmcData = Some profile ->
    exists (w' : World) (profile' : IPmcData),
      forEach addGearToSend gs w = (Returned tt, w')
      /\ profiles w' !! pmcData = Some profile'
      /\ InsuredItems profile' =
           filter (fun e => itemId e ∉ (fun g => _id (itemToReturnToPlayer g)) <$> gs)
                  (InsuredItems profile)
      /\ Inventory profile' = Inventory profile
      /\ Bonuses profile' = Bonuses profile
      /\ insured w' =
           foldl (fun r g => registerItem (gearSessionID g) (gearTraderId g)
                               (itemToReturnToPlayer g) r) (insured w) gs
      /\ logged w' = logged w /\ draws w' = draws w
      /\ dialogueMessages w' = dialogueMessages w /\ npcMails w' = npcMails w
      /\ profileInsurance w' = profileInsurance w.
Proof.
  induction gs as [|g gs IH]; intros profile w Hall Hp.
  - exists w, profile. simpl. rewrite filter_not_in_nil. repeat split; assumption.
  - assert (Hg : gearPmcData g = pmcData) by (apply Hall; left).
    simpl. erewrite bind_Returned by (apply addGearToSend_run; rewrite Hg; exact Hp).
    rewrite Hg.
    match goal with
    | |- context [forEach addGearToSend gs ?w1] =>
        destruct (IH (set_InsuredItems
                        (filter (fun item => itemId item <> _id (itemToReturnToPlayer g))
                                (InsuredItems profile)) profile) w1)
          as (w' & profile' & Hrun & Hp' & Hins & Hinv & Hbon & Hreg & Hrest)
    end.
    { intros g' Hg'. apply Hall. right. exact Hg'. }
    { simpl. apply lookup_insert_eq. }
    exists w', profile'. split; [exact Hrun|]. split; [exact Hp'|].
    split.
    { rewrite Hins. simpl. rewrite list_filter_filter. apply list_filter_iff.
      intros e. rewrite not_elem_of_cons. tauto. }
    split; [exact Hinv|]. split; [exact Hbon|].
    split; [exact Hreg|]. exact Hrest.
Qed.

Lemma bucketOf_registerItem r sessionId t item traderId :
  bucketOf (registerItem sessionId t item r) sessionId traderId
  = bucketOf r sessionId traderId ++ (if decide (t = traderId) then [item] else []).
Proof.
  unfold bucketOf, registerItem. rewrite lookup_insert_eq. simpl.
  destruct (decide (t = traderId)) as [->|Hne].
  - rewrite prop_get_set. simpl. destruct (r !! sessionId); reflexivity.
  - rewrite prop_get_set_ne by congruence. rewrite app_nil_r.
    destruct (r !! sessionId); reflexivity.
Qed.

Lemma bucketOf_foldl (gs : list Gear) (sessionId traderId : string) :
  forall r,
    (forall g, g ∈ gs -> gearSessionID g = sessionId) ->
    bucketOf (foldl (fun r g => registerItem (gearSessionID g) (gearTraderId g)
                                  (itemToReturnToPlayer g) r) r gs) sessionId traderId
    = bucketOf r sessionId traderId
      ++ (itemToReturnToPlayer <$> filter (fun g => gearTraderId g = traderId) gs).
Proof.
  induction gs as [|g gs IH]; intros r Hall; simpl.
  - rewrite app_nil_r. reflexivity.
  - rewrite IH by (intros g' Hg'; apply Hall; right; exact Hg').
    rewrite (Hall g) by left. rewrite bucketOf_registerItem, <- app_assoc. f_equal.
    destruct (decide (gearTraderId g = traderId)) as [Ht|Ht].
    + rewrite filter_cons_True by exact Ht. reflexivity.
    + rewrite filter_cons_False by exact Ht. reflexivity.
Qed.

(** C2. [storeLostGear] returns; afterwards the profile's [InsuredItems]
    holds no entry with the id of an item that was handed to
    [addGearToSend]: it is the former list without the entries that gave a
    candidate, in the same order, and each candidate's item has been pushed
    once on the registry array of its trader. *)
Theorem storeLostGear_consumes_references
    (pmcData : ref) (profile : IPmcData) (offraidData : ISaveProgressRequestData)
    (preRaidGear : list Item) (sessionID : string) (playerDied : bool) (w : World) :
  profiles w !! pmcData = Some profile ->
  let candidates :=
    equipmentToSendToPlayer insuranceConfig pmcData profile offraidData preRaidGear
      sessionID playerDied in
  exists (w' : World) (profile' : IPmcData),
    storeLostGear insuranceConfig pmcData offraidData preRaidGear sessionID playerDied w
      = (Returned tt, w')
    /\ profiles w' !! pmcData = Some profile'
    /\ (forall gear e, gear ∈ candidates -> e ∈ InsuredItems profile' ->
          itemId e <> _id (itemToReturnToPlayer gear))
    /\ InsuredItems profile' =
         filter (fun e => ~ is_Some
                   (lostGearCandidate insuranceConfig pmcData profile offraidData
                      (createItemHashTable preRaidGear)
                      (createItemHashTable (profile_Inventory_items offraidData))
                      sessionID playerDied e))
                (InsuredItems profile)
    /\ (forall traderId,
          bucketOf (insured w') sessionID traderId
          = bucketOf (insured w) sessionID traderId
            ++ (itemToReturnToPlayer <$>
                  filter (fun g => gearTraderId g = traderId) candidates)).
Proof.
  intros Hprof candidates.
  assert (Hgear : forall g, g ∈ candidates ->
            exists e, e ∈ InsuredItems profile
              /\ lostGearCandidate insuranceConfig pmcData profile offraidData
                   (createItemHashTable preRaidGear)
                   (createItemHashTable (profile_Inventory_items offraidData))
                   sessionID playerDied e = Some g
              /\ _id (itemToReturnToPlayer g) = itemId e
              /\ gearPmcData g = pmcData /\ gearSessionID g = sessionID).
  { intros g Hg. apply list_elem_of_omap in Hg as (e & He & Hc).
    exists e. split; [exact He|]. split; [exact Hc|].
    pose proof (lostGearCandidate_gear _ _ _ _ _ _ _ _ _ _
                  (createItemHashTable_key preRaidGear) Hc) as (H1 & _ & H3 & H4).
    repeat split; assumption. }
  destruct (forEach_addGearToSend pmcData candidates profile w)
    as (w' & profile' & Hrun & Hp' & Hins & _ & _ & Hreg & _).
  { intros g Hg. destruct (Hgear g Hg) as (e & _ & _ & _ & H & _). exact H. }
  { exact Hprof. }
  exists w', profile'.
  split.
  { unfold storeLostGear, bind, gets, defined. rewrite Hprof. exact Hrun. }
  split; [exact Hp'|].
  split.
  { intros gear e Hg He. rewrite Hins in He.
    apply list_elem_of_filter in He as [Hnot _].
    intros Heq. apply Hnot. apply list_elem_of_fmap. exists gear. split; assumption. }
  split.
  { rewrite Hins. apply filter_ext_elem. intros e He. split.
    - intros Hnot [g Hc]. apply Hnot. apply list_elem_of_fmap. exists g. split.
      + pose proof (lostGearCandidate_gear _ _ _ _ _ _ _ _ _ _
                      (createItemHashTable_key preRaidGear) Hc) as (H1 & _). congruence.
      + apply list_elem_of_omap. exists e. split; assumption.
    - intros Hnone Hin. apply Hnone.
      apply list_elem_of_fmap in Hin as (g & Hid & Hg).
      destruct (Hgear g Hg) as (e' & _ & Hc & Hid' & _).
      apply lostGearCandidate_Some_iff.
      assert (Hs : is_Some (lostGearCandidate insuranceConfig pmcData profile offraidData
                    (createItemHashTable preRaidGear)
                    (createItemHashTable (profile_Inventory_items offraidData))
                    sessionID playerDied e')) by (rewrite Hc; eauto).
      apply lostGearCandidate_Some_iff in Hs.
      replace (itemId e) with (itemId e') by congruence. exact Hs. }
  intros traderId. rewrite Hreg. apply bucketOf_foldl.
  intros g Hg. destruct (Hgear g Hg) as (e & _ & _ & _ & _ & H). exact H.
Qed.

End dispatcher.

(** ** The dispatcher: sending the registered gear *)

Section sending.

Variable ext : Collaborators.
Variable insuranceConfig : IInsuranceConfig.

Lemma nothing_appended {A} (P : A -> Prop) (l : list A) :
  exists extra, l = l ++ extra /\ Forall P extra.
Proof. exists []. rewrite app_nil_r. split; [reflexivity|constructor]. Qed.

Lemma one_appended {A} (P : A -> Prop) (l : list A) (x : A) :
  P x -> exists extra, l ++ [x] = l ++ extra /\ Forall P extra.
Proof. intros H. exists [x]. split; [reflexivity|]. repeat constructor. exact H. Qed.

Lemma same_bucket (sessionID t : string) (r : gmap string (list (string * list Item))) :
  forall o, r !! sessionID = Some o ->
    exists o1, r !! sessionID = Some o1 /\ prop_get t o1 = prop_get t o.
Proof. intros o Ho. exists o. split; [exact Ho|reflexivity]. Qed.

Lemma undisturbed_refl sessionID traderId w : undisturbed sessionID traderId w w.
Proof.
  split; [apply same_bucket|]. repeat split; apply nothing_appended.
Qed.

Lemma undisturbed_trans sessionID traderId w1 w2 w3 :
  undisturbed sessionID traderId w1 w2 ->
  undisturbed sessionID traderId w2 w3 ->
  undisturbed sessionID traderId w1 w3.
Proof.
  intros (Hi & (e1 & He1 & Hd1) & (d1 & Hm1 & Hf1) & (r1 & Hr1 & Hg1))
         (Hi' & (e2 & He2 & Hd2) & (d2 & Hm2 & Hf2) & (r2 & Hr2 & Hg2)).
  repeat split.
  - intros o Ho. destruct (Hi o Ho) as (o1 & Ho1 & Hget).
    destruct (Hi' o1 Ho1) as (o2 & Ho2 & Hget').
    exists o2. split; [exact Ho2|congruence].
  - exists (e1 ++ e2). rewrite He2, He1, app_assoc. split; [reflexivity|].
    apply Forall_app. split; assumption.
  - exists (d1 ++ d2). rewrite Hm2, Hm1, app_assoc. split; [reflexivity|].
    apply Forall_app. split; assumption.
  - exists (r1 ++ r2). rewrite Hr2, Hr1, app_assoc. split; [reflexivity|].
    apply Forall_app. split; assumption.
Qed.

(** The timestamp is always computed; it may log a debug line or draw. *)
Lemma getInsuranceReturnTimestamp_run pmcData trader w :
  exists ts w1,
    getInsuranceReturnTimestamp ext insuranceConfig pmcData trader w = (Returned ts, w1)
    /\ insured w1 = insured w
    /\ dialogueMessages w1 = dialogueMessages w
    /\ profileInsurance w1 = profileInsurance w
    /\ exists extra, logged w1 = logged w ++ extra /\ Forall isDebug extra.
Proof.
  unfold getInsuranceReturnTimestamp.
  destruct (Qlt_le_dec 0 (returnTimeOverrideSeconds insuranceConfig)).
  - eexists _, _. split; [reflexivity|]. simpl. repeat split.
    eexists. split; [reflexivity|]. repeat constructor. eexists _, _. reflexivity.
  - eexists _, _. split; [reflexivity|]. simpl. repeat split.
    exists []. rewrite app_nil_r. split; [reflexivity|constructor].
Qed.

Ltac world_simpl :=
  cbn [insured profiles logged draws dialogueMessages npcMails profileInsurance
       add_dialogue next_draw set_insured set_profileInsurance add_log set_profiles
       add_mail].

Section frame.

Variables sessionID t : string.

Lemma preserves_ret {A} (a : A) : preserves sessionID t (ret a).
Proof. intros w. apply undisturbed_refl. Qed.

Lemma preserves_throw {A} : preserves sessionID t (@throw A).
Proof. intros w. apply undisturbed_refl. Qed.

Lemma preserves_gets {A} (f : World -> A) : preserves sessionID t (gets f).
Proof. intros w. apply undisturbed_refl. Qed.

Lemma preserves_defined {A} (x : option A) : preserves sessionID t (defined x).
Proof. destruct x; [apply preserves_ret | apply preserves_throw]. Qed.

Lemma preserves_modify (f : World -> World) :
  (forall w, undisturbed sessionID t w (f w)) -> preserves sessionID t (modify f).
Proof. intros H w. apply H. Qed.

Lemma preserves_bind {A B} (m : M A) (k : A -> M B) :
  preserves sessionID t m -> (forall a, preserves sessionID t (k a)) ->
  preserves sessionID t (bind m k).
Proof.
  intros Hm Hk w. unfold bind. specialize (Hm w).
  destruct (m w) as [[a|] w1]; simpl in *.
  - eapply undisturbed_trans; [exact Hm | apply Hk].
  - exact Hm.
Qed.

Lemma preserves_forEach {A} (body : A -> M unit) (xs : list A) :
  (forall x, x ∈ xs -> preserves sessionID t (body x)) ->
  preserves sessionID t (forEach body xs).
Proof.
  induction xs as [|x xs IH]; intros H; simpl.
  - apply preserves_ret.
  - apply preserves_bind; [apply H; left|].
    intros _. apply IH. intros y Hy. apply H. right. exact Hy.
Qed.

Lemma preserves_draw : preserves sessionID t draw.
Proof.
  unfold draw. apply preserves_bind; [apply preserves_gets|]. intros n.
  apply preserves_bind; [|intros; apply preserves_ret].
  apply preserves_modify. intros w. unfold undisturbed. world_simpl.
  split; [apply same_bucket|]. repeat split; apply nothing_appended.
Qed.

Lemma preserves_getInsuranceReturnTimestamp pmcData trader :
  preserves sessionID t (getInsuranceReturnTimestamp ext insuranceConfig pmcData trader).
Proof.
  intros w.
  destruct (getInsuranceReturnTimestamp_run pmcData trader w)
    as (ts & w1 & -> & Hi & Hd & Hp & Hl). simpl.
  repeat split.
  - intros o Ho. exists o. rewrite Hi. split; [exact Ho|reflexivity].
  - exact Hl.
  - exists []. rewrite app_nil_r. split; [exact Hd|constructor].
  - exists []. rewrite app_nil_r, Hp. split; [reflexivity|constructor].
Qed.

Lemma preserves_removeLocationProperty k :
  k <> t -> preserves sessionID t (removeLocationProperty sessionID k).
Proof.
  intros Hk w. unfold removeLocationProperty, bind, getInsurance, gets, defined.
  destruct (insured w !! sessionID) as [o|] eqn:Ho; [|apply undisturbed_refl].
  unfold ret at 1.
  destruct (prop_get k o) as [its|]; [|apply undisturbed_refl].
  unfold ret, modify. simpl.
  repeat split; simpl.
  - intros o0 Ho0. rewrite lookup_insert_eq. eexists. split; [reflexivity|].
    rewrite prop_get_set_ne by congruence. congruence.
  - exists []. rewrite app_nil_r. split; [reflexivity|constructor].
  - exists []. rewrite app_nil_r. split; [reflexivity|constructor].
  - exists []. rewrite app_nil_r. split; [reflexivity|constructor].
Qed.

Lemma preserves_sendInsuredItemsFor pmcData mapId k :
  k <> t -> preserves sessionID t (sendInsuredItemsFor ext insuranceConfig pmcData sessionID mapId k).
Proof.
  intros Hk. unfold sendInsuredItemsFor.
  apply preserves_bind; [apply preserves_getInsuranceReturnTimestamp|]. intros ts.
  apply preserves_bind; [apply preserves_defined|]. intros trader.
  apply preserves_bind; [apply preserves_defined|]. intros d.
  apply preserves_bind; [apply preserves_draw|]. intros n.
  apply preserves_bind.
  { apply preserves_modify. intros w. unfold undisturbed. world_simpl.
    split; [apply same_bucket|]. split; [apply nothing_appended|].
    split; [|apply nothing_appended].
    apply (one_appended (fun d => d.1.1 <> t)). exact Hk. }
  intros _.
  apply preserves_bind; [apply preserves_removeLocationProperty; exact Hk|]. intros _.
  apply preserves_bind; [apply preserves_draw|]. intros n'.
  apply preserves_bind; [apply preserves_gets|]. intros b.
  apply preserves_bind; [apply preserves_defined|]. intros o.
  apply preserves_modify. intros w. unfold undisturbed. world_simpl.
  split; [apply same_bucket|]. split; [apply nothing_appended|].
  split; [apply nothing_appended|].
  rewrite lookup_insert_eq.
  apply (one_appended (fun r => insTraderId r <> t)). exact Hk.
Qed.

(** At a trader without dialogue templates the turn of the loop throws
    before it has composed or stored anything. *)
Lemma sendInsuredItemsFor_throws pmcData mapId w :
  traders ext !! t ≫= dialogue = None ->
  exists w1,
    sendInsuredItemsFor ext insuranceConfig pmcData sessionID mapId t w = (TypeError, w1)
    /\ undisturbed sessionID t w w1.
Proof.
  intros Hmiss. unfold sendInsuredItemsFor.
  pose proof (preserves_getInsuranceReturnTimestamp pmcData (getTrader ext t sessionID) w)
    as Hpres.
  destruct (getInsuranceReturnTimestamp_run pmcData (getTrader ext t sessionID) w)
    as (ts & w1 & Hrun & _).
  rewrite Hrun in Hpres. simpl in Hpres.
  exists w1. split; [|exact Hpres].
  erewrite bind_Returned by exact Hrun.
  destruct (traders ext !! t) as [trader|]; simpl in Hmiss.
  - erewrite bind_Returned by reflexivity. rewrite Hmiss. reflexivity.
  - reflexivity.
Qed.

Lemma forEach_throws pmcData mapId (ks : list string) :
  traders ext !! t ≫= dialogue = None ->
  t ∈ ks ->
  forall w, exists w',
    forEach (sendInsuredItemsFor ext insuranceConfig pmcData sessionID mapId) ks w
      = (TypeError, w')
    /\ undisturbed sessionID t w w'.
Proof.
  intros Hmiss. induction ks as [|k ks IH]; intros Hin w.
  - apply elem_of_nil in Hin. contradiction.
  - simpl. destruct (decide (k = t)) as [->|Hk].
    + destruct (sendInsuredItemsFor_throws pmcData mapId w Hmiss) as (w1 & Hrun & Hu).
      exists w1. split; [|exact Hu]. apply bind_TypeError. exact Hrun.
    + pose proof (preserves_sendInsuredItemsFor pmcData mapId k Hk w) as Hu.
      destruct (sendInsuredItemsFor ext insuranceConfig pmcData sessionID mapId k w)
        as [[[]|] w1] eqn:Hrun; simpl in Hu.
      * apply elem_of_cons in Hin as [Heq|Hin]; [congruence|].
        destruct (IH Hin w1) as (w' & Hrun' & Hu').
        exists w'. split.
        -- erewrite bind_Returned by exact Hrun. exact Hrun'.
        -- eapply undisturbed_trans; eassumption.
      * exists w1. split; [|exact Hu]. apply bind_TypeError. exact Hrun.
Qed.

End frame.

(** With the trader and its dialogue templates in the database, a turn of
    the loop of [sendInsuredItems] returns, and the record it appends to the
    profile's [insurance] array holds the trader's array as the pass of
    [removeLocationProperty] has left it. *)
Lemma sendInsuredItemsFor_stores_pass pmcData sessionID mapId traderId w o insuredItems
    trader d :
  insured w !! sessionID = Some o ->
  prop_get traderId o = Some insuredItems ->
  traders ext !! traderId = Some trader ->
  dialogue trader = Some d ->
  exists w' ts content,
    sendInsuredItemsFor ext insuranceConfig pmcData sessionID mapId traderId w
      = (Returned tt, w')
    /\ insured w' !! sessionID
       = Some (prop_set traderId (removeLocationLoop insuredItems) o)
    /\ default [] (profileInsurance w' !! sessionID)
       = default [] (profileInsurance w !! sessionID)
         ++ [ {| scheduledTime := ts; insTraderId := traderId;
                 messageContent := content;
                 items := removeLocationLoop insuredItems |} ]
    /\ type content = INSURANCE_RETURN.
Proof.
  intros Ho Hb Htr Hd. unfold sendInsuredItemsFor.
  destruct (getInsuranceReturnTimestamp_run pmcData (getTrader ext traderId sessionID) w)
    as (ts & w1 & Hrun & Hi & _ & Hp & _).
  erewrite bind_Returned by exact Hrun.
  rewrite Htr. erewrite bind_Returned by reflexivity.
  rewrite Hd. erewrite bind_Returned by reflexivity.
  erewrite bind_Returned by reflexivity.
  erewrite bind_Returned by reflexivity.
  erewrite bind_Returned
    by (apply (removeLocationProperty_run sessionID traderId _ o insuredItems);
        [world_simpl; rewrite Hi; exact Ho | exact Hb]).
  erewrite bind_Returned by reflexivity.
  erewrite bind_Returned by reflexivity.
  world_simpl. rewrite lookup_insert_eq.
  erewrite bind_Returned by reflexivity.
  eexists _, ts, _. split; [reflexivity|].
  world_simpl. rewrite !lookup_insert_eq, prop_get_set, Hp.
  split; [reflexivity|]. split; reflexivity.
Qed.

Lemma prop_get_keys {V} (k : string) (v : V) (o : list (string * V)) :
  prop_get k o = Some v -> k ∈ prop_keys o.
Proof.
  unfold prop_keys. induction o as [|[k' v'] o IH]; simpl; [discriminate|].
  destruct (decide (k' = k)) as [->|Hne]; intros H.
  - left.
  - right. apply IH. exact H.
Qed.

(** C8, amended. When the registry holds an array for a trader whose
    dialogue templates are missing from the database, [sendInsuredItems]
    throws a [TypeError]: it logs no error (debug lines at most), hands over
    no dialogue message and no insurance record for that trader, and does
    not clear the registry, where the trader's array still holds its
    items. *)
Theorem sendInsuredItems_missing_dialogue
    (pmcData : IPmcData) (sessionID mapId traderId : string) (w : World)
    (o : list (string * list Item)) (insuredItems : list Item) :
  insured w !! sessionID = Some o ->
  prop_get traderId o = Some insuredItems ->
  traders ext !! traderId ≫= dialogue = None ->
  exists w' : World,
    sendInsuredItems ext insuranceConfig pmcData sessionID mapId w = (TypeError, w')
    /\ (exists o', insured w' !! sessionID = Some o'
                   /\ prop_get traderId o' = Some insuredItems)
    /\ (exists extra, logged w' = logged w ++ extra /\ Forall isDebug extra)
    /\ (exists ds, dialogueMessages w' = dialogueMessages w ++ ds
                   /\ Forall (fun d => d.1.1 <> traderId) ds)
    /\ (exists rs, default [] (profileInsurance w' !! sessionID)
                   = default [] (profileInsurance w !! sessionID) ++ rs
                   /\ Forall (fun r => insTraderId r <> traderId) rs).
Proof.
  intros Ho Hget Hmiss.
  destruct (forEach_throws sessionID traderId pmcData mapId (prop_keys o) Hmiss
              (prop_get_keys _ _ _ Hget) w) as (w' & Hrun & Hi & Hl & Hd & Hr).
  exists w'. split.
  { unfold sendInsuredItems. erewrite bind_Returned by reflexivity.
    simpl. rewrite Ho. apply bind_TypeError. exact Hrun. }
  split.
  { destruct (Hi o Ho) as (o' & Ho' & Hg). exists o'. split; [exact Ho'|congruence]. }
  split; [exact Hl|]. split; [exact Hd|exact Hr].
Qed.

End sending.

(** ** The claims on the scenario *)

Import Scenario.

Lemma storeLostGear_candidate_iff_witness :
  storeLostGear (config ∅ 0) 1%positive offraid0 [itemA] "s" false (world ∅)
    = forEach addGearToSend
        (equipmentToSendToPlayer (config ∅ 0) 1%positive profile0 offraid0 [itemA] "s" false)
        (world ∅)
  /\ ((exists gear,
         gear ∈ equipmentToSendToPlayer (config ∅ 0) 1%positive profile0 offraid0
                  [itemA] "s" false
         /\ _id (itemToReturnToPlayer gear) = "A" /\ gearTraderId gear = "X")
      <->
      (exists preRaidItem,
         createItemHashTable [itemA] !! "A" = Some preRaidItem
         /\ (forall s, slotId preRaidItem = Some s ->
               s ∉ blacklistedEquipment (config ∅ 0))
         /\ (createItemHashTable [] !! "A" = None \/ false = true))).
Proof.
  apply (storeLostGear_candidate_iff (config ∅ 0) 1%positive profile0 offraid0 [itemA]
           "s" false (world ∅) {| tid := "X"; itemId := "A" |}).
  - reflexivity.
  - left.
Defined.

Lemma storeLostGear_consumes_references_witness :
  exists (w' : World) (profile' : IPmcData),
    storeLostGear (config ∅ 0) 1%positive offraid0 [itemA] "s" false (world ∅)
      = (Returned tt, w')
    /\ profiles w' !! 1%positive = Some profile'
    /\ InsuredItems profile' = []
    /\ bucketOf (insured w') "s" "X"
       = [getInsuredItemDetails profile0 itemA None].
Proof.
  destruct (storeLostGear_consumes_references (config ∅ 0) 1%positive profile0 offraid0
              [itemA] "s" false (world ∅) eq_refl)
    as (w' & profile' & Hrun & Hp & _ & Hfilter & Hbucket).
  exists w', profile'. split; [exact Hrun|]. split; [exact Hp|]. split.
  - rewrite Hfilter. vm_compute. reflexivity.
  - rewrite (Hbucket "X"). vm_compute. reflexivity.
Defined.

Lemma getInsuranceReturnTimestamp_override_witness :
  (0 < 60)%Q
  /\ (getInsuranceReturnTimestamp (collaborators 10) (config ∅ 60) profile0 trader0
        (world ∅)).1 = Returned (1000 + 60)%Q
  /\ draws (getInsuranceReturnTimestamp (collaborators 10) (config ∅ 60) profile0 trader0
              (world ∅)).2 = 0.
Proof.
  split; [reflexivity|].
  apply (getInsuranceReturnTimestamp_override (collaborators 10) (config ∅ 60) profile0
           trader0 (world ∅) 60); reflexivity.
Defined.

Lemma getInsuranceReturnTimestamp_bounds_witness :
  exists t : Q,
    (getInsuranceReturnTimestamp (collaborators 10) (config ∅ 0) profile0 trader0
       (world ∅)).1 = Returned t
    /\ (1000 + 24 * 3600 <= t)%Q /\ (t <= 1000 + 36 * 3600)%Q.
Proof.
  apply (getInsuranceReturnTimestamp_bounds (collaborators 10) (config ∅ 0) profile0
           trader0 (world ∅)).
  - reflexivity.
  - exact I.
  - unfold Qle. simpl. lia.
  - unfold Qle. simpl. lia.
Defined.

Lemma getPremium_price_witness :
  Double.getPremium (collaborators 10) (config {[ "X" := Double.binary64 (3 # 10) ]} 0)
    profile0 itemA "X" (world ∅)
    = (Returned (Math_round (Double.mul (Double.mul 1000 (Double.binary64 (3 # 10)))
                                        (Double.sub 1 (Double.div 10 100)))), world ∅)
  /\ Double.getPremium (collaborators 0) (config {[ "X" := Double.binary64 (3 # 10) ]} 0)
       profile0 itemA "X" (world ∅)
    = (Returned (Math_round (Double.mul 1000 (Double.binary64 (3 # 10)))), world ∅)
  /\ Double.getPremium (collaborators 10) (config ∅ 0) profile0 itemA "X" (world ∅)
    = (Returned (Math_round (Double.mul (Double.mul 1000 (Double.binary64 (3 # 10)))
                                        (Double.sub 1 (Double.div 10 100)))),
       add_log (LogWarning "insurance-missing_insurance_price_multiplier") (world ∅))
  /\ Double.getPremium (collaborators 0) (config {[ "X" := 0%Q ]} 0) profile0 itemA "X"
       (world ∅)
    = (Returned (Math_round (Double.mul 1000 (Double.binary64 (3 # 10)))),
       add_log (LogWarning "insurance-missing_insurance_price_multiplier") (world ∅))
  /\ (Double.getPremium (collaborators 10) (config {[ "X" := Double.binary64 (3 # 10) ]} 0)
        profile0 itemA "X" (world ∅)).1 = Returned 270%Z
  /\ (Double.getPremium Examples.collaborators150
        (config {[ "X" := Double.binary64 (3 # 10) ]} 0) profile0 itemA "X" (world ∅)).1
     = Returned 31%Z.
Proof.
  assert (Hnz : ~ (Double.binary64 (3 # 10) == 0)%Q) by (vm_compute; discriminate).
  split; [|split; [|split; [|split; [|split]]]].
  - apply (proj1 (getPremium_price (collaborators 10)
                    (config {[ "X" := Double.binary64 (3 # 10) ]} 0)
                    profile0 itemA "X" (world ∅)) (Double.binary64 (3 # 10))).
    + reflexivity.
    + exact Hnz.
    + reflexivity.
  - apply (proj1 (proj2 (getPremium_price (collaborators 0)
                    (config {[ "X" := Double.binary64 (3 # 10) ]} 0)
                    profile0 itemA "X" (world ∅)))
             (Double.binary64 (3 # 10))).
    + reflexivity.
    + exact Hnz.
    + discriminate.
  - apply (proj1 (proj2 (proj2 (getPremium_price (collaborators 10) (config ∅ 0)
                    profile0 itemA "X" (world ∅))))).
    + left. reflexivity.
    + reflexivity.
  - apply (proj1 (proj2 (proj2 (proj2 (getPremium_price (collaborators 0)
                    (config {[ "X" := 0%Q ]} 0) profile0 itemA "X" (world ∅)))))).
    + right. exists 0%Q. split; reflexivity.
    + discriminate.
  - apply (proj1 (proj2 (proj2 (proj2 (proj2 (getPremium_price (collaborators 10)
                    (config {[ "X" := Double.binary64 (3 # 10) ]} 0)
                    profile0 itemA "X" (world ∅))))))
             (Double.binary64 (3 # 10))); reflexivity.
  - apply (proj2 (proj2 (proj2 (proj2 (proj2 (getPremium_price Examples.collaborators150
                    (config {[ "X" := Double.binary64 (3 # 10) ]} 0)
                    profile0 itemA "X" (world ∅))))))
             (Double.binary64 (3 # 10))); reflexivity.
Defined.

(** C5, as stated, fails for a multiplier configured as 0: the premium is
    computed with 0.3 and is 270, not the rounded product with the
    configured multiplier, which is 0. *)
Lemma getPremium_zero_multiplier_counterexample :
  insuranceMultiplier (config {[ "X" := 0%Q ]} 0) !! "X" = Some 0%Q
  /\ (0 < insurance_price_coef (getLoyaltyLevel (collaborators 10) "X" profile0))%Q
  /\ (Double.getPremium (collaborators 10) (config {[ "X" := 0%Q ]} 0) profile0 itemA "X"
        (world ∅)).1 = Returned 270%Z
  /\ (Double.getPremium (collaborators 10) (config {[ "X" := 0%Q ]} 0) profile0 itemA "X"
        (world ∅)).1
     <> Returned (Math_round
          (Double.mul
             (Double.mul (getStaticItemPrice (collaborators 10) (_tpl itemA)) 0)
             (Double.sub 1
                (Double.div
                   (insurance_price_coef (getLoyaltyLevel (collaborators 10) "X" profile0))
                   100)))).
Proof.
  split; [reflexivity|]. split; [reflexivity|]. split; [vm_compute; reflexivity|].
  vm_compute. discriminate.
Qed.

Lemma sendLostInsuranceMessage_template_witness :
  exists mail : NpcMail,
    sendLostInsuranceMessage (collaborators 10) "s" (Some "Laboratory") (world ∅)
      = (Returned tt, add_mail mail (next_draw (world ∅)))
    /\ mailSessionId mail = "s"
    /\ mailTemplateId mail = "failedLabs".
Proof.
  destruct (sendLostInsuranceMessage_template (collaborators 10) "s" (Some "Laboratory")
              (world ∅) {| dialogue := Some dialogue0 |} dialogue0 eq_refl eq_refl)
    as (mail & Hrun & Hs & Ht).
  exists mail. split; [exact Hrun|]. split; [exact Hs|]. exact Ht.
Defined.

Lemma sendInsuredItems_missing_dialogue_witness :
  exists w' : World,
    sendInsuredItems (collaborators 10) (config ∅ 0) profile0 "s" "factory4_day"
      (world {[ "s" := [("X", [itemA])] ]}) = (TypeError, w')
    /\ (exists o', insured w' !! "s" = Some o' /\ prop_get "X" o' = Some [itemA])
    /\ (exists extra, logged w' = [] ++ extra /\ Forall isDebug extra)
    /\ (exists ds, dialogueMessages w' = [] ++ ds /\ Forall (fun d => d.1.1 <> "X") ds)
    /\ (exists rs, default [] (profileInsurance w' !! "s") = [] ++ rs
                   /\ Forall (fun r => insTraderId r <> "X") rs).
Proof.
  apply (sendInsuredItems_missing_dialogue (collaborators 10) (config ∅ 0) profile0
           "s" "factory4_day" "X" (world {[ "s" := [("X", [itemA])] ]})
           [("X", [itemA])] [itemA]); reflexivity.
Defined.

(** C8, as stated, fails: with no dialogue templates for trader X the call
    throws, nothing is logged and the registry still holds X's array. *)
Lemma sendInsuredItems_missing_dialogue_counterexample :
  traders (collaborators 10) !! "X" = Some {| dialogue := None |}
  /\ (sendInsuredItems (collaborators 10) (config ∅ 0) profile0 "s" "factory4_day"
        (world {[ "s" := [("X", [itemA])] ]})).1 = TypeError
  /\ logged (sendInsuredItems (collaborators 10) (config ∅ 0) profile0 "s" "factory4_day"
               (world {[ "s" := [("X", [itemA])] ]})).2 = []
  /\ insured (sendInsuredItems (collaborators 10) (config ∅ 0) profile0 "s" "factory4_day"
                (world {[ "s" := [("X", [itemA])] ]})).2 !! "s"
     = Some [("X", [itemA])].
Proof. repeat split; vm_compute; reflexivity. Qed.

Lemma registry_read_accessors_witness :
  getInsurance "s" (world {[ "s" := [("X", [itemA])] ]})
    = (Returned (Some [("X", [itemA])]), world {[ "s" := [("X", [itemA])] ]})
  /\ getInsuranceItems "s" "X" (world {[ "s" := [("X", [itemA])] ]})
    = (Returned (Some [itemA]), world {[ "s" := [("X", [itemA])] ]})
  /\ getInsuranceItems "s" "Y" (world {[ "s" := [("X", [itemA])] ]})
    = (Returned None, world {[ "s" := [("X", [itemA])] ]}).
Proof.
  split; [|split].
  - exact (proj1 (registry_read_accessors "s" "X" (world {[ "s" := [("X", [itemA])] ]}))).
  - apply (proj2 (registry_read_accessors "s" "X" (world {[ "s" := [("X", [itemA])] ]}))
             [("X", [itemA])]). reflexivity.
  - apply (proj2 (registry_read_accessors "s" "Y" (world {[ "s" := [("X", [itemA])] ]}))
             [("X", [itemA])]). reflexivity.
Defined.

(** C9, as stated, fails: without a registry entry for the session
    [getInsuranceItems] throws. *)
Lemma getInsuranceItems_no_entry_counterexample :
  insured (world ∅) !! "s" = None
  /\ (getInsuranceItems "s" "X" (world ∅)).1 = TypeError
  /\ ~ (forall (sessionId traderId : string) (w : World),
          exists v, (getInsuranceItems sessionId traderId w).1 = Returned v).
Proof.
  split; [reflexivity|]. split; [reflexivity|].
  intros H. destruct (H "s" "X" (world ∅)) as [v Hv]. discriminate Hv.
Qed.

Lemma removeLocationProperty_roots_witness :
  exists after : list Item,
    removeLocationProperty "s" "X" (world {[ "s" := [("X", [insideA; itemA])] ]})
      = (Returned tt,
         set_insured (fun r => <["s" := prop_set "X" after [("X", [insideA; itemA])]]> r)
           (world {[ "s" := [("X", [insideA; itemA])] ]}))
    /\ after = [insideA; set_location None (set_slotId (Some "hideout") itemA)].
Proof.
  assert (Hentry : insured (world {[ "s" := [("X", [insideA; itemA])] ]}) !! "s"
                   = Some [("X", [insideA; itemA])]) by reflexivity.
  assert (Hself : forall x, x ∈ [insideA; itemA] -> parentId x <> Some (_id x)).
  { intros x Hx. apply list_elem_of_In in Hx. simpl in Hx.
    destruct Hx as [<-|[<-|[]]]; discriminate. }
  destruct (removeLocationProperty_roots "s" "X"
              (world {[ "s" := [("X", [insideA; itemA])] ]})
              [("X", [insideA; itemA])] [insideA; itemA] Hentry eq_refl Hself)
    as (after & Hrun & _ & Hlen & Hitems).
  exists after. split; [exact Hrun|].
  destruct (Hitems 0 insideA eq_refl) as (b & Hb & _ & _ & _ & Hsame).
  destruct (Hitems 1 itemA eq_refl) as (a & Ha & Hid & Hpar & Horphan & _).
  destruct Hsame as (_ & _ & Hsame).
  { exists 1, itemA. split; [discriminate|]. split; reflexivity. }
  rewrite Hsame in Hb.
  destruct after as [|x [|y [|z after]]]; try discriminate Hlen.
  injection Hb as ->. injection Ha as ->.
  f_equal. f_equal.
  destruct Horphan as (Hs & Hl & Ht & Hu).
  { intros [|[|j]] x Hj Hx; [|contradiction|discriminate].
    injection Hx as <-. discriminate. }
  destruct a as [i tp p s l u]. simpl in *. subst. reflexivity.
Defined.

(** * Further properties of the service *)

(** ** The hash table of items *)

Section hash_table.

Lemma createItemHashTable_from_lookup (items : list Item) (k : string) :
  forall h : gmap string Item,
    foldl (fun hashTable item => <[_id item := item]> hashTable) h items !! k
    = match last (filter (fun it => _id it = k) items) with
      | Some it => Some it
      | None => h !! k
      end.
Proof.
  induction items as [|a items IH]; intros h; simpl; [reflexivity|].
  rewrite IH. destruct (decide (_id a = k)) as [Ha|Ha].
  - rewrite filter_cons_True by exact Ha. rewrite last_cons.
    destruct (last (filter _ items)); [reflexivity|].
    rewrite <- Ha. apply lookup_insert_eq.
  - rewrite filter_cons_False by exact Ha.
    destruct (last (filter _ items)); [reflexivity|].
    apply lookup_insert_ne. exact Ha.
Qed.

(** X1. The table built by [createItemHashTable] gives, for every id, the
    last item of the array that has this id, and nothing for an id no item
    has. *)
Theorem createItemHashTable_last_wins (items : list Item) (k : string) :
  createItemHashTable items !! k = last (filter (fun it => _id it = k) items).
Proof.
  unfold createItemHashTable. rewrite createItemHashTable_from_lookup.
  destruct (last _); [reflexivity|apply lookup_empty].
Qed.

End hash_table.

(** ** More on the return item normalizer *)

Section normalizer_more.

Lemma getInsuredItemDetails__tpl p i c : _tpl (getInsuredItemDetails p i c) = _tpl i.
Proof.
  unfold getInsuredItemDetails, updateSlotIdValue.
  repeat match goal with
         | |- context [if ?b then _ else _] => destruct b
         end; simpl; destruct (upd i); reflexivity.
Qed.

Lemma upd_updateSlotIdValue e i : upd (updateSlotIdValue e i) = upd i.
Proof.
  unfold updateSlotIdValue.
  repeat match goal with |- context [if ?b then _ else _] => destruct b end; reflexivity.
Qed.

(** The [upd] of the returned item, rule by rule. *)
Lemma getInsuredItemDetails_upd p i c :
  upd (getInsuredItemDetails p i c) =
  let u0 := default {| SpawnedInSession := None; updRepairable := None;
                       updFaceShield := None; updOther := [] |} (upd i) in
  let u1 := match SpawnedInSession u0 with
            | Some _ => set_SpawnedInSession (Some false) u0
            | None => u0
            end in
  let u2 := if truthy (c ≫= durability)
            then set_Repairable (Some {| Durability := c ≫= durability;
                                         MaxDurability := c ≫= maxDurability |}) u1
            else u1 in
  let u3 := if truthy (c ≫= hits)
            then set_FaceShield (Some {| Hits := c ≫= hits |}) u2
            else u2 in
  Some u3.
Proof.
  unfold getInsuredItemDetails.
  set (i0 := match upd i with Some _ => i | None => _ end).
  assert (Hu : upd (updateSlotIdValue (equipment (Inventory p)) i0)
               = Some (default {| SpawnedInSession := None; updRepairable := None;
                                  updFaceShield := None; updOther := [] |} (upd i))).
  { rewrite upd_updateSlotIdValue. subst i0.
    destruct (upd i) as [u|] eqn:E; simpl; [exact E|reflexivity]. }
  generalize dependent (updateSlotIdValue (equipment (Inventory p)) i0).
  intros x Hu. simpl.
  set (x1 := if _ && _ then set_location None x else x).
  assert (Hu1 : upd x1 = upd x) by (subst x1; destruct (_ && _); reflexivity).
  destruct (truthy (c ≫= durability)); destruct (truthy (c ≫= hits));
    unfold update_upd; simpl; rewrite Hu1, Hu; simpl;
    repeat match goal with
           | |- context [match ?o with Some _ => _ | None => _ end] => destruct o
           end; reflexivity.
Qed.

(** X2. The returned item is the pre-raid item as far as [_id], [_tpl] and
    [parentId] go; it always has an [upd], in which [SpawnedInSession] is
    never true and the properties the service does not know are those of the
    pre-raid item. *)
Theorem getInsuredItemDetails_keeps_identity
    (pmcData : IPmcData) (preRaidItem : Item) (client : option IInsuredItemsData) :
  let out := getInsuredItemDetails pmcData preRaidItem client in
  _id out = _id preRaidItem
  /\ _tpl out = _tpl preRaidItem
  /\ parentId out = parentId preRaidItem
  /\ exists u, upd out = Some u
       /\ SpawnedInSession u <> Some true
       /\ (SpawnedInSession u = None <-> upd preRaidItem ≫= SpawnedInSession = None)
       /\ updOther u = default [] (updOther <$> upd preRaidItem).
Proof.
  intros out. subst out.
  split; [apply getInsuredItemDetails__id|].
  split; [apply getInsuredItemDetails__tpl|].
  split; [apply getInsuredItemDetails_parentId|].
  rewrite getInsuredItemDetails_upd. eexists. split; [reflexivity|].
  destruct (upd preRaidItem) as [[[b|] r f o]|]; simpl;
    destruct (truthy (client ≫= durability)); destruct (truthy (client ≫= hits)); simpl;
    repeat split; try discriminate; try reflexivity; intros; try discriminate.
Qed.

(** X3. Wear reported by the client replaces the pre-raid values, and a
    durability (or a hit count) that is absent or 0 leaves the pre-raid
    [Repairable] (or [FaceShield]) as it was, whatever else the client
    reports. *)
Theorem getInsuredItemDetails_wear
    (pmcData : IPmcData) (preRaidItem : Item) (client : option IInsuredItemsData) :
  let out := getInsuredItemDetails pmcData preRaidItem client in
  (truthy (client ≫= durability) = true ->
     upd out ≫= updRepairable
     = Some {| Durability := client ≫= durability;
               MaxDurability := client ≫= maxDurability |})
  /\ (truthy (client ≫= durability) = false ->
     upd out ≫= updRepairable = upd preRaidItem ≫= updRepairable)
  /\ (truthy (client ≫= hits) = true ->
     upd out ≫= updFaceShield = Some {| Hits := client ≫= hits |})
  /\ (truthy (client ≫= hits) = false ->
     upd out ≫= updFaceShield = upd preRaidItem ≫= updFaceShield).
Proof.
  intros out. subst out. rewrite getInsuredItemDetails_upd.
  destruct (upd preRaidItem) as [[[b|] r f o]|]; simpl;
    destruct (truthy (client ≫= durability)); destruct (truthy (client ≫= hits)); simpl;
    repeat split; intros; try discriminate; reflexivity.
Qed.

(** X4. The returned item always has a slot, never a pocket slot; when the
    slot is "hideout" the item has no [location], and when it is not, slot
    and [location] are those of the pre-raid item, which then was neither at
    the root of the player's equipment nor in a pocket. *)
Theorem getInsuredItemDetails_slot
    (pmcData : IPmcData) (preRaidItem : Item) (client : option IInsuredItemsData) :
  let out := getInsuredItemDetails pmcData preRaidItem client in
  (exists s, slotId out = Some s /\ s ∉ pocketSlots)
  /\ (slotId out = Some "hideout" -> location out = None)
  /\ (slotId out <> Some "hideout" ->
        slotId out = slotId preRaidItem
        /\ location out = location preRaidItem
        /\ parentId preRaidItem <> Some (equipment (Inventory pmcData))).
Proof.
  intros out. subst out.
  rewrite getInsuredItemDetails_location, getInsuredItemDetails_slotId,
    slotId_updateSlotIdValue.
  unfold forcedToHideout.
  destruct (slotId preRaidItem) as [s|] eqn:Hs; simpl.
  - destruct (bool_decide (s ∈ pocketSlots)) eqn:Hp; simpl.
    + split; [exists "hideout"; split; [reflexivity|]|].
      { unfold pocketSlots. rewrite !elem_of_cons, elem_of_nil.
        intros [H|[H|[H|[H|[]]]]]; discriminate. }
      split; [reflexivity|]. intros H. contradiction.
    + apply bool_decide_eq_false in Hp.
      destruct (bool_decide (parentId preRaidItem = Some (equipment (Inventory pmcData))))
        eqn:Hroot; simpl.
      * split; [exists "hideout"; split; [reflexivity|]|].
        { unfold pocketSlots. rewrite !elem_of_cons, elem_of_nil.
          intros [H|[H|[H|[H|[]]]]]; discriminate. }
        split; [reflexivity|]. intros H. contradiction.
      * apply bool_decide_eq_false in Hroot.
        split; [exists s; split; [reflexivity|exact Hp]|].
        split.
        -- intros H. rewrite bool_decide_eq_true_2 by exact H. reflexivity.
        -- intros H. rewrite bool_decide_eq_false_2 by exact H.
           repeat split; try reflexivity. exact Hroot.
  - split; [exists "hideout"; split; [reflexivity|]|].
    { unfold pocketSlots. rewrite !elem_of_cons, elem_of_nil.
      intros [H|[H|[H|[H|[]]]]]; discriminate. }
    destruct (bool_decide (parentId preRaidItem = Some (equipment (Inventory pmcData))));
      simpl; (split; [reflexivity|]); intros H; contradiction.
Qed.

End normalizer_more.

(** ** The registry *)

Section registry_more.

Local Open Scope js_scope.

Lemma forEach_addInsuranceItemToArray sessionId traderId (its : list Item) :
  forall w o arr,
    insured w !! sessionId = Some o ->
    prop_get traderId o = Some arr ->
    forEach (addInsuranceItemToArray sessionId traderId) its w
    = (Returned tt,
       if decide (its = []) then w
       else set_insured (fun _ =>
              <[sessionId := prop_set traderId (arr ++ its) o]> (insured w)) w).
Proof.
  induction its as [|it its IH]; intros w o arr Ho Ha; simpl; [reflexivity|].
  erewrite bind_Returned by (apply addInsuranceItemToArray_run; eassumption).
  erewrite IH; [|simpl; apply lookup_insert_eq|apply prop_get_set].
  f_equal. destruct (decide (its = [])) as [->|Hne].
  - destruct w; reflexivity.
  - destruct w. unfold set_insured. simpl.
    rewrite insert_insert_eq, prop_set_set, <- app_assoc. reflexivity.
Qed.

(** X5. Once a player has a registry entry, emptying a trader's array and
    pushing items on it gives back exactly these items, in order, from
    [getInsuranceItems]; the arrays of the player's other traders are what
    they were. *)
Theorem registry_push_then_read
    (sessionId traderId : string) (its : list Item) (w : World)
    (o : list (string * list Item)) :
  insured w !! sessionId = Some o ->
  exists w',
    (resetInsuranceTraderArray sessionId traderId ;;;
     forEach (addInsuranceItemToArray sessionId traderId) its) w = (Returned tt, w')
    /\ getInsuranceItems sessionId traderId w' = (Returned (Some its), w')
    /\ forall other, other <> traderId ->
         getInsuranceItems sessionId other w' = (Returned (prop_get other o), w').
Proof.
  intros Ho.
  erewrite bind_Returned by (apply resetInsuranceTraderArray_run; exact Ho).
  erewrite forEach_addInsuranceItemToArray;
    [|simpl; apply lookup_insert_eq|apply prop_get_set].
  eexists. split; [reflexivity|].
  destruct (decide (its = [])) as [->|Hne].
  - split.
    + unfold getInsuranceItems. erewrite bind_Returned by reflexivity.
      simpl. rewrite lookup_insert_eq. simpl.
      unfold bind, ret. rewrite prop_get_set. reflexivity.
    + intros other Hother. unfold getInsuranceItems.
      erewrite bind_Returned by reflexivity.
      simpl. rewrite lookup_insert_eq. simpl.
      unfold bind, ret. rewrite prop_get_set_ne by exact Hother. reflexivity.
  - split.
    + unfold getInsuranceItems. erewrite bind_Returned by reflexivity.
      simpl. rewrite lookup_insert_eq. simpl.
      unfold bind, ret. rewrite prop_get_set. reflexivity.
    + intros other Hother. unfold getInsuranceItems.
      erewrite bind_Returned by reflexivity.
      simpl. rewrite lookup_insert_eq. simpl.
      unfold bind, ret. rewrite !prop_get_set_ne by exact Hother. reflexivity.
Qed.

(** X6. The registry operations that index [insured[sessionId]] throw a
    [TypeError], and change nothing, for a player without registry entry;
    pushing an item also throws when the player has an entry but the trader
    has no array.  [resetInsurance] gives the player an entry without any
    array, whatever was there. *)
Theorem registry_missing_entry (sessionId traderId : string) (item : Item) (w : World) :
  (insured w !! sessionId = None ->
     insuranceTraderArrayExists sessionId traderId w = (TypeError, w)
     /\ resetInsuranceTraderArray sessionId traderId w = (TypeError, w)
     /\ addInsuranceItemToArray sessionId traderId item w = (TypeError, w)
     /\ removeLocationProperty sessionId traderId w = (TypeError, w))
  /\ (forall o, insured w !! sessionId = Some o -> prop_get traderId o = None ->
     insuranceTraderArrayExists sessionId traderId w = (Returned false, w)
     /\ addInsuranceItemToArray sessionId traderId item w = (TypeError, w)
     /\ removeLocationProperty sessionId traderId w = (TypeError, w))
  /\ (exists w', resetInsurance sessionId w = (Returned tt, w')
        /\ insuranceExists sessionId w' = (Returned true, w')
        /\ getInsuranceItems sessionId traderId w' = (Returned None, w')).
Proof.
  split; [|split].
  - intros Hn.
    unfold insuranceTraderArrayExists, resetInsuranceTraderArray, addInsuranceItemToArray,
      removeLocationProperty, getInsurance, bind, gets, defined.
    rewrite Hn. repeat split; reflexivity.
  - intros o Ho Hget.
    unfold insuranceTraderArrayExists, addInsuranceItemToArray,
      removeLocationProperty, getInsurance, bind, gets, defined.
    rewrite Ho. unfold ret, throw. cbn beta iota. rewrite Hget. repeat split; reflexivity.
  - eexists. split; [reflexivity|].
    unfold insuranceExists, getInsuranceItems, bind, gets. simpl.
    rewrite lookup_insert_eq. split; [|reflexivity].
    rewrite bool_decide_eq_true_2 by eauto. reflexivity.
Qed.

End registry_more.

(** ** More on the pass over a trader's bucket *)

Section location_pass_more.

Lemma orphanFix_fmap_ids (its : list Item) :
  _id <$> (orphanFix its <$> its) = _id <$> its.
Proof.
  rewrite <- list_fmap_compose. apply list_fmap_ext.
  intros i x _. apply _id_orphanFix.
Qed.

Lemma parentId_orphanFix its it : parentId (orphanFix its it) = parentId it.
Proof. unfold orphanFix. destruct (find _ its); reflexivity. Qed.

Lemma find_pointwise {A} (f g : A -> bool) (l : list A) :
  (forall x, f x = g x) -> find f l = find g l.
Proof.
  intros H. induction l as [|a l IH]; simpl; [reflexivity|].
  rewrite H. destruct (g a); [reflexivity|exact IH].
Qed.

Lemma orphanFix_again (its l : list Item) (it : Item) :
  _id <$> l = _id <$> its ->
  orphanFix l (orphanFix its it) = orphanFix its it.
Proof.
  intros Hids. unfold orphanFix at 1.
  destruct (find (isParentOf (orphanFix its it)) l) as [p|] eqn:E; [reflexivity|].
  assert (Hsame : forall x, isParentOf (orphanFix its it) x = isParentOf it x).
  { intros x. unfold isParentOf. rewrite parentId_orphanFix. reflexivity. }
  assert (E' : find (isParentOf it) l = None).
  { rewrite <- E. apply find_pointwise. intros x. symmetry. apply Hsame. }
  apply (find_isParentOf_ids it l its Hids) in E'.
  unfold orphanFix. rewrite E'. reflexivity.
Qed.

Lemma removeLocationLoop_idempotent (its : list Item) :
  removeLocationLoop (removeLocationLoop its) = removeLocationLoop its.
Proof.
  rewrite !removeLocationLoop_fmap.
  rewrite <- list_fmap_compose. apply list_fmap_ext.
  intros i x _. simpl. apply orphanFix_again. apply orphanFix_fmap_ids.
Qed.

(** X7. Running [removeLocationProperty] a second time on the same bucket
    changes nothing: the pass is idempotent. *)
Theorem removeLocationProperty_idempotent
    (sessionId traderId : string) (w : World)
    (o : list (string * list Item)) (insuredItems : list Item) :
  insured w !! sessionId = Some o ->
  prop_get traderId o = Some insuredItems ->
  exists w',
    removeLocationProperty sessionId traderId w = (Returned tt, w')
    /\ removeLocationProperty sessionId traderId w' = (Returned tt, w').
Proof.
  intros Ho Hb.
  rewrite (removeLocationProperty_run _ _ _ _ _ Ho Hb).
  eexists. split; [reflexivity|].
  erewrite removeLocationProperty_run;
    [|simpl; apply lookup_insert_eq|apply prop_get_set].
  f_equal. destruct w. unfold set_insured. simpl.
  rewrite insert_insert_eq, prop_set_set, removeLocationLoop_idempotent. reflexivity.
Qed.

End location_pass_more.

(** ** More on registering the lost gear *)

Section dispatcher_more.

Variable insuranceConfig : IInsuranceConfig.


Lemma prop_keys_set_in {V} (k : string) (v : V) (o : list (string * V)) :
  prop_keys (prop_set k v o)
  = if decide (k ∈ prop_keys o) then prop_keys o else prop_keys o ++ [k].
Proof.
  unfold prop_keys. induction o as [|[k' v'] o IH].
  - cbn [prop_set fmap list_fmap fst].
    destruct (decide (k ∈ [])) as [Hin|_]; [|reflexivity].
    apply elem_of_nil in Hin. contradiction.
  - cbn [prop_set]. destruct (decide (k' = k)) as [->|Hne].
    + cbn [fmap list_fmap fst].
      destruct (decide (k ∈ k :: o.*1)) as [_|Hn]; [reflexivity|].
      exfalso. apply Hn. left.
    + cbn [fmap list_fmap fst]. cbn [fmap list_fmap fst] in IH. rewrite IH.
      destruct (decide (k ∈ o.*1)) as [Hin|Hin];
        destruct (decide (k ∈ k' :: o.*1)) as [Hin'|Hin']; try reflexivity.
      * exfalso. apply Hin'. right. exact Hin.
      * exfalso. apply elem_of_cons in Hin' as [->|H]; contradiction.
Qed.



Lemma candidates_share pmcData profile offraidData preRaidGear sessionID playerDied g :
  g ∈ equipmentToSendToPlayer insuranceConfig pmcData profile offraidData preRaidGear
        sessionID playerDied ->
  gearPmcData g = pmcData /\ gearSessionID g = sessionID.
Proof.
  intros Hg. apply list_elem_of_omap in Hg as (e & _ & Hc).
  pose proof (lostGearCandidate_gear _ _ _ _ _ _ _ _ _ _
                (createItemHashTable_key preRaidGear) Hc) as (_ & _ & H3 & H4).
  split; assumption.
Qed.


Lemma createItemHashTable_is_Some (items : list Item) (k : string) :
  is_Some (createItemHashTable items !! k) <-> exists it, it ∈ items /\ _id it = k.
Proof.
  unfold createItemHashTable. rewrite createItemHashTable_from_lookup, lookup_empty.
  split.
  - intros [x Hx]. destruct (last _) as [it|] eqn:E; [|discriminate].
    apply last_Some_elem_of in E. apply list_elem_of_filter in E as [Hid Hin].
    exists it. split; assumption.
  - intros (it & Hin & Hid).
    destruct (last (filter (fun it => _id it = k) items)) as [x|] eqn:E; [eauto|].
    apply last_None in E.
    assert (Hf : it ∈ filter (fun it => _id it = k) items)
      by (apply list_elem_of_filter; split; assumption).
    rewrite E in Hf. apply elem_of_nil in Hf. contradiction.
Qed.

(** X10. When the player survived and every insured item is still in the
    post-raid inventory, [storeLostGear] changes nothing at all: no
    candidate, no registry entry, and the profile keeps its [InsuredItems]. *)
Theorem storeLostGear_nothing_lost
    (pmcData : ref) (profile : IPmcData) (offraidData : ISaveProgressRequestData)
    (preRaidGear : list Item) (sessionID : string) (w : World) :
  profiles w !! pmcData = Some profile ->
  (forall e, e ∈ InsuredItems profile ->
     exists it, it ∈ profile_Inventory_items offraidData /\ _id it = itemId e) ->
  equipmentToSendToPlayer insuranceConfig pmcData profile offraidData preRaidGear
    sessionID false = []
  /\ storeLostGear insuranceConfig pmcData offraidData preRaidGear sessionID false w
     = (Returned tt, w).
Proof.
  intros Hprof Hkept.
  assert (Hnone : equipmentToSendToPlayer insuranceConfig pmcData profile offraidData
                    preRaidGear sessionID false = []).
  { unfold equipmentToSendToPlayer.
    induction (InsuredItems profile) as [|e l IH]; [reflexivity|].
    simpl.
    destruct (lostGearCandidate _ _ _ _ _ _ _ _ e) as [g|] eqn:Hc.
    - exfalso.
      assert (Hs : is_Some (lostGearCandidate insuranceConfig pmcData profile offraidData
                    (createItemHashTable preRaidGear)
                    (createItemHashTable (profile_Inventory_items offraidData))
                    sessionID false e)) by (rewrite Hc; eauto).
      apply lostGearCandidate_Some_iff in Hs as (pre & _ & _ & [Hoff|Hdead]);
        [|discriminate].
      destruct (proj2 (createItemHashTable_is_Some (profile_Inventory_items offraidData)
                         (itemId e)) (Hkept e (list_elem_of_here _ _))) as [x Hx].
      congruence.
    - apply IH. intros e' He'. apply Hkept. right. exact He'. }
  split; [exact Hnone|].
  unfold storeLostGear, bind, gets, defined. rewrite Hprof. unfold ret at 1.
  rewrite Hnone. reflexivity.
Qed.

Lemma fmap_omap_filter {A B C} (f : A -> option B) (g : B -> C) (h : A -> C)
    (l : list A) :
  (forall a b, f a = Some b -> g b = h a) ->
  g <$> omap f l = h <$> filter (fun a => is_Some (f a)) l.
Proof.
  intros H. induction l as [|a l IH]; [reflexivity|].
  cbn [omap list_omap]. destruct (f a) as [b|] eqn:E.
  - rewrite filter_cons_True by (rewrite E; eauto).
    rewrite !fmap_cons, IH, (H a b E). reflexivity.
  - rewrite filter_cons_False by (rewrite E; intros [? ?]; discriminate). exact IH.
Qed.

Lemma length_omap_le {A B} (f : A -> option B) (l : list A) :
  length (omap f l) <= length l.
Proof.
  induction l as [|a l IH]; [reflexivity|].
  cbn [omap list_omap]. destruct (f a); simpl; lia.
Qed.

(** X11. The candidates of [storeLostGear] follow the order of
    [InsuredItems], one for each entry that qualifies and none for the
    others: their traders and item ids are those of the qualifying entries,
    and each carries the normalized pre-raid item of its entry. *)
Theorem equipmentToSendToPlayer_in_order
    (pmcData : ref) (profile : IPmcData) (offraidData : ISaveProgressRequestData)
    (preRaidGear : list Item) (sessionID : string) (playerDied : bool) :
  let pre := createItemHashTable preRaidGear in
  let off := createItemHashTable (profile_Inventory_items offraidData) in
  let candidates :=
    equipmentToSendToPlayer insuranceConfig pmcData profile offraidData preRaidGear
      sessionID playerDied in
  (fun g => (gearTraderId g, _id (itemToReturnToPlayer g))) <$> candidates
  = (fun e => (tid e, itemId e))
      <$> filter (fun e => is_Some (lostGearCandidate insuranceConfig pmcData profile
                                       offraidData pre off sessionID playerDied e))
                 (InsuredItems profile)
  /\ length candidates <= length (InsuredItems profile)
  /\ forall g, g ∈ candidates ->
       exists preRaidItem,
         pre !! _id (itemToReturnToPlayer g) = Some preRaidItem
         /\ itemToReturnToPlayer g
            = getInsuredItemDetails profile preRaidItem
                (insurance offraidData ≫=
                   find (fun x => bool_decide (id x = _id (itemToReturnToPlayer g)))).
Proof.
  intros pre off candidates. subst candidates. unfold equipmentToSendToPlayer.
  fold pre off.
  split; [|split].
  - apply fmap_omap_filter. intros e g Hc.
    pose proof (lostGearCandidate_gear _ _ _ _ _ _ _ _ _ _
                  (createItemHashTable_key preRaidGear) Hc) as (H1 & H2 & _).
    congruence.
  - apply length_omap_le.
  - intros g Hg. apply list_elem_of_omap in Hg as (e & _ & Hc).
    pose proof (lostGearCandidate_gear _ _ _ _ _ _ _ _ _ _
                  (createItemHashTable_key preRaidGear) Hc) as (Hid & _).
    unfold lostGearCandidate in Hc. fold pre in Hc.
    destruct (pre !! itemId e) as [preRaidItem|] eqn:Hp; [|discriminate].
    destruct (includes _ _); [discriminate|].
    destruct (_ || _); [|discriminate].
    injection Hc as <-. simpl in *. exists preRaidItem.
    rewrite getInsuredItemDetails__id in *.
    pose proof (createItemHashTable_key preRaidGear _ _ Hp) as Hk.
    split; [rewrite Hk; exact Hp|]. rewrite Hk. reflexivity.
Qed.

End dispatcher_more.

(** ** More on the return scheduler *)

Section scheduler_more.

Variable ext : Collaborators.
Variable insuranceConfig : IInsuranceConfig.



(** X12. The bonus branch in double precision.  With no positive override
    (zero or negative) and an [InsuranceReturnTime] bonus of value v in the
    profile (the first one counts), one number r is drawn and the timestamp
    is now + r * (1 - |v|/100), each operation rounded to a double: the sign
    of the bonus does not matter.  When the current time and the draw are
    doubles and the draw is not negative, the timestamp lies between now and
    the double of now + r for |v| up to 100, and is not later than now for
    |v| from 100 on. *)
Theorem getInsuranceReturnTimestamp_bonus
    (pmcData : IPmcData) (trader : ITraderBase) (w : World) (b : Bonus) :
  let now := getTimestamp ext in
  let r := getInt ext (draws w)
             (Double.mul (min_return_hour (traderInsurance trader)) oneHourAsSeconds)
             (Double.mul (max_return_hour (traderInsurance trader)) oneHourAsSeconds) in
  let v := Qabs (bonusValue b) in
  (returnTimeOverrideSeconds insuranceConfig <= 0)%Q ->
  find (fun b => bool_decide (bonusType b = "InsuranceReturnTime")) (Bonuses pmcData)
    = Some b ->
  (Double.binary64 now == now)%Q ->
  (Double.binary64 r == r)%Q ->
  exists t : Q,
    Double.getInsuranceReturnTimestamp ext insuranceConfig pmcData trader w
      = (Returned t, next_draw w)
    /\ t = Double.add now (Double.mul r (Double.sub 1 (Double.div v 100)))
    /\ ((v <= 100)%Q -> (0 <= r)%Q -> (now <= t)%Q /\ (t <= Double.add now r)%Q)
    /\ ((100 <= v)%Q -> (0 <= r)%Q -> (t <= now)%Q).
Proof.
  intros now r v Hov Hfind Hnow Hr. unfold Double.getInsuranceReturnTimestamp.
  destruct (Qlt_le_dec 0 (returnTimeOverrideSeconds insuranceConfig)) as [Hlt|_].
  { exfalso. exact (Qlt_not_le _ _ Hlt Hov). }
  rewrite Hfind. eexists. split; [reflexivity|].
  unfold Math_abs. fold now r v.
  split; [reflexivity|].
  assert (Hv : (0 <= v)%Q) by apply Qabs_nonneg.
  set (d := Double.div v 100). set (p := Double.sub 1 d). set (z := Double.mul r p).
  split.
  - intros Ha Hr0.
    assert (Hd : (0 <= d)%Q /\ (d <= 1)%Q).
    { unfold d, Double.div. split.
      - apply binary64_nonneg. apply Qle_shift_div_l; [reflexivity|]. lra.
      - apply binary64_le_1. apply Qle_shift_div_r; [reflexivity|]. lra. }
    assert (Hp : (0 <= p)%Q /\ (p <= 1)%Q).
    { unfold p, Double.sub. split.
      - apply binary64_nonneg. lra.
      - apply binary64_le_1. lra. }
    assert (Hz : (0 <= z)%Q /\ (z <= r)%Q).
    { unfold z, Double.mul. split.
      - apply binary64_nonneg. nra.
      - rewrite <- Hr at 2. apply binary64_le. nra. }
    unfold Double.add. split.
    + rewrite <- Hnow at 1. apply binary64_le. lra.
    + apply binary64_le. lra.
  - intros Ha Hr0.
    assert (Hd : (1 <= d)%Q).
    { unfold d, Double.div. apply binary64_ge_1.
      apply Qle_shift_div_l; [reflexivity|]. lra. }
    assert (Hp : (p <= 0)%Q).
    { unfold p, Double.sub. apply binary64_nonpos. lra. }
    assert (Hz : (z <= 0)%Q).
    { unfold z, Double.mul. apply binary64_nonpos. nra. }
    unfold Double.add. rewrite <- Hnow at 2. apply binary64_le. lra.
Qed.

(** The override and the branch without bonus in double precision.  What
    was shown of the exact embedding holds of the rounded one, the sums
    being those of doubles: with a positive override the timestamp is the
    double of now plus the override, and no number is drawn; without a
    bonus, or with one of value 0, the factor is exactly 1 and the
    timestamp is the double of now plus the draw, between those of now plus
    the least and of now plus the greatest return time. *)
Lemma getInsuranceReturnTimestamp_override_double
    (pmcData : IPmcData) (trader : ITraderBase) (w : World) (N : Q) :
  returnTimeOverrideSeconds insuranceConfig = N ->
  (0 < N)%Q ->
  (Double.getInsuranceReturnTimestamp ext insuranceConfig pmcData trader w).1
    = Returned (Double.add (getTimestamp ext) N)
  /\ draws (Double.getInsuranceReturnTimestamp ext insuranceConfig pmcData trader w).2
     = draws w.
Proof.
  intros HN Hpos. unfold Double.getInsuranceReturnTimestamp. rewrite HN.
  destruct (Qlt_le_dec 0 N) as [_|Hle].
  - split; reflexivity.
  - exfalso. apply (Qlt_not_le _ _ Hpos Hle).
Qed.

Lemma getInsuranceReturnTimestamp_bounds_double
    (pmcData : IPmcData) (trader : ITraderBase) (w : World) :
  let lo := Double.mul (min_return_hour (traderInsurance trader)) oneHourAsSeconds in
  let hi := Double.mul (max_return_hour (traderInsurance trader)) oneHourAsSeconds in
  let r := getInt ext (draws w) lo hi in
  (returnTimeOverrideSeconds insuranceConfig <= 0)%Q ->
  match find (fun b => bool_decide (bonusType b = "InsuranceReturnTime")) (Bonuses pmcData) with
  | Some b => (bonusValue b == 0)%Q
  | None => True
  end ->
  (Double.binary64 r == r)%Q ->
  (lo <= r)%Q -> (r <= hi)%Q ->
  exists t : Q,
    (Double.getInsuranceReturnTimestamp ext insuranceConfig pmcData trader w).1 = Returned t
    /\ t = Double.add (getTimestamp ext) r
    /\ (Double.add (getTimestamp ext) lo <= t)%Q
    /\ (t <= Double.add (getTimestamp ext) hi)%Q.
Proof.
  intros lo hi r Hov Hbonus Hr Hlo Hhi.
  unfold Double.getInsuranceReturnTimestamp.
  destruct (Qlt_le_dec 0 (returnTimeOverrideSeconds insuranceConfig)) as [Hlt|_].
  { exfalso. exact (Qlt_not_le _ _ Hlt Hov). }
  unfold bind, draw, gets, modify, ret, bind. cbn [fst snd].
  fold lo hi. fold r.
  assert (Hone : Double.sub 1
                   (Double.div
                      match find (fun b => bool_decide (bonusType b = "InsuranceReturnTime"))
                                 (Bonuses pmcData) with
                      | Some b => Math_abs (bonusValue b)
                      | None => 0%Q
                      end 100) = 1%Q).
  { set (v := match find _ (Bonuses pmcData) with
               | Some b => Math_abs (bonusValue b)
               | None => 0%Q
               end).
    assert (Hv : (v == 0)%Q).
    { unfold v. destruct (find _ (Bonuses pmcData)) as [b|]; [|reflexivity].
      unfold Math_abs. rewrite Hbonus. reflexivity. }
    unfold Double.sub, Double.div.
    rewrite (binary64_comp (v / 100) 0%Q) by (rewrite Hv; reflexivity).
    rewrite binary64_0. apply binary64_1. }
  rewrite Hone.
  assert (Ht : Double.add (getTimestamp ext) (Double.mul r 1)
               = Double.add (getTimestamp ext) r).
  { unfold Double.add, Double.mul. apply binary64_comp.
    rewrite (binary64_comp (r * 1) r) by apply Qmult_1_r. rewrite Hr. reflexivity. }
  rewrite Ht. eexists. split; [reflexivity|]. split; [reflexivity|].
  unfold Double.add. split; apply binary64_le; lra.
Qed.

End scheduler_more.

(** ** More on the premium calculator *)

Section premium_more.

Variable ext : Collaborators.
Variable insuranceConfig : IInsuranceConfig.

Lemma Math_round_le (x y : Q) : (x <= y)%Q -> (Math_round x <= Math_round y)%Z.
Proof.
  intros H. unfold Math_round. apply Qfloor_resp_le. apply Qplus_le_l. exact H.
Qed.

Lemma Math_round_nonneg (x : Q) : (0 <= x)%Q -> (0 <= Math_round x)%Z.
Proof. intros H. apply (Math_round_le 0 x H). Qed.

Lemma Math_round_nonpos (x : Q) : (x <= 0)%Q -> (Math_round x <= 0)%Z.
Proof. intros H. apply (Math_round_le x 0 H). Qed.



(** The same bounds in double precision, where the price without discount
    is the double of the base price times the multiplier. *)
Lemma getPremium_bounds_double
    (pmcData : IPmcData) (inventoryItem : Item) (traderId : string) (w : World) :
  let price := Double.mul (getStaticItemPrice ext (_tpl inventoryItem))
                          (Double.effectiveMultiplier insuranceConfig traderId) in
  let coef := insurance_price_coef (getLoyaltyLevel ext traderId pmcData) in
  (0 <= getStaticItemPrice ext (_tpl inventoryItem))%Q ->
  (0 <= Double.effectiveMultiplier insuranceConfig traderId)%Q ->
  exists premium : Z,
    (Double.getPremium ext insuranceConfig pmcData inventoryItem traderId w).1
      = Returned premium
    /\ (premium <= Math_round price)%Z
    /\ ((coef <= 100)%Q -> (0 <= premium)%Z)
    /\ ((100 < coef)%Q -> (premium <= 0)%Z).
Proof.
  intros price coef Hbase Hmult.
  assert (Hprice : (0 <= price)%Q).
  { unfold price, Double.mul. apply binary64_nonneg. apply Qmult_le_0_compat; assumption. }
  assert (Hdouble : Double.binary64 price = price).
  { unfold price, Double.mul. apply binary64_idempotent. }
  assert (Hrun : (Double.getPremium ext insuranceConfig pmcData inventoryItem traderId w).1
                 = Returned (Math_round
                     (if Qlt_le_dec 0 coef
                      then Double.mul price (Double.sub 1 (Double.div coef 100))
                      else price))).
  { unfold Double.getPremium, price, Double.effectiveMultiplier.
    destruct (truthy (insuranceMultiplier insuranceConfig !! traderId)); reflexivity. }
  rewrite Hrun. eexists. split; [reflexivity|].
  destruct (Qlt_le_dec 0 coef) as [Hpos|Hle].
  - set (d := Double.div coef 100). set (f := Double.sub 1 d).
    assert (Hsmall : (coef <= 100)%Q -> (0 <= f)%Q /\ (f <= 1)%Q).
    { intros H100.
      assert (Hd : (0 <= d)%Q /\ (d <= 1)%Q).
      { unfold d, Double.div. split.
        - apply binary64_nonneg. apply Qle_shift_div_l; [reflexivity|]. lra.
        - apply binary64_le_1. apply Qle_shift_div_r; [reflexivity|]. lra. }
      unfold f, Double.sub. split; [apply binary64_nonneg|apply binary64_le_1]; lra. }
    assert (Hbig : (100 < coef)%Q -> (f <= 0)%Q).
    { intros H100.
      assert (Hd : (1 <= d)%Q).
      { unfold d, Double.div. apply binary64_ge_1.
        apply Qle_shift_div_l; [reflexivity|]. lra. }
      unfold f, Double.sub. apply binary64_nonpos. lra. }
    split; [|split].
    + apply Math_round_le. rewrite <- Hdouble at 2. unfold Double.mul at 1.
      apply binary64_le.
      destruct (Qlt_le_dec 100 coef) as [H100|H100].
      * specialize (Hbig H100). nra.
      * destruct (Hsmall H100). nra.
    + intros H100. apply Math_round_nonneg. unfold Double.mul.
      apply binary64_nonneg. destruct (Hsmall H100). nra.
    + intros H100. apply Math_round_nonpos. unfold Double.mul.
      apply binary64_nonpos. specialize (Hbig H100). nra.
  - split; [apply Z.le_refl|]. split.
    + intros _. apply Math_round_nonneg. exact Hprice.
    + intros H100. exfalso. lra.
Qed.

End premium_more.

(** ** More on the lost-insurance message *)

Section lost_message_more.

Variable ext : Collaborators.

(** X14. [sendLostInsuranceMessage] reads Prapor's dialogue templates
    whoever insured the gear: without them it throws a [TypeError] and sends
    nothing; with them it sends exactly one message, from Prapor, without
    items, that carries [locationName] as it was given, and changes nothing
    else but the position of the random source. *)
Theorem sendLostInsuranceMessage_prapor
    (sessionId : string) (locationName : option string) (w : World) :
  (traders ext !! PRAPOR ext ≫= dialogue = None ->
     sendLostInsuranceMessage ext sessionId locationName w = (TypeError, w))
  /\ (forall d, traders ext !! PRAPOR ext ≫= dialogue = Some d ->
     exists mail,
       sendLostInsuranceMessage ext sessionId locationName w
         = (Returned tt, add_mail mail (next_draw w))
       /\ mailTrader mail = PRAPOR ext
       /\ mailType mail = NPC_TRADER
       /\ mailItems mail = []
       /\ mailMaxStorage mail = None
       /\ sysLocation (mailSystemData mail) = locationName).
Proof.
  unfold sendLostInsuranceMessage. split.
  - intros Hmiss. destruct (traders ext !! PRAPOR ext) as [trader|]; simpl in Hmiss.
    + erewrite bind_Returned by reflexivity. rewrite Hmiss. reflexivity.
    + reflexivity.
  - intros d Hd. destruct (traders ext !! PRAPOR ext) as [trader|]; simpl in Hd;
      [|discriminate].
    erewrite bind_Returned by reflexivity. rewrite Hd.
    eexists. split; [reflexivity|]. repeat split.
Qed.

End lost_message_more.

(** ** More on sending the registered gear *)

Section sending_more.

Variable ext : Collaborators.
Variable insuranceConfig : IInsuranceConfig.

Lemma getInsuranceReturnTimestamp_frame pmcData trader w :
  exists ts w1,
    getInsuranceReturnTimestamp ext insuranceConfig pmcData trader w = (Returned ts, w1)
    /\ insured w1 = insured w /\ profiles w1 = profiles w
    /\ dialogueMessages w1 = dialogueMessages w /\ npcMails w1 = npcMails w
    /\ profileInsurance w1 = profileInsurance w.
Proof.
  unfold getInsuranceReturnTimestamp.
  destruct (Qlt_le_dec 0 (returnTimeOverrideSeconds insuranceConfig));
    eexists _, _; (split; [reflexivity|]); simpl; repeat split.
Qed.

Lemma sendInsuredItemsFor_run pmcData sessionID mapId k w o its trader d :
  insured w !! sessionID = Some o ->
  prop_get k o = Some its ->
  traders ext !! k = Some trader ->
  dialogue trader = Some d ->
  exists w' record started,
    sendInsuredItemsFor ext insuranceConfig pmcData sessionID mapId k w = (Returned tt, w')
    /\ insured w' = <[sessionID := prop_set k (removeLocationLoop its) o]> (insured w)
    /\ profileInsurance w'
       = <[sessionID := default [] (profileInsurance w !! sessionID) ++ [record]]>
           (profileInsurance w)
    /\ insTraderId record = k
    /\ items record = removeLocationLoop its
    /\ type (messageContent record) = INSURANCE_RETURN
    /\ text (messageContent record) = Some ""
    /\ systemData (messageContent record) ≫= sysLocation = Some mapId
    /\ dialogueMessages w' = dialogueMessages w ++ [(k, started, sessionID)]
    /\ text started = Some ""
    /\ npcMails w' = npcMails w /\ profiles w' = profiles w.
Proof.
  intros Ho Hb Htr Hd. unfold sendInsuredItemsFor.
  destruct (getInsuranceReturnTimestamp_frame pmcData (getTrader ext k sessionID) w)
    as (ts & w1 & Hrun & Hi & Hpr & Hdm & Hnm & Hpi).
  erewrite bind_Returned by exact Hrun.
  rewrite Htr. erewrite bind_Returned by reflexivity.
  rewrite Hd. erewrite bind_Returned by reflexivity.
  erewrite bind_Returned by reflexivity.
  erewrite bind_Returned by reflexivity.
  erewrite bind_Returned
    by (apply (removeLocationProperty_run sessionID k _ o its);
        [cbn [insured add_dialogue next_draw]; rewrite Hi; exact Ho | exact Hb]).
  erewrite bind_Returned by reflexivity.
  erewrite bind_Returned by reflexivity.
  cbn [insured profiles logged draws dialogueMessages npcMails profileInsurance
       add_dialogue next_draw set_insured].
  rewrite lookup_insert_eq.
  erewrite bind_Returned by reflexivity.
  eexists _, _, _. split; [reflexivity|].
  cbn [insured profiles logged draws dialogueMessages npcMails profileInsurance
       add_dialogue next_draw set_insured set_profileInsurance].
  rewrite prop_get_set, Hi, Hpi, Hdm, Hnm, Hpr.
  split; [reflexivity|]. split; [reflexivity|]. repeat split.
Qed.

Lemma passed_refl o : passed o o.
Proof. intros k. left. reflexivity. Qed.

Lemma passed_get o o' k its :
  passed o o' -> prop_get k o = Some its ->
  exists its', prop_get k o' = Some its'
               /\ removeLocationLoop its' = removeLocationLoop its.
Proof.
  intros Hp Hk. destruct (Hp k) as [H|(x & Hx & H)].
  - exists its. split; [congruence|reflexivity].
  - exists (removeLocationLoop x). split; [exact H|].
    rewrite removeLocationLoop_idempotent. congruence.
Qed.

Lemma passed_set o o' k its :
  passed o o' -> prop_get k o = Some its ->
  passed o (prop_set k (removeLocationLoop its) o').
Proof.
  intros Hp Hk k'. destruct (decide (k' = k)) as [->|Hne].
  - right. exists its. split; [exact Hk|apply prop_get_set].
  - rewrite prop_get_set_ne by exact Hne. apply Hp.
Qed.

Lemma forEach_sendInsuredItemsFor pmcData sessionID mapId o (ks : list string) :
  (forall k, k ∈ ks ->
     exists its trader d,
       prop_get k o = Some its /\ traders ext !! k = Some trader
       /\ dialogue trader = Some d) ->
  forall w o_i,
    insured w !! sessionID = Some o_i ->
    passed o o_i ->
    exists w' o' rs ds,
      forEach (sendInsuredItemsFor ext insuranceConfig pmcData sessionID mapId) ks w
        = (Returned tt, w')
      /\ insured w' = <[sessionID := o']> (insured w)
      /\ default [] (profileInsurance w' !! sessionID)
         = default [] (profileInsurance w !! sessionID) ++ rs
      /\ (forall s, s <> sessionID -> profileInsurance w' !! s = profileInsurance w !! s)
      /\ insTraderId <$> rs = ks
      /\ Forall (fun r =>
           items r = removeLocationLoop (default [] (prop_get (insTraderId r) o))
           /\ type (messageContent r) = INSURANCE_RETURN
           /\ text (messageContent r) = Some ""
           /\ systemData (messageContent r) ≫= sysLocation = Some mapId) rs
      /\ dialogueMessages w' = dialogueMessages w ++ ds
      /\ (fun m => (m.1.1, m.2)) <$> ds = (fun k => (k, sessionID)) <$> ks
      /\ npcMails w' = npcMails w /\ profiles w' = profiles w.
Proof.
  induction ks as [|k ks IH]; intros Hall w o_i Ho Hp.
  - exists w, o_i, [], []. simpl. rewrite !app_nil_r.
    split; [reflexivity|]. split; [symmetry; apply insert_id; exact Ho|].
    repeat split. constructor.
  - destruct (Hall k) as (its & trader & d & Hk & Htr & Hd); [left|].
    destruct (passed_get o o_i k its Hp Hk) as (its' & Hk' & Hloop).
    destruct (sendInsuredItemsFor_run pmcData sessionID mapId k w o_i its' trader d
                Ho Hk' Htr Hd)
      as (w1 & record & started & Hrun & Hi & Hpi & Hrt & Hri & Hrty & Hrtx & Hrl
          & Hdm & _ & Hnm & Hpr).
    rewrite Hloop in Hi, Hri.
    destruct (IH (fun k' Hk'' => Hall k' (list_elem_of_further _ _ _ Hk'')) w1
                (prop_set k (removeLocationLoop its) o_i))
      as (w' & o' & rs & ds & Hrun' & Hi' & Hpi' & Hpo' & Hrs & Hfa & Hdm' & Hds
          & Hnm' & Hpr').
    { rewrite Hi. apply lookup_insert_eq. }
    { apply passed_set; assumption. }
    exists w', o', (record :: rs), ((k, started, sessionID) :: ds).
    split; [simpl; erewrite bind_Returned by exact Hrun; exact Hrun'|].
    split; [rewrite Hi', Hi; apply insert_insert_eq|].
    split.
    { rewrite Hpi', Hpi, lookup_insert_eq. simpl. rewrite <- app_assoc. reflexivity. }
    split.
    { intros s Hs. rewrite (Hpo' s Hs), Hpi. apply lookup_insert_ne. congruence. }
    split; [rewrite fmap_cons, Hrs, Hrt; reflexivity|].
    split.
    { constructor; [|exact Hfa].
      rewrite Hrt, Hk. simpl. repeat split; assumption. }
    split; [rewrite Hdm', Hdm, <- app_assoc; reflexivity|].
    split; [rewrite !fmap_cons, Hds; reflexivity|].
    split; congruence.
Qed.

Lemma prop_keys_get {V} (k : string) (o : list (string * V)) :
  k ∈ prop_keys o -> is_Some (prop_get k o).
Proof.
  unfold prop_keys. induction o as [|[k' v'] o IH]; simpl; intros H.
  - apply elem_of_nil in H. contradiction.
  - destruct (decide (k' = k)) as [->|Hne]; [eauto|].
    apply elem_of_cons in H as [->|H]; [contradiction|]. apply IH. exact H.
Qed.

(** The run of [sendInsuredItems] when every trader of the player's entry
    has dialogue templates. *)
Lemma sendInsuredItems_run pmcData sessionID mapId w :
  let o := default [] (insured w !! sessionID) in
  (forall k, k ∈ prop_keys o ->
     exists trader d, traders ext !! k = Some trader /\ dialogue trader = Some d) ->
  exists w' rs ds,
    sendInsuredItems ext insuranceConfig pmcData sessionID mapId w = (Returned tt, w')
    /\ insured w' = <[sessionID := []]> (insured w)
    /\ default [] (profileInsurance w' !! sessionID)
       = default [] (profileInsurance w !! sessionID) ++ rs
    /\ (forall s, s <> sessionID -> profileInsurance w' !! s = profileInsurance w !! s)
    /\ flushedRecords o mapId rs
    /\ dialogueMessages w' = dialogueMessages w ++ ds
    /\ (fun m => (m.1.1, m.2)) <$> ds = (fun k => (k, sessionID)) <$> prop_keys o
    /\ npcMails w' = npcMails w /\ profiles w' = profiles w.
Proof.
  intros o Hall. unfold sendInsuredItems.
  erewrite bind_Returned by reflexivity.
  destruct (insured w !! sessionID) as [o0|] eqn:Ho.
  - subst o. simpl in Hall.
    destruct (forEach_sendInsuredItemsFor pmcData sessionID mapId o0 (prop_keys o0))
      with (w := w) (o_i := o0)
      as (w' & o' & rs & ds & Hrun & Hi & Hpi & Hpo & Hrs & Hfa & Hdm & Hds & Hnm & Hpr).
    { intros k Hk. destruct (prop_keys_get k o0 Hk) as [its Hits].
      destruct (Hall k Hk) as (trader & d & Htr & Hd). eauto 7. }
    { exact Ho. }
    { apply passed_refl. }
    erewrite bind_Returned by exact Hrun.
    eexists _, rs, ds. split; [reflexivity|].
    cbn [insured profiles logged draws dialogueMessages npcMails profileInsurance
         set_insured].
    split; [rewrite Hi; apply insert_insert_eq|].
    split; [exact Hpi|]. split; [exact Hpo|].
    split; [split; assumption|]. repeat split; assumption.
  - subst o. simpl.
    eexists _, [], []. split; [reflexivity|]. rewrite !app_nil_r.
    cbn [insured profiles logged draws dialogueMessages npcMails profileInsurance
         set_insured].
    repeat split. constructor.
Qed.

(** X15. When every trader in the player's registry entry has dialogue
    templates, [sendInsuredItems] returns and leaves the player an empty
    registry entry (as it does for a player who had none); it appends to the
    profile's [insurance] array one record for each trader of the entry, in
    the order of the enumeration, holding the trader's array after the pass
    of [removeLocationProperty], an [INSURANCE_RETURN] message with empty
    text and the map; it hands one dialogue message for each trader to the
    dialogue helper, sends no mail and changes no other player's data. *)
Theorem sendInsuredItems_flushes
    (pmcData : IPmcData) (sessionID mapId : string) (w : World) :
  let o := default [] (insured w !! sessionID) in
  (forall k, k ∈ prop_keys o ->
     exists trader d, traders ext !! k = Some trader /\ dialogue trader = Some d) ->
  exists w' rs ds,
    sendInsuredItems ext insuranceConfig pmcData sessionID mapId w = (Returned tt, w')
    /\ insured w' = <[sessionID := []]> (insured w)
    /\ default [] (profileInsurance w' !! sessionID)
       = default [] (profileInsurance w !! sessionID) ++ rs
    /\ (forall s, s <> sessionID -> profileInsurance w' !! s = profileInsurance w !! s)
    /\ flushedRecords o mapId rs
    /\ dialogueMessages w' = dialogueMessages w ++ ds
    /\ (fun m => (m.1.1, m.2)) <$> ds = (fun k => (k, sessionID)) <$> prop_keys o
    /\ npcMails w' = npcMails w /\ profiles w' = profiles w.
Proof. exact (sendInsuredItems_run pmcData sessionID mapId w). Qed.

End sending_more.

(** ** From the end of the raid to the stored records *)

Section pipeline.

Variable ext : Collaborators.
Variable insuranceConfig : IInsuranceConfig.

Local Open Scope js_scope.

Lemma bucketOf_entry r sessionId traderId :
  bucketOf r sessionId traderId
  = default [] (prop_get traderId (default [] (r !! sessionId))).
Proof. unfold bucketOf. destruct (r !! sessionId); reflexivity. Qed.

Lemma registered_keys (sessionID : string) (gs : list Gear) :
  forall r,
    (forall g, g ∈ gs -> gearSessionID g = sessionID) ->
    NoDup (prop_keys (default [] (r !! sessionID))) ->
    let r' := foldl (fun r g => registerItem (gearSessionID g) (gearTraderId g)
                                  (itemToReturnToPlayer g) r) r gs in
    NoDup (prop_keys (default [] (r' !! sessionID)))
    /\ forall k, k ∈ prop_keys (default [] (r' !! sessionID))
         <-> k ∈ prop_keys (default [] (r !! sessionID))
             \/ exists g, g ∈ gs /\ gearTraderId g = k.
Proof.
  induction gs as [|g gs IH]; intros r Hall Hnd; simpl.
  - split; [exact Hnd|]. intros k. split; [auto|].
    intros [H|(g & Hg & _)]; [exact H|]. apply elem_of_nil in Hg. contradiction.
  - assert (Hs : gearSessionID g = sessionID) by (apply Hall; left).
    assert (Hkeys : prop_keys (default [] (registerItem (gearSessionID g) (gearTraderId g)
                       (itemToReturnToPlayer g) r !! sessionID))
                    = let keys := prop_keys (default [] (r !! sessionID)) in
                      if decide (gearTraderId g ∈ keys) then keys
                      else keys ++ [gearTraderId g]).
    { rewrite Hs. unfold registerItem. rewrite lookup_insert_eq. simpl.
      apply prop_keys_set_in. }
    destruct (IH (registerItem (gearSessionID g) (gearTraderId g)
                    (itemToReturnToPlayer g) r)) as [Hnd' Hin'].
    { intros g' Hg'. apply Hall. right. exact Hg'. }
    { rewrite Hkeys. cbv zeta. case_decide; [exact Hnd|].
      apply NoDup_app. split; [exact Hnd|]. split.
      - intros x Hx Hx'. apply list_elem_of_singleton in Hx'. subst x. contradiction.
      - apply NoDup_singleton. }
    split; [exact Hnd'|].
    intros k. rewrite Hin', Hkeys. cbv zeta. split.
    + intros [Hk|(g' & Hg' & Ht)].
      * case_decide; [left; exact Hk|].
        apply elem_of_app in Hk as [Hk|Hk]; [left; exact Hk|].
        apply list_elem_of_singleton in Hk. right. exists g. split; [left|congruence].
      * right. exists g'. split; [right; exact Hg'|exact Ht].
    + intros [Hk|(g' & Hg' & Ht)].
      * left. case_decide; [exact Hk|]. apply elem_of_app. left. exact Hk.
      * apply elem_of_cons in Hg' as [->|Hg'].
        -- left. case_decide; [congruence|].
           apply elem_of_app. right. apply list_elem_of_singleton. congruence.
        -- right. exists g'. split; assumption.
Qed.

(** X16. From a player without registry entry, [storeLostGear] followed by
    [sendInsuredItems] returns when the traders of the insured items have
    dialogue templates: the player is left with an empty registry entry; the
    profile's [insurance] array gains exactly one record for each trader
    that has a candidate, and none for the others, holding the normalized
    items of that trader's candidates, in the order of [InsuredItems], after
    the pass of [removeLocationProperty]; and no entry with the id of a
    candidate's item is left in [InsuredItems]. *)
Theorem storeLostGear_then_sendInsuredItems
    (pmcRef : ref) (profile pmcData : IPmcData) (offraidData : ISaveProgressRequestData)
    (preRaidGear : list Item) (sessionID mapId : string) (playerDied : bool) (w : World) :
  profiles w !! pmcRef = Some profile ->
  insured w !! sessionID = None ->
  (forall e, e ∈ InsuredItems profile ->
     exists trader d, traders ext !! tid e = Some trader /\ dialogue trader = Some d) ->
  let candidates :=
    equipmentToSendToPlayer insuranceConfig pmcRef profile offraidData preRaidGear
      sessionID playerDied in
  exists (w' : World) (rs : list Insurance) (profile' : IPmcData),
    (storeLostGear insuranceConfig pmcRef offraidData preRaidGear sessionID playerDied ;;;
     sendInsuredItems ext insuranceConfig pmcData sessionID mapId) w = (Returned tt, w')
    /\ insured w' !! sessionID = Some []
    /\ default [] (profileInsurance w' !! sessionID)
       = default [] (profileInsurance w !! sessionID) ++ rs
    /\ NoDup (insTraderId <$> rs)
    /\ (forall t, t ∈ insTraderId <$> rs <-> exists g, g ∈ candidates /\ gearTraderId g = t)
    /\ Forall (fun r =>
         items r = removeLocationLoop
                     (itemToReturnToPlayer <$>
                        filter (fun g => gearTraderId g = insTraderId r) candidates)
         /\ type (messageContent r) = INSURANCE_RETURN) rs
    /\ profiles w' !! pmcRef = Some profile'
    /\ (forall g e, g ∈ candidates -> e ∈ InsuredItems profile' ->
          itemId e <> _id (itemToReturnToPlayer g)).
Proof.
  intros Hprof Hidle Hdial candidates.
  assert (Hshare : forall g, g ∈ candidates ->
            gearPmcData g = pmcRef /\ gearSessionID g = sessionID).
  { intros g Hg. apply (candidates_share _ _ _ _ _ _ _ _ Hg). }
  destruct (forEach_addGearToSend pmcRef candidates profile w)
    as (w1 & profile' & Hrun & Hp' & Hins & _ & _ & Hreg & _ & _ & _ & _ & Hpi).
  { intros g Hg. apply Hshare. exact Hg. }
  { exact Hprof. }
  destruct (registered_keys sessionID candidates (insured w)) as [Hnd Hkeys].
  { intros g Hg. apply Hshare. exact Hg. }
  { rewrite Hidle. apply NoDup_nil_2. }
  cbv zeta in Hnd, Hkeys. rewrite <- Hreg in Hnd, Hkeys.
  destruct (sendInsuredItems_run ext insuranceConfig pmcData sessionID mapId w1)
    as (w' & rs & ds & Hrun' & Hi' & Hpi' & _ & [Hrs Hfa] & _ & _ & _ & Hpr').
  { intros k Hk. apply Hkeys in Hk as [Hk|(g & Hg & Ht)].
    - rewrite Hidle in Hk. apply elem_of_nil in Hk. contradiction.
    - apply list_elem_of_omap in Hg as (e & He & Hc).
      pose proof (lostGearCandidate_gear _ _ _ _ _ _ _ _ _ _
                    (createItemHashTable_key preRaidGear) Hc) as (_ & Htid & _).
      subst k. rewrite Htid. apply Hdial. exact He. }
  exists w', rs, profile'.
  split.
  { erewrite bind_Returned; [exact Hrun'|].
    unfold storeLostGear, bind, gets, defined. rewrite Hprof. exact Hrun. }
  split; [rewrite Hi'; apply lookup_insert_eq|].
  split; [rewrite Hpi', Hpi; reflexivity|].
  split; [rewrite Hrs; exact Hnd|].
  split.
  { intros t. rewrite Hrs, Hkeys, Hidle. split.
    - intros [H|H]; [apply elem_of_nil in H; contradiction|exact H].
    - intros H. right. exact H. }
  split.
  { eapply Forall_impl; [exact Hfa|]. intros r (Hitems & Hty & _).
    split; [|exact Hty]. rewrite Hitems, <- bucketOf_entry, Hreg.
    rewrite bucketOf_foldl by (intros g Hg; apply Hshare; exact Hg).
    unfold bucketOf at 1. rewrite Hidle. reflexivity. }
  split; [rewrite Hpr'; exact Hp'|].
  intros g e Hg He. rewrite Hins in He.
  apply list_elem_of_filter in He as [Hnot _].
  intros Heq. apply Hnot. apply list_elem_of_fmap. exists g. split; assumption.
Qed.

End pipeline.

(** * The location controller *)

Section location_controller.

Import Location.

Variable ext : Location.Collaborators.
Variable airdropConfig : IAirdropConfig.

Local Open Scope loc_scope.

Lemma loc_bind_Returned {A B} (m : Location.M A) (k : A -> Location.M B)
    (w w' : Location.World) (a : A) :
  m w = (Returned a, w') -> Location.bind m k w = k a w'.
Proof. intros H. unfold Location.bind. rewrite H. reflexivity. Qed.

Lemma loc_bind_TypeError {A B} (m : Location.M A) (k : A -> Location.M B)
    (w w' : Location.World) :
  m w = (TypeError, w') -> Location.bind m k w = (TypeError, w').
Proof. intros H. unfold Location.bind. rewrite H. reflexivity. Qed.

(** X17. [generate] throws a [TypeError], before it logs or generates
    anything, for a name that is not in the [locations] table or whose entry
    has no [base]; for "hideout" it returns the base of the entry with the
    current time as [UnixDateTime] and everything else, its [Loot] too, as
    in the table, without logging and without calling a generator; and if
    cloning [undefined] throws, a map without static weapon data makes
    [generate] throw before the error line is logged. *)
Theorem generate_unknown_and_hideout (name : string) (w : Location.World) :
  (prop_get name (tableLocations ext) ≫= base = None ->
     generate ext name w = (TypeError, w))
  /\ (forall b, prop_get "hideout" (tableLocations ext) ≫= base = Some b ->
     generate ext "hideout" w
     = (Returned (set_UnixDateTime (Some (Location.getTimestamp ext)) b), w))
  /\ (forall b, name <> "hideout" ->
     prop_get name (tableLocations ext) ≫= base = Some b ->
     lootStaticContainers (tableLoot ext) !! Name b ≫= staticWeapons = None ->
     cloneOfUndefinedThrows ext = true ->
     generate ext name w = (TypeError, w)).
Proof.
  unfold generate. split; [|split]; [| |
    intros b Hname Hb Hweapons Hclone;
    destruct (prop_get name (tableLocations ext)) as [loc|]; simpl in Hb; [|discriminate];
    erewrite loc_bind_Returned by reflexivity; rewrite Hb;
    erewrite loc_bind_Returned by reflexivity;
    rewrite bool_decide_eq_false_2 by exact Hname;
    erewrite loc_bind_Returned by reflexivity;
    rewrite Hweapons; unfold clone; rewrite Hclone; reflexivity].
  - intros Hmiss. destruct (prop_get name (tableLocations ext)) as [loc|]; simpl in Hmiss.
    + erewrite loc_bind_Returned by reflexivity. rewrite Hmiss. reflexivity.
    + reflexivity.
  - intros b Hb. destruct (prop_get "hideout" (tableLocations ext)) as [loc|];
      simpl in Hb; [|discriminate].
    erewrite loc_bind_Returned by reflexivity. rewrite Hb.
    erewrite loc_bind_Returned by reflexivity. reflexivity.
Qed.

Lemma foldM_containers (forced lootDist ammoDist : option JsonValue) (name : string)
    (cs : list JsonValue) :
  forall (acc : list JsonValue) (w : Location.World),
    foldM (fun (acc : list JsonValue) staticContainer =>
             n <- Location.draw ;;
             Location.ret
               (acc ++ [generateContainerLoot ext n staticContainer forced lootDist
                          ammoDist name]))
          acc cs w
    = (Returned (acc ++ imap (fun i c => generateContainerLoot ext (Location.draws w + i) c
                                            forced lootDist ammoDist name) cs),
       {| Location.logged := Location.logged w;
          Location.draws := Location.draws w + length cs |}).
Proof.
  induction cs as [|c cs IH]; intros acc w.
  - simpl. rewrite app_nil_r, Nat.add_0_r. destruct w; reflexivity.
  - cbn [foldM]. erewrite loc_bind_Returned by reflexivity.
    rewrite IH. cbn [Location.logged Location.draws length].
    rewrite imap_cons, Nat.add_0_r.
    assert (Hsnoc : forall (l1 : list JsonValue) x l2, (l1 ++ [x]) ++ l2 = l1 ++ x :: l2)
      by (intros; rewrite <- app_assoc; reflexivity).
    rewrite Hsnoc.
    f_equal; [f_equal; f_equal; f_equal|f_equal; lia].
    apply imap_ext. intros i x _. simpl. f_equal. lia.
Qed.

(** X18. For a map other than the hideout whose entry has a base, and when
    cloning [undefined] gives [undefined], [generate] returns: the [Loot] of
    the result is the map's mounted weapons, then one generated container
    for each static container, in order, then the dynamic loot, whatever
    [Loot] the base had; static data that is missing counts as empty and is
    reported by an error line each; the count of containers and the count of
    dynamic items are the ones logged, and the generators are called once
    for each container and once for the dynamic loot. *)
Theorem generate_assembles_loot
    (name : string) (loc : ILocation) (b : ILocationBase) (w : Location.World) :
  name <> "hideout" ->
  prop_get name (tableLocations ext) = Some loc ->
  base loc = Some b ->
  cloneOfUndefinedThrows ext = false ->
  let details := lootStaticContainers (tableLoot ext) !! Name b in
  let weapons := default [] (details ≫= staticWeapons) in
  let containers := default [] (details ≫= staticContainers) in
  let generated :=
    imap (fun i c => generateContainerLoot ext (Location.draws w + i) c
                       (details ≫= staticForced) (staticLoot (tableLoot ext))
                       (staticAmmo (tableLoot ext)) name) containers in
  let dynamic :=
    generateDynamicLoot ext (Location.draws w + length containers) (looseLoot loc)
      (staticAmmo (tableLoot ext)) name in
  let missing (data : bool) (what : string) :=
    if data then []
    else [Error ("Unable to find " ++ what ++ " data for map: " ++ Name b)] in
  exists out w',
    generate ext name w = (Returned out, w')
    /\ Loot out = Some (weapons ++ generated ++ dynamic)
    /\ _Id out = _Id b /\ Name out = Name b /\ baseOther out = baseOther b
    /\ UnixDateTime out = Some (Location.getTimestamp ext)
    /\ Location.draws w' = Location.draws w + length containers + 1
    /\ Location.logged w'
       = Location.logged w
         ++ missing (bool_decide (is_Some (details ≫= staticWeapons))) "static weapon"
         ++ missing (bool_decide (is_Some (details ≫= staticContainers))) "static container"
         ++ missing (bool_decide (is_Some (details ≫= staticForced))) "forced static"
         ++ [Success (Location.getText ext "location-containers_generated_success"
                        (ArgNumber (length containers)));
             Success (Location.getText ext "location-dynamic_items_spawned_success"
                        (ArgNumber (length dynamic)));
             Success (Location.getText ext "location-generated_success"
                        (ArgString name))].
Proof.
  intros Hname Hloc Hbase Hclone details weapons containers generated dynamic missing.
  unfold generate. rewrite Hloc. erewrite loc_bind_Returned by reflexivity.
  rewrite Hbase. erewrite loc_bind_Returned by reflexivity.
  rewrite bool_decide_eq_false_2 by exact Hname.
  erewrite loc_bind_Returned by reflexivity.
  fold details.
  assert (Hcl : forall A (x : option A) w0, clone ext x w0 = (Returned x, w0)).
  { intros A [a|] w0; unfold clone; [reflexivity|]. rewrite Hclone. reflexivity. }
  assert (Herr : forall A (x : option A) what w0,
            errorUnless x ("Unable to find " ++ what ++ " data for map: " ++ Name b) w0
            = (Returned tt,
               {| Location.logged :=
                    Location.logged w0 ++ missing (bool_decide (is_Some x)) what;
                  Location.draws := Location.draws w0 |})).
  { intros A [a|] what w0; unfold errorUnless, missing.
    - rewrite bool_decide_eq_true_2 by eauto. rewrite app_nil_r. destruct w0; reflexivity.
    - rewrite bool_decide_eq_false_2 by (intros [? ?]; discriminate). reflexivity. }
  erewrite loc_bind_Returned by apply Hcl.
  erewrite loc_bind_Returned by apply (Herr _ _ "static weapon").
  erewrite loc_bind_Returned by apply Hcl.
  erewrite loc_bind_Returned by apply (Herr _ _ "static container").
  erewrite loc_bind_Returned by apply Hcl.
  erewrite loc_bind_Returned by apply (Herr _ _ "forced static").
  erewrite loc_bind_Returned by apply Hcl.
  erewrite loc_bind_Returned by apply Hcl.
  erewrite loc_bind_Returned by apply foldM_containers.
  erewrite loc_bind_Returned by reflexivity.
  erewrite loc_bind_Returned by apply Hcl.
  erewrite loc_bind_Returned by reflexivity.
  erewrite loc_bind_Returned by reflexivity.
  erewrite loc_bind_Returned by reflexivity.
  eexists _, _. split; [reflexivity|].
  cbn [Loot _Id Name baseOther UnixDateTime set_Loot set_UnixDateTime
       Location.logged Location.draws default Datatypes.id app].
  fold weapons containers.
  split; [rewrite <- app_assoc; reflexivity|].
  repeat split.
  - lia.
  - rewrite <- !app_assoc. reflexivity.
Qed.

Lemma foldM_generateAll (entries : list (string * ILocation)) :
  forall (acc : gmap string ILocationBase) (w : Location.World),
    exists m,
      foldM generateAllStep acc entries w
      = (Returned m,
         {| Location.logged :=
              Location.logged w
              ++ ((fun entry : string * ILocation =>
                     Debug ("Map: " ++ entry.1
                            ++ " has no base json file, skipping generation"))
                    <$> filter (fun entry => ~ is_Some (base entry.2)) entries);
            Location.draws := Location.draws w |})
      /\ (forall i b, m !! i = Some b ->
            acc !! i = Some b
            \/ exists k e b0, (k, e) ∈ entries /\ base e = Some b0
                              /\ b = set_Loot (Some []) b0 /\ i = _Id b0)
      /\ (forall i, is_Some (acc !! i) -> is_Some (m !! i))
      /\ (forall k e b0, (k, e) ∈ entries -> base e = Some b0 -> is_Some (m !! _Id b0)).
Proof.
  induction entries as [|[k e] entries IH]; intros acc w.
  - exists acc. cbn [foldM]. rewrite filter_nil, fmap_nil, app_nil_r. split.
    + destruct w; reflexivity.
    + split; [auto|]. split; [auto|].
      intros k e b0 H. apply elem_of_nil in H. contradiction.
  - cbn [foldM]. unfold generateAllStep at 1. cbn [fst snd].
    destruct (base e) as [b0|] eqn:Hb.
    + erewrite loc_bind_Returned by reflexivity.
      match goal with
      | |- context [foldM _ ?a entries ?w1] =>
          destruct (IH a w1) as (m & Hrun & Hfrom & Hkeep & Hall)
      end.
      exists m. rewrite Hrun.
      rewrite filter_cons_False by (cbn [snd]; rewrite Hb; intros H; apply H; eauto).
      split; [reflexivity|]. split; [|split].
      * intros i b Hm. destruct (Hfrom i b Hm) as [Hacc|(k' & e' & b' & Hin & Hb' & -> & ->)].
        -- cbn [_Id set_Loot] in Hacc.
           destruct (decide (_Id b0 = i)) as [<-|Hne].
           ++ rewrite lookup_insert_eq in Hacc. injection Hacc as <-.
              right. exists k, e, b0. repeat split; [left|exact Hb].
           ++ rewrite lookup_insert_ne in Hacc by exact Hne. left. exact Hacc.
        -- right. exists k', e', b'. repeat split; [right; exact Hin|exact Hb'].
      * intros i Hi. apply Hkeep. cbn [_Id set_Loot].
        destruct (decide (_Id b0 = i)) as [<-|Hne].
        -- rewrite lookup_insert_eq. eauto.
        -- rewrite lookup_insert_ne by exact Hne. exact Hi.
      * intros k' e' b' Hin Hb'. apply elem_of_cons in Hin as [[= -> ->]|Hin].
        -- apply Hkeep. cbn [_Id set_Loot].
           assert (b' = b0) by congruence. subst b'.
           rewrite lookup_insert_eq. eauto.
        -- apply (Hall k' e' b' Hin Hb').
    + erewrite loc_bind_Returned by reflexivity.
      match goal with
      | |- context [foldM _ acc entries ?w1] =>
          destruct (IH acc w1) as (m & Hrun & Hfrom & Hkeep & Hall)
      end.
      exists m. rewrite Hrun.
      rewrite filter_cons_True by (cbn [snd]; rewrite Hb; intros [? ?]; discriminate).
      split.
      { cbn [Location.logged Location.draws fmap list_fmap fst].
        rewrite <- app_assoc. reflexivity. }
      split; [|split].
      * intros i b Hm. destruct (Hfrom i b Hm) as [Hacc|(k' & e' & b' & Hin & Hb' & -> & ->)].
        -- left. exact Hacc.
        -- right. exists k', e', b'. repeat split; [right; exact Hin|exact Hb'].
      * exact Hkeep.
      * intros k' e' b' Hin Hb'. apply elem_of_cons in Hin as [[= -> ->]|Hin].
        -- congruence.
        -- apply (Hall k' e' b' Hin Hb').
Qed.

(** X19. [generateAll] throws a [TypeError] when the [locations] table has
    no entry called "base", and otherwise returns the [paths] of that entry
    and a dictionary in which every location is filed under its own [_Id],
    has an empty [Loot] and is, for the rest, the base of an entry of the
    table; every entry with a base is in the dictionary under the [_Id] of
    its base (a later entry with the same [_Id] may have taken its place).
    In both cases one debug line is logged for each entry without base, in
    the order of the table, and no generator is called. *)
Theorem generateAll_locations (sessionId : string) (w : Location.World) :
  let skipped :=
    (fun entry : string * ILocation =>
       Debug ("Map: " ++ entry.1 ++ " has no base json file, skipping generation"))
      <$> filter (fun entry => ~ is_Some (base entry.2)) (tableLocations ext) in
  let w' := {| Location.logged := Location.logged w ++ skipped;
               Location.draws := Location.draws w |} in
  (prop_get "base" (tableLocations ext) = None ->
     generateAll ext sessionId w = (TypeError, w'))
  /\ (forall locationsBase, prop_get "base" (tableLocations ext) = Some locationsBase ->
     exists response,
       generateAll ext sessionId w = (Returned response, w')
       /\ responsePaths response = paths locationsBase
       /\ (forall i b, locations response !! i = Some b ->
             _Id b = i /\ Loot b = Some []
             /\ exists k e b0, (k, e) ∈ tableLocations ext /\ base e = Some b0
                               /\ b = set_Loot (Some []) b0)
       /\ (forall k e b0, (k, e) ∈ tableLocations ext -> base e = Some b0 ->
             is_Some (locations response !! _Id b0))).
Proof.
  intros skipped w'. unfold generateAll.
  destruct (foldM_generateAll (tableLocations ext) ∅ w) as (m & Hrun & Hfrom & _ & Hall).
  fold skipped in Hrun. fold w' in Hrun.
  split.
  - intros Hnone. erewrite loc_bind_Returned by exact Hrun. rewrite Hnone. reflexivity.
  - intros locationsBase Hbase. erewrite loc_bind_Returned by exact Hrun.
    rewrite Hbase. eexists. split; [reflexivity|]. cbn [locations responsePaths].
    split; [reflexivity|]. split; [|exact Hall].
    intros i b Hm. destruct (Hfrom i b Hm) as [Hacc|(k & e & b0 & Hin & Hb & -> & ->)].
    + rewrite lookup_empty in Hacc. discriminate.
    + split; [reflexivity|]. split; [reflexivity|]. eauto 6.
Qed.

Lemma getAirdropLootConfigByType_run (airdropType : string) (w : Location.World) :
  let notFound :=
    Error (Location.getText ext "location-unable_to_find_airdrop_drop_config_of_type"
             (ArgString airdropType)) in
  let w' := {| Location.logged := Location.logged w ++ [notFound];
               Location.draws := Location.draws w |} in
  (forall settings, airdropLoot airdropConfig !! airdropType = Some settings ->
     getAirdropLootConfigByType ext airdropConfig airdropType w
     = (Returned (requestOf settings), w))
  /\ (forall mixed, airdropLoot airdropConfig !! airdropType = None ->
     airdropLoot airdropConfig !! MIXED ext = Some mixed ->
     getAirdropLootConfigByType ext airdropConfig airdropType w
     = (Returned (requestOf mixed), w'))
  /\ (airdropLoot airdropConfig !! airdropType = None ->
     airdropLoot airdropConfig !! MIXED ext = None ->
     getAirdropLootConfigByType ext airdropConfig airdropType w = (TypeError, w')).
Proof.
  intros notFound w'. unfold getAirdropLootConfigByType.
  split; [|split].
  - intros settings Hs. rewrite Hs. reflexivity.
  - intros mixed Hn Hm. rewrite Hn.
    unfold Location.bind, Location.logger, Location.ret, Location.defined. simpl.
    rewrite Hm. reflexivity.
  - intros Hn Hm. rewrite Hn.
    unfold Location.bind, Location.logger, Location.ret, Location.defined. simpl.
    rewrite Hm. reflexivity.
Qed.

(** X20. [getAirdropLoot] draws the airdrop type, logs it, and makes the
    loot from the settings of that type; when the configuration has no
    settings for the type it logs an error and makes the loot from the
    settings of the mixed type, while the [dropType] it returns is still the
    type that was drawn; when the mixed type has no settings either it
    throws a [TypeError] after the two log lines. *)
Theorem getAirdropLoot_falls_back_to_mixed (w : Location.World) :
  let chosen := getWeightedValue ext (Location.draws w) (airdropTypeWeightings airdropConfig) in
  let chose := Debug ("Chose " ++ chosen ++ " for airdrop loot") in
  let notFound :=
    Error (Location.getText ext "location-unable_to_find_airdrop_drop_config_of_type"
             (ArgString chosen)) in
  (forall settings, airdropLoot airdropConfig !! chosen = Some settings ->
     getAirdropLoot ext airdropConfig w
     = (Returned {| dropType := chosen;
                    loot := createRandomLoot ext (S (Location.draws w)) (requestOf settings) |},
        {| Location.logged := Location.logged w ++ [chose];
           Location.draws := S (S (Location.draws w)) |}))
  /\ (forall mixed, airdropLoot airdropConfig !! chosen = None ->
     airdropLoot airdropConfig !! MIXED ext = Some mixed ->
     getAirdropLoot ext airdropConfig w
     = (Returned {| dropType := chosen;
                    loot := createRandomLoot ext (S (Location.draws w)) (requestOf mixed) |},
        {| Location.logged := Location.logged w ++ [chose; notFound];
           Location.draws := S (S (Location.draws w)) |}))
  /\ (airdropLoot airdropConfig !! chosen = None ->
     airdropLoot airdropConfig !! MIXED ext = None ->
     getAirdropLoot ext airdropConfig w
     = (TypeError,
        {| Location.logged := Location.logged w ++ [chose; notFound];
           Location.draws := S (Location.draws w) |})).
Proof.
  intros chosen chose notFound.
  unfold getAirdropLoot, chooseAirdropType.
  erewrite loc_bind_Returned by reflexivity.
  erewrite loc_bind_Returned by reflexivity.
  cbn [Location.draws Location.logged]. fold chosen. fold chose.
  split; [|split].
  - intros settings Hs.
    erewrite loc_bind_Returned
      by exact (proj1 (getAirdropLootConfigByType_run chosen _) settings Hs).
    reflexivity.
  - intros mixed Hn Hm.
    erewrite loc_bind_Returned
      by exact (proj1 (proj2 (getAirdropLootConfigByType_run chosen _)) mixed Hn Hm).
    cbn [Location.draws Location.logged]. fold notFound.
    rewrite <- app_assoc. reflexivity.
  - intros Hn Hm.
    erewrite loc_bind_TypeError
      by exact (proj2 (proj2 (getAirdropLootConfigByType_run chosen _)) Hn Hm).
    cbn [Location.draws Location.logged]. fold notFound.
    rewrite <- app_assoc. reflexivity.
Qed.

Lemma lower_ascii_space c :
  Ascii.eqb (lower_ascii c) Ascii.Space = Ascii.eqb c Ascii.Space.
Proof.
  destruct c as [[] [] [] [] [] [] [] []]; reflexivity.
Qed.

Lemma lower_ascii_idempotent c : lower_ascii (lower_ascii c) = lower_ascii c.
Proof.
  destruct c as [[] [] [] [] [] [] [] []]; reflexivity.
Qed.

Lemma toLowerCase_idempotent s : toLowerCase (toLowerCase s) = toLowerCase s.
Proof.
  induction s as [|c s IH]; simpl; [reflexivity|].
  rewrite lower_ascii_idempotent, IH. reflexivity.
Qed.

Lemma replaceFirstSpace_toLowerCase s :
  replaceFirstSpace (toLowerCase s) = toLowerCase (replaceFirstSpace s).
Proof.
  induction s as [|c s IH]; simpl; [reflexivity|].
  rewrite lower_ascii_space. destruct (Ascii.eqb c Ascii.Space); [reflexivity|].
  simpl. rewrite IH. reflexivity.
Qed.

Lemma spaces_toLowerCase s : spaces (toLowerCase s) = spaces s.
Proof.
  induction s as [|c s IH]; simpl; [reflexivity|].
  rewrite lower_ascii_space, IH. reflexivity.
Qed.

Lemma spaces_replaceFirstSpace s : spaces (replaceFirstSpace s) = pred (spaces s).
Proof.
  induction s as [|c s IH]; simpl; [reflexivity|].
  destruct (Ascii.eqb c Ascii.Space) eqn:E; simpl; rewrite ?E; simpl;
    [reflexivity|exact IH].
Qed.

Lemma length_toLowerCase s : String.length (toLowerCase s) = String.length s.
Proof. induction s as [|c s IH]; simpl; [reflexivity|]. rewrite IH. reflexivity. Qed.

Lemma length_replaceFirstSpace s :
  String.length (replaceFirstSpace s)
  = String.length s - (if spaces s is O then 0 else 1).
Proof.
  induction s as [|c s IH]; simpl; [reflexivity|].
  destruct (Ascii.eqb c Ascii.Space) eqn:E; simpl.
  - lia.
  - rewrite IH. destruct (spaces s) eqn:Hs; [lia|].
    destruct s as [|c' s']; [discriminate Hs|]. simpl. lia.
Qed.

Lemma replaceFirstSpace_no_space s : spaces s = 0 -> replaceFirstSpace s = s.
Proof.
  induction s as [|c s IH]; simpl; [reflexivity|].
  destruct (Ascii.eqb c Ascii.Space) eqn:E; simpl; [discriminate|].
  intros H. rewrite (IH H). reflexivity.
Qed.

(** X21. [get] calls [generate] with the name in lower case from which the
    first space only has been taken out: the name has one space less than
    the location it was made from, or none if that had none, so a location
    written with two spaces is looked up under a name that still has one;
    and a name that is already in that form is looked up as it is. *)
Theorem get_normalises_name (location : string) (w : Location.World) :
  exists name,
    Location.get ext location w = generate ext name w
    /\ toLowerCase name = name
    /\ spaces name = pred (spaces location)
    /\ String.length name = String.length location - (if spaces location is O then 0 else 1)
    /\ (spaces location = 0 -> name = toLowerCase location).
Proof.
  exists (replaceFirstSpace (toLowerCase location)).
  split; [reflexivity|]. split.
  { rewrite replaceFirstSpace_toLowerCase, toLowerCase_idempotent. reflexivity. }
  split.
  { rewrite spaces_replaceFirstSpace, spaces_toLowerCase. reflexivity. }
  split.
  { rewrite length_replaceFirstSpace, spaces_toLowerCase, length_toLowerCase.
    reflexivity. }
  intros H. apply replaceFirstSpace_no_space. rewrite spaces_toLowerCase. exact H.
Qed.

End location_controller.

(** * The further properties on the examples *)

Section further_examples.

Import Examples.

Lemma registry_push_then_read_witness :
  exists w',
    (bind (resetInsuranceTraderArray "s" "X")
       (fun _ => forEach (addInsuranceItemToArray "s" "X") [itemA; selfParented]))
      (world {[ "s" := [("Y", [itemA])] ]}) = (Returned tt, w')
    /\ getInsuranceItems "s" "X" w' = (Returned (Some [itemA; selfParented]), w')
    /\ getInsuranceItems "s" "Y" w' = (Returned (Some [itemA]), w').
Proof.
  assert (Hentry : insured (world {[ "s" := [("Y", [itemA])] ]}) !! "s"
                   = Some [("Y", [itemA])]) by reflexivity.
  destruct (registry_push_then_read "s" "X" [itemA; selfParented]
              (world {[ "s" := [("Y", [itemA])] ]}) [("Y", [itemA])] Hentry)
    as (w' & Hrun & Hread & Hother).
  exists w'. split; [exact Hrun|]. split; [exact Hread|].
  apply (Hother "Y"). discriminate.
Defined.

Lemma removeLocationProperty_idempotent_witness :
  exists w',
    removeLocationProperty "s" "X" (world {[ "s" := [("X", [selfParented; itemA])] ]})
      = (Returned tt, w')
    /\ removeLocationProperty "s" "X" w' = (Returned tt, w').
Proof.
  assert (Hentry : insured (world {[ "s" := [("X", [selfParented; itemA])] ]}) !! "s"
                   = Some [("X", [selfParented; itemA])]) by reflexivity.
  exact (removeLocationProperty_idempotent "s" "X"
           (world {[ "s" := [("X", [selfParented; itemA])] ]})
           [("X", [selfParented; itemA])] [selfParented; itemA] Hentry eq_refl).
Defined.



Lemma storeLostGear_nothing_lost_witness :
  equipmentToSendToPlayer (config ∅ 0) 1%positive profile0 offraidKept [itemA] "s" false
    = []
  /\ storeLostGear (config ∅ 0) 1%positive offraidKept [itemA] "s" false (world ∅)
     = (Returned tt, world ∅).
Proof.
  assert (Hprofile : profiles (world ∅) !! 1%positive = Some profile0) by reflexivity.
  apply (storeLostGear_nothing_lost (config ∅ 0) 1%positive profile0 offraidKept [itemA]
           "s" (world ∅) Hprofile).
  intros e He. apply list_elem_of_singleton in He. subst e.
  exists itemA. split; [left|reflexivity].
Defined.

Lemma getInsuranceReturnTimestamp_bonus_witness :
  exists t : Q,
    Double.getInsuranceReturnTimestamp (collaborators 10) (config ∅ 0) profile2 trader0
      (world ∅) = (Returned t, next_draw (world ∅))
    /\ t = (8449746859458559 # 137438953472)%Q
    /\ (1000 <= t)%Q /\ (t <= 1000 + 86400)%Q
    /\ (t < 1000 + 86400 * (70 # 100))%Q.
Proof.
  destruct (getInsuranceReturnTimestamp_bonus (collaborators 10) (config ∅ 0) profile2
              trader0 (world ∅) {| bonusType := "InsuranceReturnTime"; bonusValue := -30 |})
    as (t & Hrun & Ht & Hin & _).
  - discriminate.
  - reflexivity.
  - vm_compute. reflexivity.
  - vm_compute. reflexivity.
  - exists t. split; [exact Hrun|].
    assert (Hval : t = (8449746859458559 # 137438953472)%Q).
    { rewrite Ht. vm_compute. reflexivity. }
    split; [exact Hval|].
    destruct Hin as [Hlo Hhi]; [vm_compute; discriminate|vm_compute; discriminate|].
    split; [exact Hlo|]. split.
    + rewrite Hval. vm_compute. discriminate.
    + rewrite Hval. reflexivity.
Defined.


Lemma sendInsuredItems_flushes_witness :
  exists w' rs,
    sendInsuredItems (collaborators 10) (config ∅ 0) profile1 "s" "factory4_day"
      (world1 {[ "s" := [(prapor, [itemA])] ]}) = (Returned tt, w')
    /\ insured w' !! "s" = Some []
    /\ default [] (profileInsurance w' !! "s") = rs
    /\ insTraderId <$> rs = [prapor].
Proof.
  assert (Hentry : insured (world1 {[ "s" := [(prapor, [itemA])] ]}) !! "s"
                   = Some [(prapor, [itemA])]) by reflexivity.
  destruct (sendInsuredItems_flushes (collaborators 10) (config ∅ 0) profile1 "s"
              "factory4_day" (world1 {[ "s" := [(prapor, [itemA])] ]}))
    as (w' & rs & ds & Hrun & Hi & Hpi & _ & [Hrs _] & _).
  - rewrite Hentry. intros k Hk. apply list_elem_of_singleton in Hk. subst k.
    exists {| dialogue := Some dialogue0 |}, dialogue0. split; reflexivity.
  - exists w', rs. split; [exact Hrun|].
    split; [rewrite Hi; apply lookup_insert_eq|].
    split; [rewrite Hpi; reflexivity|].
    rewrite Hrs, Hentry. reflexivity.
Defined.

Lemma storeLostGear_then_sendInsuredItems_witness :
  exists (w' : World) (rs : list Insurance) (profile' : IPmcData),
    (bind (storeLostGear (config ∅ 0) 1%positive offraid0 [itemA] "s" false)
       (fun _ => sendInsuredItems (collaborators 10) (config ∅ 0) profile1 "s"
                   "factory4_day")) (world1 ∅) = (Returned tt, w')
    /\ insured w' !! "s" = Some []
    /\ default [] (profileInsurance w' !! "s") = rs
    /\ insTraderId <$> rs = [prapor]
    /\ items <$> rs = [[getInsuredItemDetails profile1 itemA None]]
    /\ profiles w' !! 1%positive = Some profile'
    /\ InsuredItems profile' = [].
Proof.
  assert (Hprofile : profiles (world1 ∅) !! 1%positive = Some profile1) by reflexivity.
  assert (Hidle : insured (world1 ∅) !! "s" = None) by reflexivity.
  destruct (storeLostGear_then_sendInsuredItems (collaborators 10) (config ∅ 0)
              1%positive profile1 profile1 offraid0 [itemA] "s" "factory4_day" false
              (world1 ∅) Hprofile Hidle)
    as (w' & rs & profile' & Hrun & _).
  - intros e He. apply list_elem_of_singleton in He. subst e.
    exists {| dialogue := Some dialogue0 |}, dialogue0. split; reflexivity.
  - vm_compute in Hrun. injection Hrun as <-.
    eexists _, _, _. split; [vm_compute; reflexivity|].
    vm_compute. repeat split.
Defined.

Lemma generate_assembles_loot_witness :
  exists out w',
    Location.generate locationCollaborators "factory4_day" locationWorld
      = (Returned out, w')
    /\ Location.Loot out
       = Some [Location.JString "mounted";
               Location.JArray [Location.JString "c1"];
               Location.JArray [Location.JString "c2"];
               Location.JString "loose"]
    /\ Location.draws w' = 3
    /\ length (Location.logged w') = 4.
Proof.
  destruct (generate_assembles_loot locationCollaborators "factory4_day"
              {| Location.base := Some factoryBase;
                 Location.looseLoot := Some Location.JNull; Location.paths := None |}
              factoryBase locationWorld)
    as (out & w' & Hrun & Hloot & _ & _ & _ & _ & Hdraws & Hlogged).
  - discriminate.
  - reflexivity.
  - reflexivity.
  - reflexivity.
  - exists out, w'. split; [exact Hrun|]. split; [rewrite Hloot; reflexivity|].
    split; [rewrite Hdraws; reflexivity|]. rewrite Hlogged. reflexivity.
Defined.

End further_examples.
